(** * Monte-Carlo trade simulator: the engine of [src/app/page.tsx]

    A shallow embedding of the simulation-and-statistics engine (the PRNG,
    the bucket sampler, the per-path simulator with its progressive-exposure
    state machine, and the statistics primitives), of the values that the
    page derives from a result (the risk of ruin, the percentile paths, the
    path of the trade chart, the rounded histogram labels), and the
    properties of them: those that the specification states, and further
    ones read off the code.

    Numbers.  A JavaScript number is modelled by [number]: an exact rational,
    or one of NaN, +Infinity, -Infinity.  The arithmetic follows IEEE 754 on
    the special values (NaN is absorbing, Infinity - Infinity is NaN, 0/0 is
    NaN, x/0 is an infinity, every comparison with NaN is false).  Rounding
    of finite results is not modelled: finite arithmetic is exact.  The sign
    of zero is not modelled either: the zero of the model is +0. *)

From Stdlib Require Import String ZArith QArith Qround Qabs List Sorted Permutation
  Bool Lia Lqa.
Import ListNotations.

Local Open Scope Q_scope.

(* ================================================================== *)
(** ** Rational helpers *)

Definition Qlt_bool (a b : Q) : bool := negb (Qle_bool b a).

(** [Math.trunc] on a rational: rounding toward zero. *)
Definition Qtrunc (q : Q) : Z := Z.quot (Qnum q) (Zpos (Qden q)).

Definition Qis_int (q : Q) : bool := Qeq_bool q (inject_Z (Qfloor q)).

(* ================================================================== *)
(** ** JavaScript numbers *)

Inductive number : Type :=
| NaN
| PosInfinity
| NegInfinity
| Num (q : Q).

Declare Scope js_scope.
Delimit Scope js_scope with js.
Bind Scope js_scope with number.

Definition of_Z (z : Z) : number := Num (inject_Z z).
Definition of_nat (n : nat) : number := of_Z (Z.of_nat n).

Definition zero : number := Num 0.
Definition one : number := Num 1.

Definition isFinite (x : number) : bool :=
  match x with Num _ => true | _ => false end.

Definition neg (x : number) : number :=
  match x with
  | NaN => NaN
  | PosInfinity => NegInfinity
  | NegInfinity => PosInfinity
  | Num q => Num (- q)
  end.

Definition add (x y : number) : number :=
  match x, y with
  | NaN, _ | _, NaN => NaN
  | PosInfinity, NegInfinity | NegInfinity, PosInfinity => NaN
  | PosInfinity, _ | _, PosInfinity => PosInfinity
  | NegInfinity, _ | _, NegInfinity => NegInfinity
  | Num a, Num b => Num (a + b)
  end.

Definition sub (x y : number) : number := add x (neg y).

(** The infinity with the sign of [q] times the sign given by [positive];
    NaN when [q] is zero (Infinity * 0). *)
Definition signed_inf (positive : bool) (q : Q) : number :=
  if Qeq_bool q 0 then NaN
  else if Bool.eqb positive (Qlt_bool 0 q) then PosInfinity else NegInfinity.

Definition mul (x y : number) : number :=
  match x, y with
  | NaN, _ | _, NaN => NaN
  | PosInfinity, PosInfinity | NegInfinity, NegInfinity => PosInfinity
  | PosInfinity, NegInfinity | NegInfinity, PosInfinity => NegInfinity
  | PosInfinity, Num b | Num b, PosInfinity => signed_inf true b
  | NegInfinity, Num b | Num b, NegInfinity => signed_inf false b
  | Num a, Num b => Num (a * b)
  end.

Definition div (x y : number) : number :=
  match x, y with
  | NaN, _ | _, NaN => NaN
  | (PosInfinity | NegInfinity), (PosInfinity | NegInfinity) => NaN
  | PosInfinity, Num b => if Qlt_bool b 0 then NegInfinity else PosInfinity
  | NegInfinity, Num b => if Qlt_bool b 0 then PosInfinity else NegInfinity
  | Num _, (PosInfinity | NegInfinity) => Num 0
  | Num a, Num b =>
      if Qeq_bool b 0 then
        (if Qeq_bool a 0 then NaN
         else if Qlt_bool 0 a then PosInfinity else NegInfinity)
      else Num (a / b)
  end.

(** [x < y]; false as soon as one side is NaN. *)
Definition lt (x y : number) : bool :=
  match x, y with
  | NaN, _ | _, NaN => false
  | _, NegInfinity => false
  | NegInfinity, _ => true
  | PosInfinity, _ => false
  | Num _, PosInfinity => true
  | Num a, Num b => Qlt_bool a b
  end.

(** [x <= y]; false as soon as one side is NaN. *)
Definition le (x y : number) : bool :=
  match x, y with
  | NaN, _ | _, NaN => false
  | NegInfinity, _ => true
  | _, PosInfinity => true
  | _, NegInfinity => false
  | PosInfinity, _ => false
  | Num a, Num b => Qle_bool a b
  end.

Definition gt (x y : number) : bool := lt y x.
Definition ge (x y : number) : bool := le y x.

Infix "+" := add : js_scope.
Infix "-" := sub : js_scope.
Infix "*" := mul : js_scope.
Infix "/" := div : js_scope.
Infix "<?" := lt : js_scope.
Infix "<=?" := le : js_scope.
Infix ">?" := gt : js_scope.
Infix ">=?" := ge : js_scope.

(** Equality of numbers as values: rationals up to [Qeq]. *)
Definition num_eq (x y : number) : Prop :=
  match x, y with
  | NaN, NaN | PosInfinity, PosInfinity | NegInfinity, NegInfinity => True
  | Num a, Num b => a == b
  | _, _ => False
  end.

Infix "=n=" := num_eq (at level 70, no associativity).

(** [Math.max(x, y)] and [Math.min(x, y)]: NaN if either argument is. *)
Definition Math_max (x y : number) : number :=
  match x, y with
  | NaN, _ | _, NaN => NaN
  | _, _ => if lt x y then y else x
  end.

Definition Math_min (x y : number) : number :=
  match x, y with
  | NaN, _ | _, NaN => NaN
  | _, _ => if lt y x then y else x
  end.

(** [Math.max(...xs)] and [Math.min(...xs)] on a spread array. *)
Definition Math_max_list (xs : list number) : number :=
  fold_left Math_max xs NegInfinity.

Definition Math_min_list (xs : list number) : number :=
  fold_left Math_min xs PosInfinity.

Definition Math_trunc (x : number) : number :=
  match x with Num q => of_Z (Qtrunc q) | _ => x end.

Definition Math_floor (x : number) : number :=
  match x with Num q => of_Z (Qfloor q) | _ => x end.

Definition Math_ceil (x : number) : number :=
  match x with Num q => of_Z (Qceiling q) | _ => x end.

Definition Math_abs (x : number) : number :=
  match x with
  | NaN => NaN
  | PosInfinity | NegInfinity => PosInfinity
  | Num q => Num (Qabs q)
  end.

(** Truthiness of a number: NaN and zero are falsy. *)
Definition falsy (x : number) : bool :=
  match x with
  | NaN => true
  | Num q => Qeq_bool q 0
  | _ => false
  end.

(** [x || d] on numbers. *)
Definition or_else (x d : number) : number := if falsy x then d else x.

(** [x ?? d]: [None] stands for [undefined] (or [null]). *)
Definition nullish {A : Type} (x : option A) (d : A) : A :=
  match x with Some a => a | None => d end.

(** An [undefined] operand of an arithmetic operation or a comparison is
    converted to NaN. *)
Definition to_number (x : option number) : number := nullish x NaN.

(** [x === y] on numbers: NaN differs from everything. *)
Definition strict_eq (x y : number) : bool :=
  match x, y with
  | PosInfinity, PosInfinity | NegInfinity, NegInfinity => true
  | Num a, Num b => Qeq_bool a b
  | _, _ => false
  end.

(** ** Arrays

    An array (or typed array) is a list.  [arr[i]] with a number [i] is the
    element when [i] is a whole number within the bounds and [undefined]
    otherwise. *)
Definition get (arr : list number) (i : number) : option number :=
  match i with
  | Num q =>
      if Qis_int q && Qle_bool 0 q then nth_error arr (Z.to_nat (Qfloor q))
      else None
  | _ => None
  end.

(** Number of iterations of [for (let i = 0; i < bound; i += 1)]: the count
    of naturals below [bound].  The loop would not end for +Infinity, a
    bound that no loop of the engine is given: the two loops of
    [runSimulation] run only after an array of that length was allocated,
    which +Infinity does not pass, and the month count is a quotient by a
    divisor of at least one. *)
Definition iterations (bound : number) : nat :=
  match bound with
  | Num q => Z.to_nat (Qceiling q)
  | _ => 0%nat
  end.

(** ** Exceptions *)

Inductive error : Type := RangeError | TypeError.

Inductive outcome (A : Type) : Type :=
| Ok (a : A)
| Throw (e : error).
Arguments Ok {A} a.
Arguments Throw {A} e.

Definition bind {A B : Type} (m : outcome A) (f : A -> outcome B) : outcome B :=
  match m with Ok a => f a | Throw e => Throw e end.

Notation "'let*' x ':=' m 'in' f" := (bind m (fun x => f))
  (at level 10, x pattern, m at level 100, f at level 200).

(** [new Array(len)]: the length must be a whole number in [0, 2^32 - 1]. *)
Definition new_Array (len : number) : outcome nat :=
  match len with
  | Num q =>
      if Qis_int q && Qle_bool 0 q && Qlt_bool q (inject_Z (2 ^ 32))
      then Ok (Z.to_nat (Qfloor q))
      else Throw RangeError
  | _ => Throw RangeError
  end.

(** [new Float64Array(len)]: the length goes through ToIndex: NaN is 0, the
    value is truncated, and it must lie in [0, 2^53 - 1].  (An engine may
    refuse a smaller length for lack of memory; the model has no such
    limit.) *)
Definition new_Float64Array (len : number) : outcome nat :=
  match len with
  | NaN => Ok 0%nat
  | Num q =>
      let n := Qtrunc q in
      if ((0 <=? n) && (n <? 2 ^ 53))%Z then Ok (Z.to_nat n)
      else Throw RangeError
  | _ => Throw RangeError
  end.

(* ================================================================== *)
(** ** The seeded generator ([mulberry32], [createRng]) *)

Section Prng.
Local Open Scope Z_scope.

Definition ToUint32 (z : Z) : Z := z mod 2 ^ 32.

Definition ToInt32 (z : Z) : Z :=
  let u := z mod 2 ^ 32 in if u <? 2 ^ 31 then u else u - 2 ^ 32.

(** [x ^ y], [x | y], [x >>> n] and [Math.imul(x, y)] on integer-valued
    numbers. *)
Definition bit_xor (x y : Z) : Z := Z.lxor (ToInt32 x) (ToInt32 y).
Definition bit_or (x y : Z) : Z := Z.lor (ToInt32 x) (ToInt32 y).
Definition ushr (x n : Z) : Z := Z.shiftr (ToUint32 x) n.
Definition Math_imul (x y : Z) : Z := ToInt32 (ToInt32 x * ToInt32 y).

(** The sum [a + 0x6d2b79f5] is a sum of doubles: the state [a] is never
    wrapped to 32 bits, so it grows, and past 2^53 the sum is rounded to 53
    significant bits, ties to even.  [round_double] is that rounding on a
    non-negative integer. *)
Definition round_double (n : Z) : Z :=
  let e := Z.log2 n - 52 in
  if e <=? 0 then n
  else
    let q := Z.shiftr n e in
    let r := n - Z.shiftl q e in
    let half := Z.shiftl 1 (e - 1) in
    let q' := if r <? half then q
              else if half <? r then q + 1
              else if Z.even q then q else q + 1 in
    Z.shiftl q' e.

(** One call of the closure returned by [mulberry32]: the new state and the
    32-bit integer whose quotient by 2^32 is returned. *)
Definition mulberry32_next (a : Z) : Z * Z :=
  let a := round_double (a + 0x6d2b79f5) in
  let t := a in
  let t := Math_imul (bit_xor t (ushr t 15)) (bit_or t 1) in
  let t := bit_xor t (t + Math_imul (bit_xor t (ushr t 7)) (bit_or t 61)) in
  (a, ushr (bit_xor t (ushr t 14)) 0).

End Prng.

(** [seed >>> 0]. *)
Definition seed_state (seed : number) : Z :=
  match seed with
  | Num q => ToUint32 (Qtrunc q)
  | _ => 0%Z
  end.

(** The hidden state of [Math.random]: the values it is going to return and
    how many of them were handed out. *)
Record MathRandom : Type := {
  stream : nat -> number;
  position : nat
}.

(** A generator is the closure of [mulberry32] (its captured variable [a])
    or [Math.random]. *)
Inductive generator : Type :=
| Mulberry32 (a : Z)
| Ambient (w : MathRandom).

(** The generator together with a ghost count of the calls made to it. *)
Record Rng : Type := {
  gen : generator;
  calls : nat
}.

Definition mulberry32 (seed : number) : generator := Mulberry32 (seed_state seed).

Definition createRng (seed : option number) (w : MathRandom) : Rng :=
  match seed with
  | Some s =>
      if isFinite s then {| gen := mulberry32 (Math_trunc s); calls := 0 |}
      else {| gen := Ambient w; calls := 0 |}
  | None => {| gen := Ambient w; calls := 0 |}
  end.

(** [rng()]. *)
Definition draw (g : Rng) : number * Rng :=
  match gen g with
  | Mulberry32 a =>
      let '(a', out) := mulberry32_next a in
      (Num (out # 4294967296), {| gen := Mulberry32 a'; calls := S (calls g) |})
  | Ambient w =>
      (stream w (position w),
       {| gen := Ambient {| stream := stream w; position := S (position w) |};
          calls := S (calls g) |})
  end.

(* ================================================================== *)
(** ** Percentile, drawdown and streak primitives *)

(** [[...values].sort((a, b) => a - b)].  The sort of an array is stable,
    and when the comparator is a consistent order (as it is on finite
    numbers) the stable sorted arrangement is unique: it is the one this
    insertion sort builds.  For an inconsistent comparator (NaN among the
    values) the arrangement is left to the engine. *)
Fixpoint insert (x : number) (l : list number) : list number :=
  match l with
  | [] => [x]
  | y :: l' => if (x - y >? zero)%js then y :: insert x l' else x :: l
  end.

Definition sort (values : list number) : list number :=
  fold_right insert [] values.

Definition percentile (values : list number) (p : number) : option number :=
  if (length values =? 0)%nat then Some zero
  else
    let sorted := sort values in
    let index := ((p / Num 100) * (of_nat (length sorted) - one))%js in
    let lo := Math_floor index in
    let hi := Math_ceil index in
    if strict_eq lo hi then get sorted lo
    else
      let t := (index - lo)%js in
      Some (to_number (get sorted lo)
            + (to_number (get sorted hi) - to_number (get sorted lo)) * t)%js.

(** One turn of the running-peak loop: the new peak and the drawdown of
    [v] against it. *)
Definition peak_step (peak v : number) : number * number :=
  let peak := if (v >? peak)%js then v else peak in
  (peak, (v / peak - one)%js).

Definition dd_step (acc : number * number) (v : number) : number * number :=
  let '(peak, minDd) := acc in
  let '(peak, dd) := peak_step peak v in
  (peak, if (dd <? minDd)%js then dd else minDd).

Definition maxDrawdown (series : list number) : number :=
  match series with
  | [] => zero
  | s0 :: _ => snd (fold_left dd_step series (s0, zero))
  end.

Fixpoint drawdown_from (peak : number) (series : list number) : list number :=
  match series with
  | [] => []
  | v :: rest =>
      let '(peak, dd) := peak_step peak v in
      dd :: drawdown_from peak rest
  end.

Definition drawdownSeries (series : list number) : list number :=
  match series with
  | [] => []
  | s0 :: _ => drawdown_from s0 series
  end.

(** The loop of [maxConsecutiveLosses] on the pair (maxRun, run). *)
Definition loss_run_step (acc : nat * nat) (r : number) : nat * nat :=
  let '(maxRun, run) := acc in
  if (r <? zero)%js then
    let run := S run in
    (if (maxRun <? run)%nat then run else maxRun, run)
  else (maxRun, 0%nat).

Definition maxConsecutiveLosses (rPath : list number) : number :=
  of_nat (fst (fold_left loss_run_step rPath (0%nat, 0%nat))).

(* ================================================================== *)
(** ** Monthly aggregation ([monthlyStatsFromPath]) *)

Module MonthlyStatsRow.
Record t : Type := {
  year : number;
  month : number;
  returnValue : number;
  maxDrawdown : number;
  winRate : number;
  maxConsecutiveLosses : number;
  endEquity : number
}.
End MonthlyStatsRow.

(** The indices visited by [for (let i = startIdx; i <= endIdx; i += 1)].
    The loop is entered only when [endIdx < startIdx] is false, with
    [startIdx] at least 0 and [endIdx] below the trade count. *)
Definition block_indices (startIdx endIdx : number) : list number :=
  match startIdx, endIdx with
  | Num s, Num e =>
      map (fun k => (startIdx + of_nat k)%js)
          (seq 0 (Z.to_nat (Qfloor (e - s) + 1)))
  | _, _ => []
  end.

(** The tally loop of a block on (wins, losses, maxLossStreak, lossStreak). *)
Definition tally_step (acc : nat * nat * nat * nat) (r : number)
  : nat * nat * nat * nat :=
  let '(wins, losses, maxLossStreak, lossStreak) := acc in
  if (r >? zero)%js then (S wins, losses, maxLossStreak, 0%nat)
  else if (r <? zero)%js then
    let lossStreak := S lossStreak in
    (wins, S losses,
     if (maxLossStreak <? lossStreak)%nat then lossStreak else maxLossStreak,
     lossStreak)
  else (wins, losses, maxLossStreak, 0%nat).

(** The body of the month loop, from month [m] on, for at most [count]
    months.  An element read outside the path is [undefined]; every use of
    it here is arithmetic, where it counts as NaN. *)
Fixpoint months_loop (equityPath rPath : list number)
    (nTrades safeTradesPerMonth : number)
    (count m : nat) (prevEquity year month : number) : list MonthlyStatsRow.t :=
  match count with
  | O => []
  | S count' =>
      let startIdx := (of_nat m * safeTradesPerMonth)%js in
      let endIdx :=
        (Math_min ((of_nat m + one) * safeTradesPerMonth) nTrades - one)%js in
      if (endIdx <? startIdx)%js then []
      else
        let endEquity := to_number (get equityPath endIdx) in
        let returnValue := (endEquity / prevEquity - one)%js in
        let idxs := block_indices startIdx endIdx in
        let minDd :=
          snd (fold_left dd_step
                 (map (fun i => to_number (get equityPath i)) idxs)
                 (prevEquity, zero)) in
        let '(wins, losses, maxLossStreak, _) :=
          fold_left tally_step
            (map (fun i => to_number (get rPath i)) idxs)
            (0, 0, 0, 0)%nat in
        let trades := (wins + losses)%nat in
        let winRate :=
          if (trades =? 0)%nat then zero else (of_nat wins / of_nat trades)%js in
        let row := {| MonthlyStatsRow.year := year;
                      MonthlyStatsRow.month := month;
                      MonthlyStatsRow.returnValue := returnValue;
                      MonthlyStatsRow.maxDrawdown := minDd;
                      MonthlyStatsRow.winRate := winRate;
                      MonthlyStatsRow.maxConsecutiveLosses := of_nat maxLossStreak;
                      MonthlyStatsRow.endEquity := endEquity |} in
        let month := (month + one)%js in
        let '(year, month) :=
          if strict_eq month (Num 13) then ((year + one)%js, one)
          else (year, month) in
        row :: months_loop equityPath rPath nTrades safeTradesPerMonth
                 count' (S m) endEquity year month
  end.

Definition monthlyStatsFromPath (equityPath rPath : list number)
    (startEquity tradesPerMonth startYear startMonth : number) : list MonthlyStatsRow.t :=
  let nTrades := of_nat (length equityPath) in
  let safeTradesPerMonth := Math_max one tradesPerMonth in
  let nMonths := Math_ceil (nTrades / safeTradesPerMonth)%js in
  months_loop equityPath rPath nTrades safeTradesPerMonth
    (iterations nMonths) 0 startEquity startYear startMonth.

(* ================================================================== *)
(** ** Histograms ([histogram]) *)

Module Histogram.
Record t : Type := {
  bins : list number;
  counts : list number;
  min : number;
  max : number
}.
End Histogram.

Fixpoint bump (counts : list number) (i : nat) : list number :=
  match counts, i with
  | [], _ => []
  | c :: cs, O => (c + one)%js :: cs
  | c :: cs, S i' => c :: bump cs i'
  end.

(** [counts[idx] += 1].  The index is clamped below the bin count, so the
    array is never extended; with a NaN index the statement sets a property
    of the array object and no element. *)
Definition bump_at (counts : list number) (idx : number) : list number :=
  match idx with
  | Num q =>
      if Qis_int q && Qle_bool 0 q then bump counts (Z.to_nat (Qfloor q))
      else counts
  | _ => counts
  end.

(** Both calls pass the literal 60 for [binCount].  (An engine may refuse
    to spread a very long array into [Math.min] for lack of stack; the model
    has no such limit.) *)
Definition histogram (values : list number) (binCount : nat) : Histogram.t :=
  let min := Math_min_list values in
  let max := Math_max_list values in
  let span := or_else (max - min)%js one in
  let bins :=
    map (fun i => (min + (of_nat i * span) / of_nat binCount)%js)
        (seq 0 binCount) in
  let counts :=
    fold_left
      (fun counts v =>
         bump_at counts
           (Math_min (of_nat binCount - one)%js
              (Math_max zero
                 (Math_floor (((v - min) / span) * of_nat binCount)%js))))
      values (repeat zero binCount) in
  {| Histogram.bins := bins; Histogram.counts := counts;
     Histogram.min := min; Histogram.max := max |}.

(* ================================================================== *)
(** ** The simulator ([runSimulation]) *)

Inductive BucketType : Type := uniform | point.

Module Bucket.
Record t : Type := {
  id : string;
  name : string;
  p : number;
  type : BucketType;
  lo : option number;
  hi : option number;
  v : option number
}.
End Bucket.

Module Progressive.
Record t : Type := {
  lossStreakThreshold : number;
  winStreakThreshold : number;
  minRisk : number;
  maxRisk : number
}.
End Progressive.

Module Config.
Record t : Type := {
  startEquity : number;
  nTrades : number;
  nPaths : number;
  riskFraction : number;
  seed : option number;
  tradesPerMonth : number;
  startYear : number;
  startMonth : number;
  buckets : list Bucket.t;
  progressive : option Progressive.t
}.
End Config.

(** *** The probability table *)

Definition probs_of (buckets : list Bucket.t) : list number :=
  map (fun b => Math_max zero (Bucket.p b)) buckets.

Definition probSum_of (probs : list number) : number :=
  or_else (fold_left add probs zero) one.

Definition normProbs_of (buckets : list Bucket.t) : list number :=
  let probs := probs_of buckets in
  let probSum := probSum_of probs in
  map (fun p => (p / probSum)%js) probs.

(** The reducer of [cumProbs]: push the last entry (or 0) plus [p]. *)
Definition cum_push (acc : list number) (p : number) : list number :=
  let prev := match acc with [] => zero | _ => last acc zero end in
  acc ++ [(prev + p)%js].

Definition cumProbs_of (buckets : list Bucket.t) : list number :=
  fold_left cum_push (normProbs_of buckets) [].

(** *** Sampling one outcome *)

(** [arr.findIndex(f)], with [None] for -1. *)
Fixpoint findIndex (f : number -> bool) (arr : list number) : option nat :=
  match arr with
  | [] => None
  | x :: rest => if f x then Some 0%nat else option_map S (findIndex f rest)
  end.

(** [buckets[idx === -1 ? buckets.length - 1 : idx]]; [None] is
    [undefined]. *)
Definition pick_bucket (buckets : list Bucket.t) (cumProbs : list number)
    (r : number) : option Bucket.t :=
  match findIndex (fun p => (r <=? p)%js) cumProbs with
  | Some idx => nth_error buckets idx
  | None =>
      match buckets with
      | [] => None
      | _ => nth_error buckets (length buckets - 1)
      end
  end.

Definition sample_of (bucket : Bucket.t) (g : Rng) : number * Rng :=
  match Bucket.type bucket with
  | point => (nullish (Bucket.v bucket) zero, g)
  | uniform =>
      let lo := nullish (Bucket.lo bucket) zero in
      let hi := nullish (Bucket.hi bucket) zero in
      let '(x, g) := draw g in
      ((lo + (hi - lo) * x)%js, g)
  end.

(** The sampling part of a trade: [undefined.type] throws a TypeError. *)
Definition sample_trade (buckets : list Bucket.t) (cumProbs : list number)
    (g : Rng) : outcome (number * Rng) :=
  let '(r, g) := draw g in
  match pick_bucket buckets cumProbs r with
  | None => Throw TypeError
  | Some bucket => Ok (sample_of bucket g)
  end.

(** *** Progressive exposure *)

Record Exposure : Type := {
  currentRisk : number;
  lossStreak : nat;
  winStreak : nat
}.

Definition progressive_step (pg : Progressive.t) (s : Exposure)
    (sample : number) : Exposure :=
  if (sample >? zero)%js then
    let winStreak := S (winStreak s) in
    if (of_nat winStreak
        >=? Math_max one (Math_trunc (Progressive.winStreakThreshold pg)))%js
    then {| currentRisk :=
              Math_min (Progressive.maxRisk pg) (currentRisk s * Num 2)%js;
            lossStreak := 0; winStreak := 0 |}
    else {| currentRisk := currentRisk s; lossStreak := 0;
            winStreak := winStreak |}
  else if (sample <? zero)%js then
    let lossStreak := S (lossStreak s) in
    if (of_nat lossStreak
        >=? Math_max one (Math_trunc (Progressive.lossStreakThreshold pg)))%js
    then {| currentRisk :=
              Math_max (Progressive.minRisk pg) (currentRisk s / Num 2)%js;
            lossStreak := 0; winStreak := 0 |}
    else {| currentRisk := currentRisk s; lossStreak := lossStreak;
            winStreak := 0 |}
  else {| currentRisk := currentRisk s; lossStreak := 0; winStreak := 0 |}.

(** [if (progressive) { ... }]. *)
Definition exposure_step (progressive : option Progressive.t) (s : Exposure)
    (sample : number) : Exposure :=
  match progressive with
  | Some pg => progressive_step pg s sample
  | None => s
  end.

(** *** One path *)

(** The variables of the trade loop. *)
Record TradeState : Type := {
  equity : number;
  exposure : Exposure;
  peak : number;
  minDd : number;
  rng : Rng
}.

(** One turn of the trade loop: the sample written to [rPath[t]] and the
    state after it, whose [equity] is written to [equityPath[t]]. *)
Definition trade (buckets : list Bucket.t) (cumProbs : list number)
    (progressive : option Progressive.t) (st : TradeState)
  : outcome (number * TradeState) :=
  let* (sample, g) := sample_trade buckets cumProbs (rng st) in
  let equity := (equity st * (one + currentRisk (exposure st) * sample))%js in
  let '(peak, minDd) := dd_step (peak st, minDd st) equity in
  Ok (sample,
      {| equity := equity;
         exposure := exposure_step progressive (exposure st) sample;
         peak := peak;
         minDd := minDd;
         rng := g |}).

(** [n] turns of the trade loop: the entries of [equityPath] and of [rPath]
    in the order they are written, and the final state. *)
Fixpoint trades (buckets : list Bucket.t) (cumProbs : list number)
    (progressive : option Progressive.t) (n : nat) (st : TradeState)
  : outcome (list number * list number * TradeState) :=
  match n with
  | O => Ok ([], [], st)
  | S n' =>
      let* (sample, st) := trade buckets cumProbs progressive st in
      let* (equityPath, rPath, st') :=
        trades buckets cumProbs progressive n' st in
      Ok (equity st :: equityPath, sample :: rPath, st')
  end.

(** What one turn of the path loop stores. *)
Record PathResult : Type := {
  path_equity : list number;
  path_r : list number;
  path_final : number;
  path_maxDd : number;
  path_losses : number
}.

Definition initial_state (startEquity riskFraction : number) (g : Rng)
  : TradeState :=
  {| equity := startEquity;
     exposure := {| currentRisk := riskFraction; lossStreak := 0;
                    winStreak := 0 |};
     peak := startEquity;
     minDd := zero;
     rng := g |}.

(** One turn of the path loop.  Each of the two typed arrays has
    [safeTrades] entries by [new_Float64Array]; the trade loop runs
    [iterations safeTrades] times, which is that length, so every entry is
    written once and in order. *)
Definition simulate_path (cfg : Config.t) (safeTrades : number)
    (cumProbs : list number) (g : Rng) : outcome (PathResult * Rng) :=
  let* _ := new_Float64Array safeTrades in
  let* _ := new_Float64Array safeTrades in
  let* (equityPath, rPath, st) :=
    trades (Config.buckets cfg) cumProbs (Config.progressive cfg)
      (iterations safeTrades)
      (initial_state (Config.startEquity cfg) (Config.riskFraction cfg) g) in
  Ok ({| path_equity := equityPath;
         path_r := rPath;
         path_final :=
           nullish (get equityPath (safeTrades - one)%js) (equity st);
         path_maxDd := minDd st;
         path_losses := maxConsecutiveLosses rPath |},
      rng st).

(** [n] turns of the path loop, on the one generator. *)
Fixpoint simulate_paths (cfg : Config.t) (safeTrades : number)
    (cumProbs : list number) (n : nat) (g : Rng)
  : outcome (list PathResult) :=
  match n with
  | O => Ok []
  | S n' =>
      let* (path, g) := simulate_path cfg safeTrades cumProbs g in
      let* rest := simulate_paths cfg safeTrades cumProbs n' g in
      Ok (path :: rest)
  end.

(** *** Aggregation *)

(** The shape [{ median, best, worst }] of three fields of the result. *)
Record Representative (A : Type) : Type := {
  median : A;
  best : A;
  worst : A
}.
Arguments median {A} _.
Arguments best {A} _.
Arguments worst {A} _.

Module Stats.
Record t : Type := {
  final5 : option number;
  final50 : option number;
  final95 : option number;
  dd5 : option number;
  dd50 : option number;
  dd95 : option number;
  mcl5 : option number;
  mcl50 : option number;
  mcl95 : option number
}.
End Stats.

Module Histograms.
Record t : Type := {
  drawdown : Histogram.t;
  finalEquity : Histogram.t
}.
End Histograms.

Module Result.
Record t : Type := {
  equityPaths : list (list number);
  rPaths : list (list number);
  finalEquity : list number;
  maxDrawdowns : list number;
  medianIdx : nat;
  bestIdx : nat;
  worstIdx : nat;
  equityMin : number;
  equityMax : number;
  stats : Stats.t;
  drawdowns : Representative (list number);
  maxConsecutiveLosses : Representative number;
  monthlyTables : Representative (list MonthlyStatsRow.t);
  histograms : Histograms.t
}.
End Result.

(** The selection loop on (best, worst, median), each an index with the
    value (or the distance) that won it. *)
Definition select_step (medianValue : number)
    (acc : (nat * number) * (nat * number) * (nat * number))
    (iv : nat * number) : (nat * number) * (nat * number) * (nat * number) :=
  let '(bestP, worstP, medianP) := acc in
  let '(i, value) := iv in
  let distance := Math_abs (value - medianValue)%js in
  (if (value >? snd bestP)%js then (i, value) else bestP,
   if (value <? snd worstP)%js then (i, value) else worstP,
   if (distance <? snd medianP)%js then (i, distance) else medianP).

Definition select (finalEquity : list number) (medianValue : number)
  : (nat * number) * (nat * number) * (nat * number) :=
  fold_left (select_step medianValue)
    (combine (seq 0 (length finalEquity)) finalEquity)
    ((0%nat, NegInfinity), (0%nat, PosInfinity), (0%nat, PosInfinity)).

(** Everything [runSimulation] does after the path loop.  [equityMin] and
    [equityMax] are updated path after path in the source; the two folds
    visit the same values in the same order. *)
Definition aggregate (cfg : Config.t) (paths : list PathResult) : Result.t :=
  let equityPaths := map path_equity paths in
  let rPaths := map path_r paths in
  let finalEquity := map path_final paths in
  let maxDrawdowns := map path_maxDd paths in
  let maxConsecutiveLossesAll := map path_losses paths in
  let equityMin :=
    fold_left (fun m value => if (value <? m)%js then value else m)
      (concat equityPaths) PosInfinity in
  let equityMax :=
    fold_left (fun m value => if (value >? m)%js then value else m)
      (concat equityPaths) NegInfinity in
  let final50 := percentile finalEquity (Num 50) in
  let '(bestP, worstP, medianP) := select finalEquity (to_number final50) in
  let medianIdx := fst medianP in
  let bestIdx := fst bestP in
  let worstIdx := fst worstP in
  let monthly i :=
    monthlyStatsFromPath (nth i equityPaths []) (nth i rPaths [])
      (Config.startEquity cfg) (Config.tradesPerMonth cfg)
      (Config.startYear cfg) (Config.startMonth cfg) in
  {| Result.equityPaths := equityPaths;
     Result.rPaths := rPaths;
     Result.finalEquity := finalEquity;
     Result.maxDrawdowns := maxDrawdowns;
     Result.medianIdx := medianIdx;
     Result.bestIdx := bestIdx;
     Result.worstIdx := worstIdx;
     Result.equityMin := equityMin;
     Result.equityMax := equityMax;
     Result.stats :=
       {| Stats.final5 := percentile finalEquity (Num 5);
          Stats.final50 := final50;
          Stats.final95 := percentile finalEquity (Num 95);
          Stats.dd5 := percentile maxDrawdowns (Num 5);
          Stats.dd50 := percentile maxDrawdowns (Num 50);
          Stats.dd95 := percentile maxDrawdowns (Num 95);
          Stats.mcl5 := percentile maxConsecutiveLossesAll (Num 5);
          Stats.mcl50 := percentile maxConsecutiveLossesAll (Num 50);
          Stats.mcl95 := percentile maxConsecutiveLossesAll (Num 95) |};
     Result.drawdowns :=
       {| median := drawdownSeries (nth medianIdx equityPaths []);
          best := drawdownSeries (nth bestIdx equityPaths []);
          worst := drawdownSeries (nth worstIdx equityPaths []) |};
     Result.maxConsecutiveLosses :=
       {| median := nth medianIdx maxConsecutiveLossesAll NaN;
          best := nth bestIdx maxConsecutiveLossesAll NaN;
          worst := nth worstIdx maxConsecutiveLossesAll NaN |};
     Result.monthlyTables :=
       {| median := monthly medianIdx;
          best := monthly bestIdx;
          worst := monthly worstIdx |};
     Result.histograms :=
       {| Histograms.drawdown := histogram maxDrawdowns 60;
          Histograms.finalEquity := histogram finalEquity 60 |} |}.

(** *** The run *)

Definition safeTrades_of (cfg : Config.t) : number :=
  Math_max one (Math_trunc (Config.nTrades cfg)).

Definition safePaths_of (cfg : Config.t) : number :=
  Math_max one (Math_trunc (Config.nPaths cfg)).

(** The run on a given generator.  The five arrays of [safePaths] entries
    are allocated before the path loop; the first allocation decides
    whether they all succeed. *)
Definition run_with (cfg : Config.t) (g : Rng) : outcome Result.t :=
  let safeTrades := safeTrades_of cfg in
  let safePaths := safePaths_of cfg in
  let cumProbs := cumProbs_of (Config.buckets cfg) in
  let* _ := new_Array safePaths in
  let* paths :=
    simulate_paths cfg safeTrades cumProbs (iterations safePaths) g in
  Ok (aggregate cfg paths).

(** [runSimulation(cfg)] when the hidden state of [Math.random] is [w]. *)
Definition runSimulation (cfg : Config.t) (w : MathRandom) : outcome Result.t :=
  run_with cfg (createRng (Config.seed cfg) w).

(* ================================================================== *)
(** ** A sample configuration *)

Definition bucket_point (p v : Q) : Bucket.t :=
  {| Bucket.id := "b"; Bucket.name := "point"; Bucket.p := Num p;
     Bucket.type := point; Bucket.lo := None; Bucket.hi := None;
     Bucket.v := Some (Num v) |}.

Definition bucket_uniform (p lo hi : Q) : Bucket.t :=
  {| Bucket.id := "u"; Bucket.name := "uniform"; Bucket.p := Num p;
     Bucket.type := uniform; Bucket.lo := Some (Num lo);
     Bucket.hi := Some (Num hi); Bucket.v := None |}.

Definition sample_buckets : list Bucket.t :=
  [bucket_uniform (1 # 100) (- 5) (- 3 # 2);
   bucket_point (49 # 100) (- 1);
   bucket_uniform (1 # 2) (1 # 10) 3].

Definition sample_policy : Progressive.t :=
  {| Progressive.lossStreakThreshold := Num 1;
     Progressive.winStreakThreshold := Num 2;
     Progressive.minRisk := Num (1 # 1000);
     Progressive.maxRisk := Num (1 # 50) |}.

Definition sample_config : Config.t :=
  {| Config.startEquity := Num 1000;
     Config.nTrades := Num 4;
     Config.nPaths := Num 3;
     Config.riskFraction := Num (1 # 100);
     Config.seed := Some (Num 25);
     Config.tradesPerMonth := Num 2;
     Config.startYear := Num 2026;
     Config.startMonth := Num 12;
     Config.buckets := sample_buckets;
     Config.progressive := Some sample_policy |}.

Definition quiet : MathRandom := {| stream := fun _ => Num (1 # 2); position := 0 |}.

(* ================================================================== *)
(** ** Notions used to state the properties *)

(** The risk fraction in effect at each trade of a path, given the exposure
    state before the first of them and the outcomes recorded. *)
Fixpoint risks (progressive : option Progressive.t) (s : Exposure)
    (rPath : list number) : list number :=
  match rPath with
  | [] => []
  | r :: rest =>
      currentRisk s :: risks progressive (exposure_step progressive s r) rest
  end.

Definition initial_exposure (cfg : Config.t) : Exposure :=
  {| currentRisk := Config.riskFraction cfg; lossStreak := 0; winStreak := 0 |}.

Definition risk_trace (cfg : Config.t) (rPath : list number) : list number :=
  risks (Config.progressive cfg) (initial_exposure cfg) rPath.

(** The equity before trade [t]: the start equity, or the entry of the
    series one place before. *)
Definition equity_before (start : number) (equityPath : list number)
    (t : nat) : number :=
  match t with
  | O => start
  | S t' => nth t' equityPath NaN
  end.

(** [first_at f l i]: [i] is the first index of [l] whose entry passes [f]. *)
Definition first_at (f : number -> bool) (l : list number) (i : nat) : Prop :=
  (exists x, nth_error l i = Some x /\ f x = true)
  /\ forall j y, (j < i)%nat -> nth_error l j = Some y -> f y = false.

(** The bucket that a uniform draw [u] selects: the one at the first index
    whose cumulative weight is at least [u], or the last bucket when no
    cumulative weight is. *)
Inductive selects (buckets : list Bucket.t) (cumProbs : list number)
    (u : number) : Bucket.t -> Prop :=
| selects_first (i : nat) (b : Bucket.t) :
    first_at (fun p => (p >=? u)%js) cumProbs i ->
    nth_error buckets i = Some b ->
    selects buckets cumProbs u b
| selects_last (b : Bucket.t) :
    (forall p, In p cumProbs -> (p >=? u)%js = false) ->
    buckets <> [] ->
    nth_error buckets (length buckets - 1) = Some b ->
    selects buckets cumProbs u b.

(** A path result obeys the equity recurrence. *)
Definition path_recurrence (cfg : Config.t) (path : PathResult) : Prop :=
  length (path_equity path) = length (path_r path)
  /\ forall t, (t < length (path_equity path))%nat ->
       nth t (path_equity path) NaN
       = (equity_before (Config.startEquity cfg) (path_equity path) t
          * (one + nth t (risk_trace cfg (path_r path)) NaN
                   * nth t (path_r path) NaN))%js.

(** The sum of an array as [reduce((acc, x) => acc + x, 0)] computes it. *)
Definition sum (l : list number) : number := fold_left add l zero.

(** [within eps x y]: both finite and at most [eps] apart. *)
Definition within (eps : Q) (x y : number) : Prop :=
  match x, y with
  | Num a, Num b => Qabs (a - b) <= eps
  | _, _ => False
  end.

Fixpoint nondecreasing (l : list number) : Prop :=
  match l with
  | x :: (y :: _) as rest => (x <=? y)%js = true /\ nondecreasing rest
  | _ => True
  end.

(** The rational under a finite number. *)
Definition qval (x : number) : Q :=
  match x with Num q => q | _ => 0 end.

Definition Qsum (l : list Q) : Q := fold_right Qplus 0 l.

(** Running sums of [l] from [a]. *)
Fixpoint qprefix (a : Q) (l : list Q) : list Q :=
  match l with
  | [] => []
  | x :: rest => (a + x) :: qprefix (a + x) rest
  end.

Definition qclamp (q : Q) : Q := if Qlt_bool 0 q then q else 0.

Definition tolerance : Q := 1 # 1000000000.

(** The sort and the interpolation of [percentile] on rationals: what
    [sort] and [percentile] compute on finite numbers. *)
Fixpoint qinsert (x : Q) (l : list Q) : list Q :=
  match l with
  | [] => [x]
  | y :: l' => if Qlt_bool 0 (x - y) then y :: qinsert x l' else x :: l
  end.

Definition qsort (l : list Q) : list Q := fold_right qinsert [] l.

(** The fractional rank of percentile [p] among [n] values. *)
Definition rank (p : Q) (n : nat) : Q :=
  (p / 100) * (inject_Z (Z.of_nat n) - 1).

Definition interpolate (s : list Q) (x : Q) : Q :=
  let lo := Qfloor x in
  let hi := Qceiling x in
  if (lo =? hi)%Z then nth (Z.to_nat lo) s 0
  else nth (Z.to_nat lo) s 0
       + (nth (Z.to_nat hi) s 0 - nth (Z.to_nat lo) s 0) * (x - inject_Z lo).

(** The running peak and the drawdowns on rationals: what [peak_step],
    [drawdown_from] and the minimum of [dd_step] compute on finite numbers
    when the peak is positive. *)
Definition qpeak (pk v : Q) : Q := if Qlt_bool pk v then v else pk.

Fixpoint qdrawdowns (pk : Q) (l : list Q) : list Q :=
  match l with
  | [] => []
  | v :: rest => (v / qpeak pk v - 1) :: qdrawdowns (qpeak pk v) rest
  end.

Definition qmin (a d : Q) : Q := if Qlt_bool d a then d else a.

(** [climbs pk l]: [l] is non-decreasing and starts at [pk] or above. *)
Fixpoint climbs (pk : Q) (l : list Q) : Prop :=
  match l with
  | [] => True
  | v :: rest => pk <= v /\ climbs v rest
  end.

(** The count that [Math.max(1, Math.trunc(x))] makes of a count [x] that
    is finite or -Infinity: the truncation of [x], or 1 if that is less. *)
Definition count_of (x : number) : nat :=
  Z.to_nat (Z.max 1 (Qtrunc (qval x))).

(** A count the run accepts: at most 0, or finite with a truncation below
    the limit of the allocation. *)
Definition usable (limit : Z) (x : number) : Prop :=
  (x <=? zero)%js = true
  \/ exists q, x = Num q /\ (Qtrunc q < limit)%Z.

Definition with_counts (cfg : Config.t) (nTrades nPaths : number) : Config.t :=
  {| Config.startEquity := Config.startEquity cfg;
     Config.nTrades := nTrades;
     Config.nPaths := nPaths;
     Config.riskFraction := Config.riskFraction cfg;
     Config.seed := Config.seed cfg;
     Config.tradesPerMonth := Config.tradesPerMonth cfg;
     Config.startYear := Config.startYear cfg;
     Config.startMonth := Config.startMonth cfg;
     Config.buckets := Config.buckets cfg;
     Config.progressive := Config.progressive cfg |}.

(** The product over the rows of (1 + returnValue). *)
Definition compound (rows : list MonthlyStatsRow.t) : number :=
  fold_left (fun acc row => (acc * (one + MonthlyStatsRow.returnValue row))%js) rows one.

(** The equity at the end of the last block. *)
Definition final_of (rows : list MonthlyStatsRow.t) : number :=
  last (map MonthlyStatsRow.endEquity rows) NaN.

(** Each row's return is taken against the end equity of the row before
    it, the first against [prev]. *)
Fixpoint chained (prev : number) (rows : list MonthlyStatsRow.t) : Prop :=
  match rows with
  | [] => True
  | row :: rest =>
      MonthlyStatsRow.returnValue row = (MonthlyStatsRow.endEquity row / prev - one)%js
      /\ chained (MonthlyStatsRow.endEquity row) rest
  end.

(** A configuration whose every trade loses all of the equity. *)
Definition ruin_config : Config.t :=
  {| Config.startEquity := Num 1000;
     Config.nTrades := Num 2;
     Config.nPaths := Num 1;
     Config.riskFraction := Num 1;
     Config.seed := Some (Num 25);
     Config.tradesPerMonth := Num 1;
     Config.startYear := Num 2026;
     Config.startMonth := Num 1;
     Config.buckets := [bucket_point 1 (- 1)];
     Config.progressive := None |}.

(** Inputs of the examples below. *)
Definition zero_weight_buckets : list Bucket.t :=
  [bucket_point (- 1) 1; bucket_point 0 2].

Definition sample_state : TradeState :=
  initial_state (Num 1000) (Num (1 # 100)) (createRng (Some (Num 25)) quiet).

Definition sample_rows : list MonthlyStatsRow.t :=
  monthlyStatsFromPath (map Num [1100; 990; 1210]) (map Num [1; - 1; 2])
    (Num 1000) (of_Z 2) (Num 2026) (Num 12).

Definition fractional_month_rows : list MonthlyStatsRow.t :=
  monthlyStatsFromPath (map Num [1100; 1210]) (map Num [1; 1])
    (Num 1000) (Num (3 # 2)) (Num 2026) (Num 1).

(** The scenarios of the specification with a single point bucket of value
    [v]: ten trades on one path at a risk fraction of 1%. *)
Definition scenario_config (v : Q) : Config.t :=
  {| Config.startEquity := Num 1000;
     Config.nTrades := Num 10;
     Config.nPaths := Num 1;
     Config.riskFraction := Num (1 # 100);
     Config.seed := Some (Num 25);
     Config.tradesPerMonth := Num 50;
     Config.startYear := Num 2026;
     Config.startMonth := Num 1;
     Config.buckets := [bucket_point 1 v];
     Config.progressive := None |}.

(** [sample_config] with no trade, no path and no bucket. *)
Definition bucketless_config : Config.t :=
  {| Config.startEquity := Num 1000;
     Config.nTrades := Num 0;
     Config.nPaths := Num 0;
     Config.riskFraction := Num (1 # 100);
     Config.seed := Some (Num 25);
     Config.tradesPerMonth := Num 2;
     Config.startYear := Num 2026;
     Config.startMonth := Num 12;
     Config.buckets := [];
     Config.progressive := None |}.

(* ================================================================== *)
(** ** Further notions *)

Definition with_seed (cfg : Config.t) (seed : option number) : Config.t :=
  {| Config.startEquity := Config.startEquity cfg;
     Config.nTrades := Config.nTrades cfg;
     Config.nPaths := Config.nPaths cfg;
     Config.riskFraction := Config.riskFraction cfg;
     Config.seed := seed;
     Config.tradesPerMonth := Config.tradesPerMonth cfg;
     Config.startYear := Config.startYear cfg;
     Config.startMonth := Config.startMonth cfg;
     Config.buckets := Config.buckets cfg;
     Config.progressive := Config.progressive cfg |}.

(** The generator is the closure of [mulberry32]. *)
Definition seeded (g : Rng) : Prop := exists a, gen g = Mulberry32 a.

(** [x] lies between [a] and [b], whichever of the two is the smaller. *)
Definition between (a b x : Q) : Prop :=
  (a <= x /\ x <= b) \/ (b <= x /\ x <= a).

(** The outcomes a bucket with finite fields can give on draws in [0, 1):
    its value for a point bucket, the values between its bounds for a
    uniform one; an absent field counts as 0. *)
Definition in_range (b : Bucket.t) (sample : number) : Prop :=
  match Bucket.type b with
  | point => sample = nullish (Bucket.v b) zero
  | uniform =>
      exists x,
        sample = Num x
        /\ between (qval (nullish (Bucket.lo b) zero))
             (qval (nullish (Bucket.hi b) zero)) x
  end.

(** The fields a bucket uses are finite when present. *)
Definition finite_bucket (b : Bucket.t) : Prop :=
  isFinite (nullish (Bucket.lo b) zero) = true
  /\ isFinite (nullish (Bucket.hi b) zero) = true
  /\ isFinite (nullish (Bucket.v b) zero) = true.

(** The outcome is one that some bucket of the list can give. *)
Definition from_a_bucket (buckets : list Bucket.t) (sample : number) : Prop :=
  exists b, In b buckets /\ in_range b sample.

(** The row that the month loop pushes for the block from [startIdx] to
    [endIdx], and the calendar label of the block after it: the body of
    [months_loop] as two functions. *)
Definition block_row (equityPath rPath : list number)
    (startIdx endIdx prevEquity year month : number) : MonthlyStatsRow.t :=
  let endEquity := to_number (get equityPath endIdx) in
  let idxs := block_indices startIdx endIdx in
  let '(wins, losses, maxLossStreak, _) :=
    fold_left tally_step (map (fun i => to_number (get rPath i)) idxs)
      (0, 0, 0, 0)%nat in
  let trades := (wins + losses)%nat in
  {| MonthlyStatsRow.year := year;
     MonthlyStatsRow.month := month;
     MonthlyStatsRow.returnValue := (endEquity / prevEquity - one)%js;
     MonthlyStatsRow.maxDrawdown :=
       snd (fold_left dd_step
              (map (fun i => to_number (get equityPath i)) idxs)
              (prevEquity, zero));
     MonthlyStatsRow.winRate :=
       if (trades =? 0)%nat then zero else (of_nat wins / of_nat trades)%js;
     MonthlyStatsRow.maxConsecutiveLosses := of_nat maxLossStreak;
     MonthlyStatsRow.endEquity := endEquity |}.

Definition next_label (year month : number) : number * number :=
  let month := (month + one)%js in
  if strict_eq month (Num 13) then ((year + one)%js, one) else (year, month).

Definition isNaN (x : number) : bool :=
  match x with NaN => true | _ => false end.

(** The outcomes the month loop reads for the block from [startIdx] to
    [endIdx], and the win rate it makes of them: wins over wins plus
    losses, 0 when there is neither; an outcome of 0 (or NaN) is neither. *)
Definition block_outcomes (rPath : list number) (startIdx endIdx : number)
  : list number :=
  map (fun i => to_number (get rPath i)) (block_indices startIdx endIdx).

Definition count_wins (outcomes : list number) : nat :=
  length (filter (fun r => (r >? zero)%js) outcomes).

Definition count_losses (outcomes : list number) : nat :=
  length (filter (fun r => (r <? zero)%js) outcomes).

Definition win_rate (outcomes : list number) : number :=
  let wins := count_wins outcomes in
  let trades := (wins + count_losses outcomes)%nat in
  if (trades =? 0)%nat then zero else (of_nat wins / of_nat trades)%js.

(** Trades [m * k] to [(m + 1) * k - 1] of a series, as many of them as
    there are. *)
Definition block_of {A : Type} (k m : nat) (series : list A) : list A :=
  firstn k (skipn (m * k) series).

(** The calendar label [i] blocks after the label [(year, month)]. *)
Definition label_after (i : nat) (label : number * number) : number * number :=
  Nat.iter i (fun l => next_label (fst l) (snd l)) label.

(** The bin that [histogram] counts the value [v] in, for the minimum
    [min] and the span [span] of the values. *)
Definition bin_index (min span : number) (binCount : nat) (v : number)
  : number :=
  Math_min (of_nat binCount - one)%js
    (Math_max zero (Math_floor (((v - min) / span) * of_nat binCount)%js)).

(** The span [max - min || 1] of values from [lo] to [hi], the lower edge
    [min + (j * span) / binCount] of bin [j], and the values that lie in
    bin [j]: from its lower edge up to the lower edge of the next bin,
    which the last bin has not. *)
Definition span_of (lo hi : Q) : Q :=
  if Qeq_bool (hi - lo) 0 then 1 else hi - lo.

Definition edge (lo hi : Q) (binCount j : nat) : Q :=
  lo + inject_Z (Z.of_nat j) * span_of lo hi / inject_Z (Z.of_nat binCount).

Definition in_bin (lo hi : Q) (binCount j : nat) (v : Q) : bool :=
  Qle_bool (edge lo hi binCount j) v
  && (Qlt_bool v (edge lo hi binCount (S j)) || (S j =? binCount)%nat).

(** The bin index of [v] as a natural number. *)
Definition zbin (lo s : Q) (binCount : nat) (v : Q) : nat :=
  Z.to_nat
    (Z.min (Z.of_nat binCount - 1)
       (Z.max 0 (Qfloor ((v - lo) / s * inject_Z (Z.of_nat binCount))))).

(** The [k] outcomes of a path from index [i] on are all losses.  An
    outcome is a loss when [r < 0] holds: a NaN is none, and neither is
    what lies beyond the end of the path. *)
Definition losing_run (rPath : list number) (i k : nat) : Prop :=
  forall j, (i <= j < i + k)%nat -> (nth j rPath NaN <? zero)%js = true.

(** One of the three updates of the selection loop: the entry
    [(i, value)] takes the place of the selected one when its key beats the
    key selected so far. *)
Definition pick (beats : number -> number -> bool) (key : number -> number)
    (acc : nat * number) (iv : nat * number) : nat * number :=
  let '(i, value) := iv in
  if beats (key value) (snd acc) then (i, key value) else acc.

(** [i] is the first index at which [key] is least over [qs]. *)
Definition first_least (key : Q -> Q) (qs : list Q) (i : nat) : Prop :=
  (i < length qs)%nat
  /\ (forall j, (j < length qs)%nat -> key (nth i qs 0) <= key (nth j qs 0))
  /\ (forall j, (j < i)%nat -> key (nth i qs 0) < key (nth j qs 0)).

(** The weight [Math.max(0, b.p)] of a bucket with a finite [p], and the
    share of the total weight that the first [k] buckets hold. *)
Definition weight (b : Bucket.t) : Q := qclamp (qval (Bucket.p b)).

Definition share (buckets : list Bucket.t) (k : nat) : Q :=
  Qsum (map weight (firstn k buckets)) / Qsum (map weight buckets).

(** The risk of every trade lies between [rlo] and [rhi]: with the
    progressive exposure these are its limits, with the base risk between
    them; without it the base risk alone has to. *)
Definition risk_limits (cfg : Config.t) (rlo rhi : Q) : Prop :=
  exists r0,
    Config.riskFraction cfg = Num r0 /\ rlo <= r0 /\ r0 <= rhi
    /\ match Config.progressive cfg with
       | None => True
       | Some pg =>
           Progressive.minRisk pg = Num rlo
           /\ Progressive.maxRisk pg = Num rhi /\ 0 <= rlo
       end.

(** The ends of the range of outcomes of a bucket, and the buckets none of
    whose outcomes takes the whole equity at a risk of [rlo] or of [rhi]. *)
Definition outcome_bounds (b : Bucket.t) : list Q :=
  match Bucket.type b with
  | point => [qval (nullish (Bucket.v b) zero)]
  | uniform =>
      [qval (nullish (Bucket.lo b) zero); qval (nullish (Bucket.hi b) zero)]
  end.

Definition survives (rlo rhi : Q) (b : Bucket.t) : Prop :=
  forall x, In x (outcome_bounds b) -> 0 < 1 + rlo * x /\ 0 < 1 + rhi * x.

(** The path counts and the trade counts for which the arrays of a run can
    be allocated: [new Array(safePaths)] takes a length below 2^32,
    [new Float64Array(safeTrades)] a length below 2^53 (and NaN as 0). *)
Definition paths_allocated (nPaths : number) : Prop :=
  match nPaths with
  | NaN | PosInfinity => False
  | NegInfinity => True
  | Num q => (Qtrunc q < 2 ^ 32)%Z
  end.

Definition trades_allocated (nTrades : number) : Prop :=
  match nTrades with
  | PosInfinity => False
  | NaN | NegInfinity => True
  | Num q => (Qtrunc q < 2 ^ 53)%Z
  end.

(* ================================================================== *)
(** ** Values the page derives from a result *)

(** [riskOfRuin]: the share of paths whose maximum drawdown reaches the
    threshold, a percentage taken without its sign.  [None] is [null], for
    results and for the value. *)
Module RiskOfRuin.
Record t : Type := {
  threshold : number;
  probability : number
}.
End RiskOfRuin.

Definition riskOfRuin (results : option Result.t) (riskOfRuinThreshold : number)
  : option RiskOfRuin.t :=
  match results with
  | None => None
  | Some results =>
      let threshold := (Math_abs riskOfRuinThreshold / Num 100)%js in
      let count :=
        length (filter (fun dd => (Math_abs dd >=? threshold)%js)
                  (Result.maxDrawdowns results)) in
      Some {| RiskOfRuin.threshold := threshold;
              RiskOfRuin.probability :=
                (of_nat count
                 / of_nat (length (Result.maxDrawdowns results)))%js |}
  end.

(** The loop that finds, for a percentile [p] of the final equities, the
    path whose final equity is closest to it (the same loop serves the
    percentile chart and the percentile metrics): one turn on
    (closestIdx, closest), and the index it ends with. *)
Definition closest_step (target : number) (acc : nat * number)
    (iv : nat * number) : nat * number :=
  let '(closestIdx, closest) := acc in
  let '(i, value) := iv in
  let dist := Math_abs (value - target)%js in
  if (dist <? closest)%js then (i, dist) else (closestIdx, closest).

Definition closestIdx_of (results : Result.t) (p : number) : nat :=
  let target := to_number (percentile (Result.finalEquity results) p) in
  fst (fold_left (closest_step target)
         (combine (seq 0 (length (Result.finalEquity results)))
            (Result.finalEquity results))
         (0%nat, PosInfinity)).

(** [arr[i]] on an array of any elements, as [get] is on numbers. *)
Definition at_index {A : Type} (arr : list A) (i : number) : option A :=
  match i with
  | Num q =>
      if Qis_int q && Qle_bool 0 q then nth_error arr (Z.to_nat (Qfloor q))
      else None
  | _ => None
  end.

(** The path of outcomes that the trade chart shows for the path number
    typed in: the clamped number, and the path read with it ([None] when
    the read gives [undefined], for which the chart is [null]). *)
Definition selected_path (results : Result.t) (selectedPathIndex : number)
  : number * option (list number) :=
  let totalPaths := of_nat (length (Result.rPaths results)) in
  let clampedIndex :=
    Math_min (Math_max one (Math_trunc selectedPathIndex)) totalPaths in
  (clampedIndex, at_index (Result.rPaths results) (clampedIndex - one)%js).

(** [Math.round]: the nearest whole number, a half going up. *)
Definition Math_round (x : number) : number :=
  match x with Num q => of_Z (Qfloor (q + (1 # 2))) | _ => x end.

(** [roundTo], which rounds the bin edges of the histograms to the step of
    their labels. *)
Definition roundTo (value step : number) : number :=
  if negb (isFinite value) || strict_eq step zero then value
  else (Math_round (value / step) * step)%js.

(* ================================================================== *)
(** * Properties *)

(** ** Comparisons of rationals *)

Lemma Qlt_bool_iff (a b : Q) : Qlt_bool a b = true <-> a < b.
Proof.
  unfold Qlt_bool. rewrite negb_true_iff.
  split; intro H.
  - apply Qnot_le_lt. intro Hle. apply Qle_bool_iff in Hle. congruence.
  - apply not_true_is_false. intro Hle. apply Qle_bool_iff in Hle.
    apply (Qlt_not_le _ _ H Hle).
Qed.

Lemma Qlt_bool_false_iff (a b : Q) : Qlt_bool a b = false <-> b <= a.
Proof.
  unfold Qlt_bool. rewrite negb_false_iff. apply Qle_bool_iff.
Qed.

Lemma Qle_bool_false_iff (a b : Q) : Qle_bool a b = false <-> b < a.
Proof.
  rewrite <- Qlt_bool_iff. unfold Qlt_bool.
  destruct (Qle_bool a b); simpl; split; congruence.
Qed.

Lemma Qeq_bool_false_iff (a b : Q) : Qeq_bool a b = false <-> ~ a == b.
Proof.
  split; intro H.
  - apply Qeq_bool_neq. exact H.
  - apply not_true_is_false. intro E. apply Qeq_bool_iff in E. contradiction.
Qed.

(** Decide every boolean comparison of rationals in the goal by cases, and
    leave the arithmetic to [lra]. *)
Ltac qcases :=
  repeat match goal with
  | |- context [Qlt_bool ?a ?b] =>
      let E := fresh "E" in
      destruct (Qlt_bool a b) eqn:E;
      [apply Qlt_bool_iff in E | apply Qlt_bool_false_iff in E]
  | |- context [Qle_bool ?a ?b] =>
      let E := fresh "E" in
      destruct (Qle_bool a b) eqn:E;
      [apply Qle_bool_iff in E | apply Qle_bool_false_iff in E]
  | |- context [Qeq_bool ?a ?b] =>
      let E := fresh "E" in
      destruct (Qeq_bool a b) eqn:E;
      [apply Qeq_bool_iff in E | apply Qeq_bool_false_iff in E]
  end.

#[export] Instance num_eq_Equivalence : Equivalence num_eq.
Proof.
  split.
  - intros [ | | | a]; simpl; auto. reflexivity.
  - intros [ | | | a] [ | | | b]; simpl; auto. intro H. symmetry. exact H.
  - intros [ | | | a] [ | | | b] [ | | | c]; simpl; auto; try contradiction.
    intros H1 H2. rewrite H1. exact H2.
Qed.

(* ================================================================== *)
(** ** Reproducibility of a seeded run *)

Lemma createRng_seeded (s : number) (w1 w2 : MathRandom) :
  isFinite s = true -> createRng (Some s) w1 = createRng (Some s) w2.
Proof.
  intro H. unfold createRng. rewrite H. reflexivity.
Qed.

(** C1.  With a finite seed, the result of [runSimulation] on a
    configuration does not depend on the state of the ambient generator:
    two calls with the same configuration, whatever [Math.random] holds at
    each, end the same way and return the same result, with the same
    equity and outcome series for every path and the same statistics. *)
Theorem runSimulation_deterministic :
  forall (cfg : Config.t) (s : number) (w1 w2 : MathRandom),
    Config.seed cfg = Some s ->
    isFinite s = true ->
    runSimulation cfg w1 = runSimulation cfg w2
    /\ (forall r1 r2,
          runSimulation cfg w1 = Ok r1 -> runSimulation cfg w2 = Ok r2 ->
          Result.equityPaths r1 = Result.equityPaths r2
          /\ Result.rPaths r1 = Result.rPaths r2
          /\ Result.stats r1 = Result.stats r2).
Proof.
  intros cfg s w1 w2 Hseed Hfin.
  assert (E : runSimulation cfg w1 = runSimulation cfg w2).
  { unfold runSimulation. rewrite Hseed.
    rewrite (createRng_seeded s w1 w2 Hfin). reflexivity. }
  split; [exact E|].
  intros r1 r2 H1 H2. rewrite E in H1. rewrite H1 in H2.
  injection H2 as ->. auto.
Qed.

Lemma runSimulation_deterministic_witness :
  runSimulation sample_config quiet
  = runSimulation sample_config {| stream := fun _ => Num 0; position := 7 |}.
Proof.
  apply (runSimulation_deterministic sample_config (Num 25)); reflexivity.
Defined.

(** Without a seed the result does follow the ambient generator. *)
Example unseeded_run_follows_ambient :
  let cfg :=
    {| Config.startEquity := Num 1000; Config.nTrades := Num 1;
       Config.nPaths := Num 1; Config.riskFraction := Num (1 # 100);
       Config.seed := None; Config.tradesPerMonth := Num 1;
       Config.startYear := Num 2026; Config.startMonth := Num 1;
       Config.buckets := [bucket_uniform 1 0 1];
       Config.progressive := None |} in
  runSimulation cfg quiet
  <> runSimulation cfg {| stream := fun _ => Num (1 # 4); position := 0 |}.
Proof.
  vm_compute. discriminate.
Qed.

(* ================================================================== *)
(** ** The equity recurrence *)

Lemma trade_inv buckets cumProbs progressive st sample st1 :
  trade buckets cumProbs progressive st = Ok (sample, st1) ->
  equity st1 = (equity st * (one + currentRisk (exposure st) * sample))%js
  /\ exposure st1 = exposure_step progressive (exposure st) sample.
Proof.
  unfold trade, bind.
  destruct (sample_trade buckets cumProbs (rng st)) as [[s g]|e]; [|discriminate].
  destruct (dd_step _ _) as [pk md].
  intro H. injection H as <- <-. simpl. split; reflexivity.
Qed.

Lemma trades_recurrence buckets cumProbs progressive :
  forall n st equityPath rPath st',
    trades buckets cumProbs progressive n st = Ok (equityPath, rPath, st') ->
    length equityPath = n /\ length rPath = n
    /\ forall t, (t < n)%nat ->
         nth t equityPath NaN
         = (equity_before (equity st) equityPath t
            * (one + nth t (risks progressive (exposure st) rPath) NaN
                     * nth t rPath NaN))%js.
Proof.
  induction n as [|n IH]; intros st equityPath rPath st' H.
  - simpl in H. injection H as <- <- <-. repeat split; auto. intros t Ht. lia.
  - simpl in H. unfold bind in H.
    destruct (trade buckets cumProbs progressive st) as [[sample st1]|e] eqn:Et;
      [|discriminate].
    destruct (trades buckets cumProbs progressive n st1)
      as [[[eqs rs] st2]|e] eqn:En; [|discriminate].
    injection H as <- <- <-.
    destruct (IH _ _ _ _ En) as (Hl1 & Hl2 & Hrec).
    destruct (trade_inv _ _ _ _ _ _ Et) as (Heq & Hex).
    simpl. repeat split; try congruence.
    intros [|t] Ht.
    + simpl. exact Heq.
    + simpl. rewrite <- Hex.
      rewrite (Hrec t) by lia.
      destruct t; reflexivity.
Qed.

Lemma simulate_path_recurrence cfg safeTrades cumProbs g path g' :
  simulate_path cfg safeTrades cumProbs g = Ok (path, g') ->
  path_recurrence cfg path.
Proof.
  unfold simulate_path, bind.
  destruct (new_Float64Array safeTrades); [|discriminate].
  destruct (trades _ _ _ _ _) as [[[eqs rs] st]|e] eqn:Et; [|discriminate].
  intro H. injection H as <- <-.
  destruct (trades_recurrence _ _ _ _ _ _ _ _ Et) as (Hl1 & Hl2 & Hrec).
  unfold path_recurrence. simpl. split; [congruence|].
  intros t Ht. apply Hrec. lia.
Qed.

Lemma simulate_paths_recurrence cfg safeTrades cumProbs :
  forall n g paths,
    simulate_paths cfg safeTrades cumProbs n g = Ok paths ->
    Forall (path_recurrence cfg) paths.
Proof.
  induction n as [|n IH]; intros g paths H.
  - simpl in H. injection H as <-. constructor.
  - simpl in H. unfold bind in H.
    destruct (simulate_path cfg safeTrades cumProbs g) as [[path g1]|e] eqn:Ep;
      [|discriminate].
    destruct (simulate_paths cfg safeTrades cumProbs n g1) as [rest|e] eqn:Er;
      [|discriminate].
    injection H as <-. constructor.
    + eapply simulate_path_recurrence; eauto.
    + eapply IH; eauto.
Qed.

Lemma run_with_paths cfg g res :
  run_with cfg g = Ok res ->
  exists paths,
    simulate_paths cfg (safeTrades_of cfg) (cumProbs_of (Config.buckets cfg))
      (iterations (safePaths_of cfg)) g = Ok paths
    /\ res = aggregate cfg paths.
Proof.
  unfold run_with, bind.
  destruct (new_Array (safePaths_of cfg)); [|discriminate].
  destruct (simulate_paths _ _ _ _ _) as [paths|e]; [|discriminate].
  intro H. injection H as <-. exists paths. auto.
Qed.

Lemma aggregate_equityPaths cfg paths :
  Result.equityPaths (aggregate cfg paths) = map path_equity paths.
Proof.
  unfold aggregate. destruct (select _ _) as [[b w] m]. reflexivity.
Qed.

Lemma aggregate_rPaths cfg paths :
  Result.rPaths (aggregate cfg paths) = map path_r paths.
Proof.
  unfold aggregate. destruct (select _ _) as [[b w] m]. reflexivity.
Qed.

Lemma risks_without_policy (rPath : list number) :
  forall s t, (t < length rPath)%nat ->
    nth t (risks None s rPath) NaN = currentRisk s.
Proof.
  induction rPath as [|r rest IH]; intros s t Ht; simpl in Ht; [lia|].
  destruct t as [|t]; [reflexivity|].
  cbn [risks exposure_step nth]. apply IH. lia.
Qed.



(* ================================================================== *)
(** ** Sampling an outcome *)

Lemma findIndex_first f l i :
  first_at f l i -> findIndex f l = Some i.
Proof.
  revert i. induction l as [|x l IH]; intros i [(y & Hy & Hf) Hbefore].
  - destruct i; discriminate.
  - destruct i as [|i]; simpl in *.
    + injection Hy as ->. rewrite Hf. reflexivity.
    + rewrite (Hbefore 0%nat x) by (auto; lia). 
      rewrite (IH i); [reflexivity|].
      split; [exists y; auto|].
      intros j z Hj Hz. apply (Hbefore (S j) z); [lia|exact Hz].
Qed.

Lemma findIndex_none f l :
  (forall x, In x l -> f x = false) -> findIndex f l = None.
Proof.
  induction l as [|x l IH]; intro H; simpl; [reflexivity|].
  rewrite (H x) by (left; reflexivity).
  rewrite IH; [reflexivity|]. intros y Hy. apply H. right. exact Hy.
Qed.

Lemma findIndex_cases f l :
  (exists i, first_at f l i /\ findIndex f l = Some i)
  \/ ((forall x, In x l -> f x = false) /\ findIndex f l = None).
Proof.
  induction l as [|x l IH]; simpl.
  - right. split; [intros x []|reflexivity].
  - destruct (f x) eqn:Hx.
    + left. exists 0%nat. split; [|reflexivity].
      split; [exists x; auto|]. intros j y Hj. lia.
    + destruct IH as [(i & [(y & Hy & Hfy) Hb] & E)|[Hn E]]; rewrite E; simpl.
      * left. exists (S i). split; [|reflexivity].
        split; [exists y; auto|].
        intros [|j] z Hj Hz; simpl in Hz.
        -- injection Hz as <-. exact Hx.
        -- apply (Hb j z); [lia|exact Hz].
      * right. split; [|reflexivity].
        intros y [<-|Hy]; auto.
Qed.

Lemma pick_bucket_selects buckets cumProbs u b :
  selects buckets cumProbs u b -> pick_bucket buckets cumProbs u = Some b.
Proof.
  unfold pick_bucket. intros [i b' Hfirst Hb | b' Hnone Hne Hb].
  - pose proof (findIndex_first _ _ _ Hfirst) as E. unfold ge in E.
    rewrite E. exact Hb.
  - pose proof (findIndex_none _ _ Hnone) as E. unfold ge in E.
    rewrite E. destruct buckets; [contradiction|exact Hb].
Qed.

Lemma draw_calls g : calls (snd (draw g)) = S (calls g).
Proof.
  unfold draw. destruct (gen g) as [a|w].
  - destruct (mulberry32_next a). reflexivity.
  - reflexivity.
Qed.

(** Every draw selects a bucket when there is one for each cumulative
    weight. *)
Lemma selects_total buckets cumProbs u :
  buckets <> [] -> length cumProbs = length buckets ->
  exists b, selects buckets cumProbs u b.
Proof.
  intros Hne Hlen.
  destruct (findIndex_cases (fun p => (p >=? u)%js) cumProbs)
    as [(i & Hfirst & _)|[Hnone _]].
  - destruct Hfirst as [(x & Hx & Hfx) Hb].
    assert (Hi : (i < length buckets)%nat).
    { rewrite <- Hlen. apply nth_error_Some. congruence. }
    destruct (nth_error buckets i) as [b|] eqn:Eb.
    + exists b. eapply selects_first; eauto. split; eauto.
    + apply nth_error_None in Eb. lia.
  - destruct (nth_error buckets (length buckets - 1)) as [b|] eqn:Eb.
    + exists b. eapply selects_last; eauto.
    + apply nth_error_None in Eb. destruct buckets; [contradiction|simpl in Eb; lia].
Qed.

(** C3.  A trade step draws [u], takes the bucket that [u] selects (the
    first whose cumulative weight is at least [u], else the last one), and
    records as outcome the fixed value of a [point] bucket, after that one
    draw, or lo + (hi - lo) * v for a [uniform] bucket, where [v] is a
    second draw: one call of the generator for a point bucket, two for a
    uniform one. *)
Theorem trade_sampling :
  forall (buckets : list Bucket.t) (cumProbs : list number)
         (progressive : option Progressive.t) (st : TradeState) (b : Bucket.t),
    selects buckets cumProbs (fst (draw (rng st))) b ->
    let g1 := snd (draw (rng st)) in
    exists st',
      match Bucket.type b with
      | point =>
          trade buckets cumProbs progressive st
          = Ok (nullish (Bucket.v b) zero, st')
          /\ rng st' = g1
          /\ calls (rng st') = (calls (rng st) + 1)%nat
      | uniform =>
          let v := fst (draw g1) in
          let lo := nullish (Bucket.lo b) zero in
          let hi := nullish (Bucket.hi b) zero in
          trade buckets cumProbs progressive st
          = Ok ((lo + (hi - lo) * v)%js, st')
          /\ rng st' = snd (draw g1)
          /\ calls (rng st') = (calls (rng st) + 2)%nat
      end.
Proof.
  intros buckets cumProbs progressive st b Hsel g1.
  pose proof (draw_calls (rng st)) as Hc1.
  pose proof (draw_calls g1) as Hc2.
  unfold trade, sample_trade, bind. subst g1.
  destruct (draw (rng st)) as [u g1] eqn:Ed. cbn [fst snd] in *.
  rewrite (pick_bucket_selects _ _ _ _ Hsel).
  unfold sample_of.
  destruct (Bucket.type b).
  - destruct (draw g1) as [x g2] eqn:Ed2. cbn [fst snd] in *.
    destruct (dd_step (peak st, minDd st) _) as [pk md].
    eexists. split; [reflexivity|]. cbn [rng]. split; [reflexivity|]. lia.
  - destruct (dd_step (peak st, minDd st) _) as [pk md].
    eexists. split; [reflexivity|]. cbn [rng]. split; [reflexivity|]. lia.
Qed.

Lemma trade_sampling_witness :
  exists st',
    trade sample_buckets (cumProbs_of sample_buckets) None sample_state
    = Ok (Num (1075864117300 # 429496729600), st')
    /\ rng st' = snd (draw (snd (draw (rng sample_state))))
    /\ calls (rng st') = 2%nat.
Proof.
  assert (Hsel : selects sample_buckets (cumProbs_of sample_buckets)
                   (fst (draw (rng sample_state)))
                   (bucket_uniform (1 # 2) (1 # 10) 3)).
  { apply (selects_first _ _ _ 2%nat); [|reflexivity].
    split.
    - eexists. split; vm_compute; reflexivity.
    - intros [|[|j]] y Hj Hy; try lia;
        vm_compute in Hy; injection Hy as <-; vm_compute; reflexivity. }
  exact (trade_sampling sample_buckets (cumProbs_of sample_buckets) None
           sample_state (bucket_uniform (1 # 2) (1 # 10) 3) Hsel).
Defined.

(* ================================================================== *)
(** ** Lists of finite numbers *)

Lemma finite_map_qval (l : list number) :
  Forall (fun x => isFinite x = true) l -> l = map Num (map qval l).
Proof.
  induction 1 as [|x l Hx _ IH]; simpl; [reflexivity|].
  destruct x; try discriminate. simpl. f_equal. exact IH.
Qed.

Lemma fold_left_add_Num (l : list Q) (a : Q) :
  fold_left add (map Num l) (Num a) = Num (fold_left Qplus l a).
Proof.
  revert a. induction l as [|x l IH]; intro a; simpl; [reflexivity|].
  apply IH.
Qed.

Lemma fold_left_Qplus (l : list Q) (a : Q) :
  fold_left Qplus l a == a + Qsum l.
Proof.
  revert a. induction l as [|x l IH]; intro a; simpl.
  - lra.
  - rewrite IH. unfold Qsum. lra.
Qed.

Lemma Qsum_nonneg (l : list Q) :
  Forall (fun x => 0 <= x) l -> 0 <= Qsum l.
Proof.
  induction 1 as [|x l Hx _ IH]; simpl; lra.
Qed.

Lemma Qsum_pos (l : list Q) :
  Forall (fun x => 0 <= x) l -> Exists (fun x => 0 < x) l -> 0 < Qsum l.
Proof.
  intros Hall Hex. induction Hex as [x l Hx|x l Hex IH].
  - inversion Hall as [|? ? _ Hl]; subst. pose proof (Qsum_nonneg l Hl). simpl. lra.
  - inversion Hall as [|? ? Hx Hl]; subst. specialize (IH Hl). simpl. lra.
Qed.

Lemma Qsum_map_div (l : list Q) (s : Q) :
  ~ s == 0 -> Qsum (map (fun c => c / s) l) == Qsum l / s.
Proof.
  intro Hs. induction l as [|x l IH]; simpl.
  - field. exact Hs.
  - rewrite IH. field. exact Hs.
Qed.

Lemma last_map_Num (l : list Q) (d : Q) :
  last (map Num l) (Num d) = Num (last l d).
Proof.
  induction l as [|x l IH]; [reflexivity|].
  destruct l as [|y l]; [reflexivity|]. exact IH.
Qed.

Lemma last_qprefix (l : list Q) (a d : Q) :
  l <> [] -> last (qprefix a l) d == a + Qsum l.
Proof.
  revert a. induction l as [|x l IH]; intros a Hne; [contradiction|].
  destruct l as [|y l].
  - simpl. lra.
  - change (last (qprefix (a + x) (y :: l)) d == a + (x + Qsum (y :: l))).
    rewrite IH by discriminate. lra.
Qed.

Lemma nondecreasing_qprefix (l : list Q) (a : Q) :
  Forall (fun x => 0 <= x) l -> nondecreasing (map Num (qprefix a l)).
Proof.
  intro H. revert a. induction H as [|x l Hx Hl IH]; intro a; [exact I|].
  destruct Hl as [|y l Hy Hl]; [exact I|].
  split.
  - simpl. apply Qle_bool_iff. lra.
  - apply (IH (a + x)).
Qed.

(* ================================================================== *)
(** ** The probability table *)

Lemma cum_push_Num (acc : list Q) (c : Q) :
  cum_push (map Num acc) (Num c) = map Num (acc ++ [last acc 0 + c]).
Proof.
  unfold cum_push. rewrite map_app. f_equal.
  destruct acc as [|x acc]; [reflexivity|].
  change zero with (Num 0). rewrite last_map_Num. reflexivity.
Qed.

Lemma fold_cum_push_Num (l acc : list Q) :
  fold_left cum_push (map Num l) (map Num acc)
  = map Num (acc ++ qprefix (last acc 0) l).
Proof.
  revert acc. induction l as [|x l IH]; intro acc; simpl.
  - rewrite app_nil_r. reflexivity.
  - rewrite cum_push_Num, IH, last_last, <- app_assoc. reflexivity.
Qed.

Lemma probs_of_Num (buckets : list Bucket.t) :
  Forall (fun b => isFinite (Bucket.p b) = true) buckets ->
  probs_of buckets = map Num (map (fun b => qclamp (qval (Bucket.p b))) buckets).
Proof.
  induction 1 as [|b l Hb _ IH]; [reflexivity|].
  unfold probs_of in *. cbn [map]. rewrite IH. f_equal.
  destruct (Bucket.p b) as [ | | |q]; try discriminate.
  unfold Math_max, zero, qclamp. simpl. destruct (Qlt_bool 0 q); reflexivity.
Qed.

Lemma qclamp_nonneg (q : Q) : 0 <= qclamp q.
Proof.
  unfold qclamp. qcases; lra.
Qed.

(** The table of a bucket list with finite weights, one of them positive:
    the clamped weights [cs], their sum [s], and the two arrays. *)
Lemma table_shape (buckets : list Bucket.t) :
  Forall (fun b => isFinite (Bucket.p b) = true) buckets ->
  Exists (fun b => (Bucket.p b >? zero)%js = true) buckets ->
  exists cs s,
    Forall (fun c => 0 <= c) cs /\ cs <> [] /\ 0 < s /\ s == Qsum cs
    /\ normProbs_of buckets = map Num (map (fun c => c / s) cs)
    /\ cumProbs_of buckets = map Num (qprefix 0 (map (fun c => c / s) cs)).
Proof.
  intros Hfin Hpos.
  set (cs := map (fun b => qclamp (qval (Bucket.p b))) buckets).
  assert (Hcs : Forall (fun c => 0 <= c) cs).
  { apply Forall_forall. intros c Hc. apply in_map_iff in Hc.
    destruct Hc as (b & <- & _). apply qclamp_nonneg. }
  assert (Hex : Exists (fun c => 0 < c) cs).
  { apply Exists_exists in Hpos. destruct Hpos as (b & Hb & Hgt).
    apply Exists_exists. exists (qclamp (qval (Bucket.p b))).
    split; [apply in_map_iff; exists b; auto|].
    rewrite Forall_forall in Hfin. specialize (Hfin b Hb).
    destruct (Bucket.p b) as [ | | |q]; try discriminate.
    simpl in Hgt. unfold qclamp. simpl. rewrite Hgt.
    apply Qlt_bool_iff. exact Hgt. }
  pose proof (Qsum_pos cs Hcs Hex) as Hs.
  set (s := fold_left Qplus cs 0).
  assert (Es : s == Qsum cs).
  { unfold s. rewrite fold_left_Qplus. lra. }
  assert (Hnorm : normProbs_of buckets = map Num (map (fun c => c / s) cs)).
  { unfold normProbs_of, probSum_of. rewrite (probs_of_Num _ Hfin). fold cs.
    change zero with (Num 0). rewrite fold_left_add_Num. fold s.
    unfold or_else, falsy.
    assert (Ez : Qeq_bool s 0 = false) by (apply Qeq_bool_false_iff; lra).
    rewrite Ez. rewrite !map_map. apply map_ext. intro c.
    simpl. rewrite Ez. reflexivity. }
  exists cs, s. repeat split; auto.
  - intro E. rewrite E in Hex. inversion Hex.
  - lra.
  - unfold cumProbs_of. rewrite Hnorm.
    apply (fold_cum_push_Num (map (fun c => c / s) cs) []).
Qed.

Lemma within_num_eq (x y : number) :
  x =n= y -> isFinite x = true -> within tolerance x y.
Proof.
  unfold within, num_eq, isFinite.
  destruct x as [ | | |a], y as [ | | |b]; try contradiction;
    try discriminate.
  intros E _. apply Qabs_Qle_condition.
  unfold tolerance. split.
  - apply Qle_trans with 0; [discriminate|lra].
  - apply Qle_trans with 0; [lra|discriminate].
Qed.




(* ================================================================== *)
(** ** The progressive-exposure state machine *)

Lemma Qle_bool_inject_Z (a b : Z) :
  Qle_bool (inject_Z a) (inject_Z b) = (a <=? b)%Z.
Proof.
  apply eq_true_iff_eq. rewrite Qle_bool_iff, Z.leb_le, <- Zle_Qle. reflexivity.
Qed.

Lemma Qlt_bool_inject_Z (a b : Z) :
  Qlt_bool (inject_Z a) (inject_Z b) = (a <? b)%Z.
Proof.
  unfold Qlt_bool. rewrite Qle_bool_inject_Z. rewrite Z.ltb_antisym. reflexivity.
Qed.

(** A streak of [n] reaches a finite threshold [q], coerced by
    [Math.max(1, Math.trunc(q))], when [n] is at least the larger of 1 and
    the truncation of [q]. *)
Lemma streak_reaches (n : nat) (q : Q) :
  (of_nat n >=? Math_max one (Math_trunc (Num q)))%js
  = (Z.max 1 (Qtrunc q) <=? Z.of_nat n)%Z.
Proof.
  unfold ge, Math_trunc, Math_max, of_nat, of_Z, one, lt, le.
  change 1 with (inject_Z 1).
  rewrite Qlt_bool_inject_Z.
  destruct (1 <? Qtrunc q)%Z eqn:E; rewrite Qle_bool_inject_Z.
  - apply Z.ltb_lt in E. rewrite Z.max_r by lia. reflexivity.
  - apply Z.ltb_ge in E. rewrite Z.max_l by lia. reflexivity.
Qed.

Lemma step_on_loss_threshold_one (pg : Progressive.t) (s : Exposure) (r : number) :
  Progressive.lossStreakThreshold pg = Num 1 ->
  (r <? zero)%js = true ->
  progressive_step pg s r
  = {| currentRisk :=
         Math_max (Progressive.minRisk pg) (currentRisk s / Num 2)%js;
       lossStreak := 0; winStreak := 0 |}.
Proof.
  intros Ht Hr. unfold progressive_step.
  assert (Hg : (r >? zero)%js = false).
  { destruct r as [ | | |q]; try reflexivity; try discriminate.
    unfold gt, lt, zero in *. apply Qlt_bool_iff in Hr.
    apply Qlt_bool_false_iff. lra. }
  rewrite Hg, Hr, Ht, streak_reaches.
  assert (E : (Z.max 1 (Qtrunc 1) <=? Z.of_nat (S (lossStreak s)))%Z = true).
  { apply Z.leb_le. change (Qtrunc 1) with 1%Z. lia. }
  rewrite E. reflexivity.
Qed.

Lemma risks_halving (pg : Progressive.t) :
  Progressive.lossStreakThreshold pg = Num 1 ->
  forall outcomes s k,
    Forall (fun r => (r <? zero)%js = true) outcomes ->
    (S k < length outcomes)%nat ->
    nth (S k) (risks (Some pg) s outcomes) NaN
    = Math_max (Progressive.minRisk pg)
        (nth k (risks (Some pg) s outcomes) NaN / Num 2)%js.
Proof.
  intros Ht outcomes. induction outcomes as [|o rest IH]; intros s k Hneg Hk.
  - simpl in Hk. lia.
  - inversion Hneg as [|? ? Ho Hrest]; subst.
    cbn [risks exposure_step].
    rewrite (step_on_loss_threshold_one pg s o Ht Ho).
    destruct k as [|k].
    + destruct rest as [|o' rest']; [simpl in Hk; lia|]. reflexivity.
    + cbn [nth]. 
      rewrite <- (step_on_loss_threshold_one pg s o Ht Ho).
      change (progressive_step pg s o) with (exposure_step (Some pg) s o).
      apply IH; [exact Hrest|simpl in Hk; lia].
Qed.

Lemma floor_is_fixed (m x : Q) :
  0 <= m -> x == m -> Math_max (Num m) (Num x / Num 2)%js =n= Num m.
Proof.
  intros Hm Hx. unfold Math_max, div, lt.
  assert (E2 : Qeq_bool 2 0 = false) by reflexivity.
  rewrite E2. qcases; unfold num_eq; [|reflexivity].
  assert (x / 2 == x * (1 # 2)) by (field). lra.
Qed.



(* ================================================================== *)
(** ** Percentiles *)

Lemma insert_Num (x : Q) (l : list Q) :
  insert (Num x) (map Num l) = map Num (qinsert x l).
Proof.
  induction l as [|y l IH]; [reflexivity|].
  cbn [map insert qinsert].
  change ((Num x - Num y >? zero)%js) with (Qlt_bool 0 (x - y)).
  destruct (Qlt_bool 0 (x - y)); [|reflexivity].
  rewrite IH. reflexivity.
Qed.

Lemma sort_Num (l : list Q) : sort (map Num l) = map Num (qsort l).
Proof.
  induction l as [|x l IH]; [reflexivity|].
  unfold sort, qsort in *. cbn [map fold_right]. rewrite IH. apply insert_Num.
Qed.

Lemma qinsert_In (x z : Q) (l : list Q) :
  In z (qinsert x l) <-> z = x \/ In z l.
Proof.
  induction l as [|y l IH]; simpl.
  - intuition.
  - destruct (Qlt_bool 0 (x - y)); simpl; rewrite ?IH; intuition.
Qed.

Lemma qsort_In (z : Q) (l : list Q) : In z (qsort l) <-> In z l.
Proof.
  induction l as [|x l IH]; simpl; [reflexivity|].
  rewrite qinsert_In, IH. intuition.
Qed.

Lemma qinsert_length (x : Q) (l : list Q) :
  length (qinsert x l) = S (length l).
Proof.
  induction l as [|y l IH]; simpl; [reflexivity|].
  destruct (Qlt_bool 0 (x - y)); simpl; rewrite ?IH; reflexivity.
Qed.

Lemma qsort_length (l : list Q) : length (qsort l) = length l.
Proof.
  induction l as [|x l IH]; simpl; [reflexivity|].
  rewrite qinsert_length, IH. reflexivity.
Qed.

Lemma qinsert_sorted (x : Q) (l : list Q) :
  StronglySorted Qle l -> StronglySorted Qle (qinsert x l).
Proof.
  induction 1 as [|y l Hs IH Hy]; simpl.
  - repeat constructor.
  - destruct (Qlt_bool 0 (x - y)) eqn:E.
    + apply Qlt_bool_iff in E. constructor; [exact IH|].
      apply Forall_forall. intros z Hz. apply qinsert_In in Hz.
      destruct Hz as [->|Hz]; [lra|].
      rewrite Forall_forall in Hy. apply Hy. exact Hz.
    + apply Qlt_bool_false_iff in E. constructor.
      * constructor; assumption.
      * constructor; [lra|].
        apply Forall_forall. intros z Hz. rewrite Forall_forall in Hy.
        specialize (Hy z Hz). lra.
Qed.

Lemma qsort_sorted (l : list Q) : StronglySorted Qle (qsort l).
Proof.
  induction l as [|x l IH]; simpl; [constructor|].
  apply qinsert_sorted. exact IH.
Qed.

Lemma sorted_nth (s : list Q) :
  StronglySorted Qle s ->
  forall i j, (i <= j < length s)%nat -> nth i s 0 <= nth j s 0.
Proof.
  induction 1 as [|x s Hs IH Hx]; intros i j [Hij Hj]; simpl in Hj; [lia|].
  destruct j as [|j].
  - assert (i = 0%nat) by lia. subst i. simpl. lra.
  - destruct i as [|i]; simpl.
    + rewrite Forall_forall in Hx. apply Hx. apply nth_In. lia.
    + apply IH. lia.
Qed.

(** [Math.min] and [Math.max] of a non-empty array of finite numbers: an
    element that bounds all of them. *)
Lemma fold_Math_min_Num (l : list Q) (a : Q) :
  exists m, fold_left Math_min (map Num l) (Num a) = Num m
            /\ (m = a \/ In m l) /\ m <= a /\ forall q, In q l -> m <= q.
Proof.
  revert a. induction l as [|x l IH]; intro a; simpl.
  - exists a. repeat split; auto; try lra. intros q [].
  - destruct (Qlt_bool x a) eqn:E.
    + apply Qlt_bool_iff in E.
      destruct (IH x) as (m & Hm & Hin & Hle & Hall).
      exists m. rewrite Hm. repeat split; auto.
      * destruct Hin as [->|Hin]; auto.
      * lra.
      * intros q [<-|Hq]; auto.
    + apply Qlt_bool_false_iff in E.
      destruct (IH a) as (m & Hm & Hin & Hle & Hall).
      exists m. rewrite Hm. repeat split; auto.
      * destruct Hin as [->|Hin]; auto.
      * intros q [<-|Hq]; [lra|auto].
Qed.

Lemma Math_min_list_Num (x : Q) (l : list Q) :
  exists m, Math_min_list (map Num (x :: l)) = Num m
            /\ In m (x :: l) /\ forall q, In q (x :: l) -> m <= q.
Proof.
  unfold Math_min_list. cbn [map fold_left].
  change (Math_min PosInfinity (Num x)) with (Num x).
  destruct (fold_Math_min_Num l x) as (m & Hm & Hin & Hle & Hall).
  exists m. repeat split; auto.
  - destruct Hin as [->|Hin]; [left; reflexivity|right; exact Hin].
  - intros q [<-|Hq]; auto.
Qed.

Lemma fold_Math_max_Num (l : list Q) (a : Q) :
  exists m, fold_left Math_max (map Num l) (Num a) = Num m
            /\ (m = a \/ In m l) /\ a <= m /\ forall q, In q l -> q <= m.
Proof.
  revert a. induction l as [|x l IH]; intro a; simpl.
  - exists a. repeat split; auto; try lra. intros q [].
  - destruct (Qlt_bool a x) eqn:E.
    + apply Qlt_bool_iff in E.
      destruct (IH x) as (m & Hm & Hin & Hle & Hall).
      exists m. rewrite Hm. repeat split; auto.
      * destruct Hin as [->|Hin]; auto.
      * lra.
      * intros q [<-|Hq]; auto.
    + apply Qlt_bool_false_iff in E.
      destruct (IH a) as (m & Hm & Hin & Hle & Hall).
      exists m. rewrite Hm. repeat split; auto.
      * destruct Hin as [->|Hin]; auto.
      * intros q [<-|Hq]; [lra|auto].
Qed.

Lemma Math_max_list_Num (x : Q) (l : list Q) :
  exists m, Math_max_list (map Num (x :: l)) = Num m
            /\ In m (x :: l) /\ forall q, In q (x :: l) -> q <= m.
Proof.
  unfold Math_max_list. cbn [map fold_left].
  change (Math_max NegInfinity (Num x)) with (Num x).
  destruct (fold_Math_max_Num l x) as (m & Hm & Hin & Hle & Hall).
  exists m. repeat split; auto.
  - destruct Hin as [->|Hin]; [left; reflexivity|right; exact Hin].
  - intros q [<-|Hq]; auto.
Qed.

(** Floor and ceiling of a rational within [0, n - 1]. *)
Lemma floor_ceiling_bounds (x : Q) (n : nat) :
  0 <= x -> x <= inject_Z (Z.of_nat n) - 1 ->
  (0 <= Qfloor x <= Qceiling x)%Z
  /\ (Qceiling x <= Qfloor x + 1)%Z
  /\ (Qceiling x <= Z.of_nat n - 1)%Z.
Proof.
  intros H0 Hn.
  pose proof (Qfloor_le x) as Hf.
  pose proof (Qlt_floor x) as Hf'.
  pose proof (Qle_ceiling x) as Hc.
  pose proof (Qceiling_lt x) as Hc'.
  repeat split.
  - change 0%Z with (Qfloor 0). apply Qfloor_resp_le. exact H0.
  - rewrite Zle_Qle. lra.
  - assert (H : (Qceiling x - 1 < Qfloor x + 1)%Z) by (rewrite Zlt_Qlt; lra).
    lia.
  - rewrite <- (Qceiling_Z (Z.of_nat n - 1)). apply Qceiling_resp_le.
    unfold Zminus. rewrite inject_Z_plus. simpl inject_Z at 2. 
    unfold Qminus in Hn. exact Hn.
Qed.

Lemma ceiling_is_next (x : Q) :
  Qfloor x <> Qceiling x -> Qceiling x = (Qfloor x + 1)%Z.
Proof.
  intro Hne.
  pose proof (Qfloor_le x) as Hf.
  pose proof (Qlt_floor x) as Hf'.
  pose proof (Qle_ceiling x) as Hc.
  pose proof (Qceiling_lt x) as Hc'.
  assert (H1 : (Qceiling x - 1 < Qfloor x + 1)%Z) by (rewrite Zlt_Qlt; lra).
  assert (H2 : (Qfloor x <= Qceiling x)%Z) by (rewrite Zle_Qle; lra).
  lia.
Qed.

Lemma whole_when_floor_is_ceiling (x : Q) :
  Qfloor x = Qceiling x -> x == inject_Z (Qfloor x).
Proof.
  intro E.
  pose proof (Qfloor_le x) as Hf.
  pose proof (Qle_ceiling x) as Hc.
  rewrite <- E in Hc. lra.
Qed.

Section Interpolation.
Variable s : list Q.
Hypothesis s_sorted : StronglySorted Qle s.

(** The interpolated value lies between the entries at the floor and at
    the ceiling of the rank. *)
Lemma interpolate_between (x : Q) :
  0 <= x -> x <= inject_Z (Z.of_nat (length s)) - 1 ->
  nth (Z.to_nat (Qfloor x)) s 0 <= interpolate s x
  /\ interpolate s x <= nth (Z.to_nat (Qceiling x)) s 0.
Proof.
  intros H0 Hn.
  destruct (floor_ceiling_bounds x (length s) H0 Hn) as ([Hf0 Hfc] & Hc1 & Hcn).
  unfold interpolate. destruct (Z.eqb_spec (Qfloor x) (Qceiling x)) as [E|Hne].
  - rewrite <- E. split; lra.
  - rewrite (ceiling_is_next x Hne) in *.
    pose proof (Qfloor_le x) as Hfl.
    pose proof (Qlt_floor x) as Hfl'.
    rewrite inject_Z_plus in Hfl'. change (inject_Z 1) with 1 in Hfl'.
    assert (Hd : nth (Z.to_nat (Qfloor x)) s 0
                 <= nth (Z.to_nat (Qfloor x + 1)) s 0).
    { apply sorted_nth; [exact s_sorted|]. lia. }
    set (a := nth (Z.to_nat (Qfloor x)) s 0) in *.
    set (b := nth (Z.to_nat (Qfloor x + 1)) s 0) in *.
    set (t := x - inject_Z (Qfloor x)).
    assert (Ht0 : 0 <= t) by (unfold t; lra).
    assert (Ht1 : t <= 1) by (unfold t; lra).
    split; nra.
Qed.

Lemma interpolate_monotone (x y : Q) :
  0 <= x -> x <= y -> y <= inject_Z (Z.of_nat (length s)) - 1 ->
  interpolate s x <= interpolate s y.
Proof.
  intros H0 Hxy Hn.
  assert (Hxn : x <= inject_Z (Z.of_nat (length s)) - 1) by lra.
  assert (Hy0 : 0 <= y) by lra.
  destruct (floor_ceiling_bounds x (length s) H0 Hxn) as ([Hf0 Hfc] & Hc1 & Hcn).
  destruct (floor_ceiling_bounds y (length s) Hy0 Hn) as ([Hg0 Hgc] & Hd1 & Hdn).
  destruct (interpolate_between x H0 Hxn) as [Hxl Hxu].
  destruct (interpolate_between y Hy0 Hn) as [Hyl Hyu].
  pose proof (Qfloor_resp_le x y Hxy) as Hfl.
  destruct (Z.eq_dec (Qfloor x) (Qfloor y)) as [E|Hne].
  - destruct (Z.eq_dec (Qfloor x) (Qceiling x)) as [Ex|Hx].
    + (* x is whole *)
      apply Qle_trans with (nth (Z.to_nat (Qfloor y)) s 0); [|exact Hyl].
      rewrite <- E. unfold interpolate. rewrite <- Ex, Z.eqb_refl. lra.
    + (* x is not whole, and then neither is y *)
      assert (Hy : Qfloor y <> Qceiling y).
      { intro Ey. apply Hx.
        pose proof (whole_when_floor_is_ceiling y Ey) as Hyw.
        pose proof (Qfloor_le x) as Hfx.
        assert (Hxw : x == inject_Z (Qfloor x)) by (rewrite E; rewrite E in Hfx; lra).
        rewrite Hxw at 2. rewrite Qceiling_Z. reflexivity. }
      unfold interpolate.
      destruct (Z.eqb_spec (Qfloor x) (Qceiling x)); [contradiction|].
      destruct (Z.eqb_spec (Qfloor y) (Qceiling y)); [contradiction|].
      rewrite (ceiling_is_next x Hx), (ceiling_is_next y Hy), <- E.
      assert (Hd : nth (Z.to_nat (Qfloor x)) s 0
                   <= nth (Z.to_nat (Qfloor x + 1)) s 0).
      { apply sorted_nth; [exact s_sorted|].
        rewrite (ceiling_is_next x Hx) in Hcn. lia. }
      set (a := nth (Z.to_nat (Qfloor x)) s 0) in *.
      set (b := nth (Z.to_nat (Qfloor x + 1)) s 0) in *.
      nra.
  - apply Qle_trans with (nth (Z.to_nat (Qceiling x)) s 0); [exact Hxu|].
    apply Qle_trans with (nth (Z.to_nat (Qfloor y)) s 0); [|exact Hyl].
    apply sorted_nth; [exact s_sorted|]. lia.
Qed.

End Interpolation.

Lemma Qeq_bool_inject_Z (a b : Z) :
  Qeq_bool (inject_Z a) (inject_Z b) = (a =? b)%Z.
Proof.
  apply eq_true_iff_eq. rewrite Qeq_bool_iff, Z.eqb_eq, inject_Z_injective.
  reflexivity.
Qed.

Lemma strict_eq_of_Z (a b : Z) : strict_eq (of_Z a) (of_Z b) = (a =? b)%Z.
Proof.
  apply Qeq_bool_inject_Z.
Qed.

Lemma get_Num (s : list Q) (z : Z) :
  (0 <= z < Z.of_nat (length s))%Z ->
  get (map Num s) (of_Z z) = Some (Num (nth (Z.to_nat z) s 0)).
Proof.
  intros [H0 Hn]. unfold get, of_Z, Qis_int.
  rewrite Qfloor_Z, Qeq_bool_inject_Z, Z.eqb_refl.
  change 0 with (inject_Z 0). rewrite Qle_bool_inject_Z.
  apply Z.leb_le in H0. rewrite H0. cbn [andb].
  rewrite nth_error_map.
  rewrite (nth_error_nth' s 0) by lia. reflexivity.
Qed.

Lemma rank_bounds (p : Q) (n : nat) :
  0 <= p -> p <= 100 -> (1 <= n)%nat ->
  0 <= rank p n /\ rank p n <= inject_Z (Z.of_nat n) - 1.
Proof.
  intros H0 H1 Hn. unfold rank.
  assert (Hc : p / 100 == p * (1 # 100)) by field.
  assert (Hz : 1 <= inject_Z (Z.of_nat n)).
  { change 1 with (inject_Z 1). rewrite <- Zle_Qle. lia. }
  rewrite Hc. set (k := inject_Z (Z.of_nat n)) in *. split; nra.
Qed.

Lemma rank_monotone (p1 p2 : Q) (n : nat) :
  p1 <= p2 -> (1 <= n)%nat -> rank p1 n <= rank p2 n.
Proof.
  intros H Hn. unfold rank.
  assert (Hc1 : p1 / 100 == p1 * (1 # 100)) by field.
  assert (Hc2 : p2 / 100 == p2 * (1 # 100)) by field.
  assert (Hz : 1 <= inject_Z (Z.of_nat n)).
  { change 1 with (inject_Z 1). rewrite <- Zle_Qle. lia. }
  rewrite Hc1, Hc2. set (k := inject_Z (Z.of_nat n)) in *. nra.
Qed.

(** [percentile] on a non-empty array of finite numbers and a percentile
    between 0 and 100. *)
Lemma percentile_Num (qs : list Q) (p : Q) :
  qs <> [] -> 0 <= p -> p <= 100 ->
  percentile (map Num qs) (Num p)
  = Some (Num (interpolate (qsort qs) (rank p (length qs)))).
Proof.
  intros Hne H0 H1.
  assert (Hn : (1 <= length qs)%nat).
  { destruct qs; [contradiction|simpl; lia]. }
  destruct (rank_bounds p (length qs) H0 H1 Hn) as [Hr0 Hrn].
  destruct (floor_ceiling_bounds _ _ Hr0 Hrn) as ([Hf0 Hfc] & Hc1 & Hcn).
  unfold percentile.
  rewrite length_map.
  destruct (Nat.eqb_spec (length qs) 0); [lia|].
  rewrite sort_Num, length_map, qsort_length.
  change ((Num p / Num 100 * (of_nat (length qs) - one))%js)
    with (Num (rank p (length qs))).
  cbn [Math_floor Math_ceil].
  rewrite strict_eq_of_Z.
  unfold interpolate.
  rewrite (get_Num (qsort qs) (Qfloor _)) by (rewrite qsort_length; lia).
  destruct (Z.eqb_spec (Qfloor (rank p (length qs)))
              (Qceiling (rank p (length qs)))) as [E|E]; [reflexivity|].
  rewrite (get_Num (qsort qs) (Qceiling _)) by (rewrite qsort_length; lia).
  reflexivity.
Qed.



(* ================================================================== *)
(** ** Drawdowns *)

Lemma qpeak_pos (pk v : Q) : 0 < pk -> 0 < qpeak pk v.
Proof.
  intro H. unfold qpeak. qcases; lra.
Qed.

Lemma qpeak_ge (pk v : Q) : pk <= qpeak pk v /\ v <= qpeak pk v.
Proof.
  unfold qpeak. qcases; split; lra.
Qed.

Lemma peak_step_Num (pk v : Q) :
  0 < pk ->
  peak_step (Num pk) (Num v) = (Num (qpeak pk v), Num (v / qpeak pk v - 1)).
Proof.
  intro H. pose proof (qpeak_pos pk v H) as Hp.
  unfold peak_step, gt, lt.
  replace (if Qlt_bool pk v then Num v else Num pk) with (Num (qpeak pk v))
    by (unfold qpeak; destruct (Qlt_bool pk v); reflexivity).
  f_equal. unfold div, sub, one, add, neg.
  assert (E : Qeq_bool (qpeak pk v) 0 = false) by (apply Qeq_bool_false_iff; lra).
  rewrite E. reflexivity.
Qed.

Lemma drawdown_from_Num (l : list Q) :
  forall pk, 0 < pk ->
    drawdown_from (Num pk) (map Num l) = map Num (qdrawdowns pk l).
Proof.
  induction l as [|v l IH]; intros pk H; [reflexivity|].
  cbn [map drawdown_from qdrawdowns]. rewrite (peak_step_Num pk v H).
  rewrite IH by (apply qpeak_pos; exact H). reflexivity.
Qed.

Lemma fold_dd_step_Num (l : list Q) :
  forall pk md, 0 < pk ->
    exists pk',
      fold_left dd_step (map Num l) (Num pk, Num md)
      = (Num pk', Num (fold_left qmin (qdrawdowns pk l) md)).
Proof.
  induction l as [|v l IH]; intros pk md H.
  - exists pk. reflexivity.
  - cbn [map fold_left qdrawdowns]. unfold dd_step at 2.
    rewrite (peak_step_Num pk v H).
    change ((Num (v / qpeak pk v - 1) <? Num md)%js)
      with (Qlt_bool (v / qpeak pk v - 1) md).
    replace (if Qlt_bool (v / qpeak pk v - 1) md
             then Num (v / qpeak pk v - 1) else Num md)
      with (Num (qmin md (v / qpeak pk v - 1)))
      by (unfold qmin; destruct (Qlt_bool _ md); reflexivity).
    apply IH. apply qpeak_pos. exact H.
Qed.

Lemma qdrawdowns_nonpos (l : list Q) :
  forall pk, 0 < pk -> Forall (fun d => d <= 0) (qdrawdowns pk l).
Proof.
  induction l as [|v l IH]; intros pk H; [constructor|].
  pose proof (qpeak_pos pk v H) as Hp.
  destruct (qpeak_ge pk v) as [_ Hv].
  constructor.
  - assert (Hd : v / qpeak pk v <= 1).
    { apply Qle_shift_div_r; lra. }
    lra.
  - apply IH. exact Hp.
Qed.

Lemma qdrawdowns_length (l : list Q) :
  forall pk, length (qdrawdowns pk l) = length l.
Proof.
  induction l as [|v l IH]; intro pk; simpl; [reflexivity|].
  rewrite IH. reflexivity.
Qed.

Lemma fold_qmin_le (ds : list Q) :
  forall a, fold_left qmin ds a <= a.
Proof.
  induction ds as [|d ds IH]; intro a; simpl; [lra|].
  specialize (IH (qmin a d)). unfold qmin in *.
  revert IH. qcases; intro IH; lra.
Qed.

Lemma fold_qmin_eq (ds : list Q) :
  forall a b, a == b -> fold_left qmin ds a == fold_left qmin ds b.
Proof.
  induction ds as [|d ds IH]; intros a b E; simpl; [exact E|].
  apply IH. unfold qmin. qcases; lra.
Qed.

(** With every drawdown at most 0, the minimum from 0 is 0 exactly when
    every drawdown is 0. *)
Lemma fold_qmin_zero (ds : list Q) :
  Forall (fun d => d <= 0) ds ->
  forall a, a <= 0 ->
    (fold_left qmin ds a == 0 <-> a == 0 /\ Forall (fun d => d == 0) ds).
Proof.
  induction 1 as [|d ds Hd _ IH]; intros a Ha; simpl.
  - split; [intro E; split; [exact E|constructor]|intros [E _]; exact E].
  - assert (Hq : qmin a d <= 0) by (unfold qmin; qcases; lra).
    rewrite (IH _ Hq). unfold qmin. split.
    + intros [Hz Hall]. revert Hz. qcases; intro Hz.
      * lra.
      * split; [exact Hz|]. constructor; [lra|exact Hall].
    + intros [Hz Hall]. inversion Hall as [|? ? Hd0 Hds]; subst.
      split; [|exact Hds]. qcases; lra.
Qed.

Lemma climbs_eq (l : list Q) (a b : Q) : a == b -> climbs a l -> climbs b l.
Proof.
  destruct l as [|v l]; simpl; [auto|]. intros E [H1 H2]. split; [lra|exact H2].
Qed.

Lemma qdrawdowns_zero (l : list Q) :
  forall pk, 0 < pk ->
    (Forall (fun d => d == 0) (qdrawdowns pk l) <-> climbs pk l).
Proof.
  induction l as [|v l IH]; intros pk H; simpl.
  - split; [auto|constructor].
  - pose proof (qpeak_pos pk v H) as Hp.
    assert (Hdd : v / qpeak pk v - 1 == 0 <-> pk <= v).
    { unfold qpeak in *. revert Hp. qcases; intro Hp.
      - split; [lra|]. intros _. field. lra.
      - split.
        + intro Hz. assert (Hv : v / pk == 1) by lra.
          assert (Hv' : v == 1 * pk).
          { rewrite <- Hv. field. lra. }
          lra.
        + intro Hle. assert (Hv : v == pk) by lra. rewrite Hv. field. lra. }
    split.
    + intro Hall. inversion Hall as [|? ? Hd Hds]; subst.
      apply Hdd in Hd. split; [exact Hd|].
      apply (IH _ Hp) in Hds.
      apply climbs_eq with (qpeak pk v); [|exact Hds].
      unfold qpeak. qcases; lra.
    + intros [Hle Hc]. constructor; [apply Hdd; exact Hle|].
      apply (IH _ Hp).
      apply climbs_eq with v; [|exact Hc].
      unfold qpeak. qcases; lra.
Qed.

Lemma nondecreasing_climbs (x : Q) (l : list Q) :
  nondecreasing (map Num (x :: l)) <-> climbs x l.
Proof.
  revert x. induction l as [|y l IH]; intro x.
  - simpl. tauto.
  - change (nondecreasing (map Num (x :: y :: l)))
      with ((Num x <=? Num y)%js = true /\ nondecreasing (map Num (y :: l))).
    rewrite IH. cbn [climbs]. unfold le. rewrite Qle_bool_iff. tauto.
Qed.

(** [maxDrawdown] of a series of finite numbers that starts positive. *)
Lemma maxDrawdown_Num (x : Q) (l : list Q) :
  0 < x ->
  maxDrawdown (map Num (x :: l))
  = Num (fold_left qmin (qdrawdowns x (x :: l)) 0).
Proof.
  intro H. unfold maxDrawdown. cbn [map].
  change (Num x :: map Num l) with (map Num (x :: l)).
  destruct (fold_dd_step_Num (x :: l) x 0 H) as (pk' & E).
  unfold zero. rewrite E. reflexivity.
Qed.

(** C7.  [maxDrawdown] of an empty series is 0.  On a non-empty series of
    positive (finite) values it is at most 0, and it is 0 exactly when the
    series is non-decreasing. *)
Theorem maxDrawdown_properties :
  maxDrawdown [] = zero
  /\ forall (x : Q) (l : list Q),
       Forall (fun q => 0 < q) (x :: l) ->
       exists m,
         maxDrawdown (map Num (x :: l)) = Num m
         /\ m <= 0
         /\ (m == 0 <-> nondecreasing (map Num (x :: l))).
Proof.
  split; [reflexivity|].
  intros x l Hpos.
  assert (Hx : 0 < x) by (inversion Hpos; assumption).
  exists (fold_left qmin (qdrawdowns x (x :: l)) 0).
  split; [apply maxDrawdown_Num; exact Hx|].
  split; [apply fold_qmin_le|].
  rewrite fold_qmin_zero; [|apply qdrawdowns_nonpos; exact Hx|lra].
  rewrite (qdrawdowns_zero (x :: l) x Hx).
  rewrite nondecreasing_climbs. cbn [climbs].
  split; [tauto|]. intro Hc. split; [reflexivity|]. split; [lra|exact Hc].
Qed.

Lemma maxDrawdown_properties_witness :
  exists m,
    maxDrawdown (map Num [100; 120; 90; 130]) = Num m
    /\ m <= 0
    /\ (m == 0 <-> nondecreasing (map Num [100; 120; 90; 130])).
Proof.
  destruct maxDrawdown_properties as [_ H].
  apply (H 100 [120; 90; 130]).
  repeat constructor.
Defined.

Lemma drawdown_from_length (series : list number) :
  forall peak, length (drawdown_from peak series) = length series.
Proof.
  induction series as [|v rest IH]; intro peak; [reflexivity|].
  cbn [drawdown_from]. destruct (peak_step peak v) as [pk dd].
  cbn [length]. rewrite IH. reflexivity.
Qed.

Lemma fold_Math_min_qmin (ds : list Q) :
  forall a, fold_left Math_min (map Num ds) (Num a) = Num (fold_left qmin ds a).
Proof.
  induction ds as [|d ds IH]; intro a; [reflexivity|].
  cbn [map fold_left].
  replace (Math_min (Num a) (Num d)) with (Num (qmin a d))
    by (unfold Math_min, lt, qmin; destruct (Qlt_bool d a); reflexivity).
  apply IH.
Qed.




(* ================================================================== *)
(** ** Degenerate counts *)

Lemma Qtrunc_inject_Z (z : Z) : Qtrunc (inject_Z z) = z.
Proof.
  unfold Qtrunc, inject_Z. simpl. apply Z.quot_1_r.
Qed.

Lemma Qtrunc_nonpos (q : Q) : q <= 0 -> (Qtrunc q <= 0)%Z.
Proof.
  destruct q as [n d]. unfold Qle, Qtrunc. simpl. intro H.
  assert (Hn : (n <= 0)%Z) by lia.
  apply Z.quot_le_upper_bound; lia.
Qed.

Lemma Math_max_one_of_Z (z : Z) : Math_max one (of_Z z) = of_Z (Z.max 1 z).
Proof.
  unfold Math_max, one, of_Z, lt. change 1 with (inject_Z 1).
  rewrite Qlt_bool_inject_Z.
  destruct (Z.ltb_spec 1 z).
  - rewrite Z.max_r by lia. reflexivity.
  - rewrite Z.max_l by lia. reflexivity.
Qed.

(** A count that is at most 0 is coerced to 1. *)
Lemma coerced_to_one (x : number) :
  (x <=? zero)%js = true ->
  Math_max one (Math_trunc x) = one /\ count_of x = 1%nat.
Proof.
  destruct x as [ | | |q]; try discriminate.
  - intros _. split; reflexivity.
  - unfold le, zero. rewrite Qle_bool_iff. intro H.
    pose proof (Qtrunc_nonpos q H) as Ht.
    unfold Math_trunc, count_of, qval. rewrite Math_max_one_of_Z.
    rewrite Z.max_l by lia. split; reflexivity.
Qed.

Lemma usable_count (limit : Z) (x : number) :
  (1 < limit)%Z -> usable limit x ->
  Math_max one (Math_trunc x) = of_Z (Z.of_nat (count_of x))
  /\ (1 <= Z.of_nat (count_of x) < limit)%Z.
Proof.
  intros Hl [Hle|(q & -> & Hq)].
  - destruct (coerced_to_one x Hle) as [E1 E2]. rewrite E1, E2.
    split; [reflexivity|simpl; lia].
  - unfold Math_trunc, count_of, qval. rewrite Math_max_one_of_Z.
    rewrite Z2Nat.id by lia. split; [reflexivity|lia].
Qed.

Lemma new_Array_of_Z (z : Z) :
  (0 <= z < 2 ^ 32)%Z -> new_Array (of_Z z) = Ok (Z.to_nat z).
Proof.
  intros [H0 H1]. unfold new_Array, of_Z, Qis_int.
  rewrite Qfloor_Z, Qeq_bool_inject_Z, Z.eqb_refl.
  change 0 with (inject_Z 0).
  rewrite Qle_bool_inject_Z, Qlt_bool_inject_Z.
  apply Z.leb_le in H0. apply Z.ltb_lt in H1. rewrite H0, H1. reflexivity.
Qed.

Lemma new_Float64Array_of_Z (z : Z) :
  (0 <= z < 2 ^ 53)%Z -> new_Float64Array (of_Z z) = Ok (Z.to_nat z).
Proof.
  intros [H0 H1]. unfold new_Float64Array, of_Z.
  rewrite Qtrunc_inject_Z.
  apply Z.leb_le in H0. apply Z.ltb_lt in H1. rewrite H0, H1. reflexivity.
Qed.

Lemma iterations_of_Z (z : Z) : iterations (of_Z z) = Z.to_nat z.
Proof.
  unfold iterations, of_Z. rewrite Qceiling_Z. reflexivity.
Qed.

(** The loops of [runSimulation] run as many times as the arrays they fill
    are long. *)
Lemma loops_fill_arrays (cfg : Config.t) :
  (forall len, new_Float64Array (safeTrades_of cfg) = Ok len ->
               iterations (safeTrades_of cfg) = len)
  /\ (forall len, new_Array (safePaths_of cfg) = Ok len ->
                  iterations (safePaths_of cfg) = len).
Proof.
  unfold safeTrades_of, safePaths_of. split; intro len.
  - destruct (Config.nTrades cfg) as [ | | |q]; cbn [Math_trunc].
    + cbn. intro H. injection H as <-. reflexivity.
    + cbn. discriminate.
    + cbn. intro H. injection H as <-. reflexivity.
    + rewrite Math_max_one_of_Z, iterations_of_Z.
      unfold new_Float64Array, of_Z. rewrite Qtrunc_inject_Z.
      destruct (_ && _); [|discriminate]. intro H. injection H as <-. reflexivity.
  - destruct (Config.nPaths cfg) as [ | | |q]; cbn [Math_trunc].
    + cbn. discriminate.
    + cbn. discriminate.
    + cbn. intro H. injection H as <-. reflexivity.
    + rewrite Math_max_one_of_Z, iterations_of_Z.
      unfold new_Array, of_Z. rewrite Qfloor_Z.
      destruct (_ && _); [|discriminate]. intro H. injection H as <-. reflexivity.
Qed.

Lemma fold_cum_push_length (l acc : list number) :
  length (fold_left cum_push l acc) = (length acc + length l)%nat.
Proof.
  revert acc. induction l as [|x l IH]; intro acc; simpl; [lia|].
  rewrite IH. unfold cum_push. rewrite length_app. simpl. lia.
Qed.

Lemma cumProbs_of_length (buckets : list Bucket.t) :
  length (cumProbs_of buckets) = length buckets.
Proof.
  unfold cumProbs_of. rewrite fold_cum_push_length.
  unfold normProbs_of, probs_of. rewrite !length_map. reflexivity.
Qed.

Section Total.
Variable buckets : list Bucket.t.
Variable cumProbs : list number.
Variable progressive : option Progressive.t.
Hypothesis some_bucket : buckets <> [].
Hypothesis same_length : length cumProbs = length buckets.

Lemma trade_total (st : TradeState) :
  exists sample st', trade buckets cumProbs progressive st = Ok (sample, st').
Proof.
  destruct (selects_total buckets cumProbs (fst (draw (rng st)))
              some_bucket same_length) as [b Hb].
  unfold trade, sample_trade, bind.
  destruct (draw (rng st)) as [u g]. cbn [fst] in Hb.
  rewrite (pick_bucket_selects _ _ _ _ Hb).
  destruct (sample_of b g) as [sample g'].
  destruct (dd_step (peak st, minDd st) _) as [pk md].
  eauto.
Qed.

Lemma trades_total (n : nat) :
  forall st, exists equityPath rPath st',
    trades buckets cumProbs progressive n st = Ok (equityPath, rPath, st')
    /\ length equityPath = n /\ length rPath = n.
Proof.
  induction n as [|n IH]; intro st.
  - exists [], [], st. auto.
  - destruct (trade_total st) as (sample & st1 & E1).
    destruct (IH st1) as (eqs & rs & st2 & E2 & L1 & L2).
    exists (equity st1 :: eqs), (sample :: rs), st2.
    cbn [trades]. rewrite E1. cbn [bind]. rewrite E2. cbn [bind].
    simpl. auto.
Qed.

End Total.

Lemma simulate_path_total (cfg : Config.t) (nt : nat) (g : Rng) :
  Config.buckets cfg <> [] ->
  (0 <= Z.of_nat nt < 2 ^ 53)%Z ->
  exists path g',
    simulate_path cfg (of_Z (Z.of_nat nt))
      (cumProbs_of (Config.buckets cfg)) g = Ok (path, g')
    /\ length (path_equity path) = nt /\ length (path_r path) = nt.
Proof.
  intros Hb Hnt. unfold simulate_path.
  rewrite (new_Float64Array_of_Z _ Hnt). cbn [bind].
  rewrite iterations_of_Z, Nat2Z.id.
  destruct (trades_total (Config.buckets cfg) (cumProbs_of (Config.buckets cfg))
              (Config.progressive cfg) Hb (cumProbs_of_length _) nt
              (initial_state (Config.startEquity cfg) (Config.riskFraction cfg) g))
    as (eqs & rs & st & E & L1 & L2).
  rewrite E. cbn [bind]. eexists. eexists. split; [reflexivity|]. simpl. auto.
Qed.

Lemma simulate_paths_total (cfg : Config.t) (nt : nat) :
  Config.buckets cfg <> [] ->
  (0 <= Z.of_nat nt < 2 ^ 53)%Z ->
  forall (n : nat) (g : Rng),
    exists paths,
      simulate_paths cfg (of_Z (Z.of_nat nt))
        (cumProbs_of (Config.buckets cfg)) n g = Ok paths
      /\ length paths = n
      /\ Forall (fun path => length (path_equity path) = nt
                             /\ length (path_r path) = nt) paths.
Proof.
  intros Hb Hnt. induction n as [|n IH]; intro g.
  - exists []. simpl. auto.
  - destruct (simulate_path_total cfg nt g Hb Hnt) as (path & g' & E & L1 & L2).
    destruct (IH g') as (rest & Er & Ln & Hall).
    exists (path :: rest). cbn [simulate_paths]. rewrite E. cbn [bind].
    rewrite Er. cbn [bind]. simpl. auto.
Qed.




(* ================================================================== *)
(** ** Monthly returns *)

(** One turn of the month loop: it stops, or it pushes a row and goes on
    from that row's end equity. *)
Lemma months_loop_step equityPath rPath nTrades safe c m prev y mo :
  let startIdx := (of_nat m * safe)%js in
  let endIdx := (Math_min ((of_nat m + one) * safe) nTrades - one)%js in
  ((endIdx <? startIdx)%js = true
   /\ months_loop equityPath rPath nTrades safe (S c) m prev y mo = [])
  \/ ((endIdx <? startIdx)%js = false
      /\ exists row y' mo',
           months_loop equityPath rPath nTrades safe (S c) m prev y mo
           = row :: months_loop equityPath rPath nTrades safe c (S m)
                      (MonthlyStatsRow.endEquity row) y' mo'
           /\ MonthlyStatsRow.endEquity row = to_number (get equityPath endIdx)
           /\ MonthlyStatsRow.returnValue row = (MonthlyStatsRow.endEquity row / prev - one)%js).
Proof.
  intros startIdx endIdx. cbn [months_loop]. fold startIdx. fold endIdx.
  destruct (endIdx <? startIdx)%js; [left; auto|right].
  split; [reflexivity|].
  destruct (fold_left tally_step _ _) as [[[wins losses] streak] run].
  destruct (strict_eq (mo + one)%js (Num 13));
    match goal with
    | |- exists row y' mo',
           (?r :: months_loop _ _ _ _ _ _ _ ?y2 ?m2) = _ /\ _ =>
        exists r, y2, m2
    end; repeat split; reflexivity.
Qed.

Lemma months_loop_chained equityPath rPath nTrades safe :
  forall c m prev y mo,
    chained prev (months_loop equityPath rPath nTrades safe c m prev y mo).
Proof.
  induction c as [|c IH]; intros m prev y mo; [exact I|].
  destruct (months_loop_step equityPath rPath nTrades safe c m prev y mo)
    as [[_ E]|[_ (row & y' & mo' & E & _ & Hret)]]; rewrite E.
  - exact I.
  - split; [exact Hret|apply IH].
Qed.

Lemma get_whole (s : list Q) (q : Q) (z : Z) :
  q == inject_Z z -> (0 <= z < Z.of_nat (length s))%Z ->
  get (map Num s) (Num q) = Some (Num (nth (Z.to_nat z) s 0)).
Proof.
  intros Hq [H0 Hn].
  assert (Hf : Qfloor q = z) by (rewrite Hq; apply Qfloor_Z).
  unfold get, Qis_int. rewrite Hf.
  assert (E1 : Qeq_bool q (inject_Z z) = true) by (apply Qeq_bool_iff; exact Hq).
  assert (E2 : Qle_bool 0 q = true).
  { apply Qle_bool_iff. rewrite Hq. change 0 with (inject_Z 0).
    rewrite <- Zle_Qle. exact H0. }
  rewrite E1, E2. cbn [andb]. rewrite nth_error_map.
  rewrite (nth_error_nth' s 0) by lia. reflexivity.
Qed.

(** The bounds of block [m] when the path has [n] trades and a month has a
    whole number [k] of them. *)
Lemma block_bounds (k : Z) (m n : nat) :
  exists s e,
    (of_nat m * of_Z k)%js = Num s
    /\ (Math_min ((of_nat m + one) * of_Z k) (of_nat n) - one)%js = Num e
    /\ s == inject_Z (Z.of_nat m * k)
    /\ e == inject_Z (Z.min ((Z.of_nat m + 1) * k) (Z.of_nat n) - 1).
Proof.
  unfold of_nat, of_Z, one, Math_min, mul, add, sub, neg, lt.
  destruct (Qlt_bool (inject_Z (Z.of_nat n))
              ((inject_Z (Z.of_nat m) + 1) * inject_Z k)) eqn:E;
    eexists; eexists; (split; [reflexivity|]); (split; [reflexivity|]).
  - apply Qlt_bool_iff in E.
    change 1 with (inject_Z 1) in E.
    rewrite <- inject_Z_plus, <- inject_Z_mult, <- Zlt_Qlt in E.
    split; [rewrite inject_Z_mult; reflexivity|].
    rewrite Z.min_r by lia. unfold Zminus. rewrite inject_Z_plus. reflexivity.
  - apply Qlt_bool_false_iff in E.
    change 1 with (inject_Z 1) in E.
    rewrite <- inject_Z_plus, <- inject_Z_mult, <- Zle_Qle in E.
    split; [rewrite inject_Z_mult; reflexivity|].
    rewrite Z.min_l by lia. unfold Zminus.
    rewrite inject_Z_plus, inject_Z_mult, inject_Z_plus. reflexivity.
Qed.

Lemma nth_pred_last (l : list Q) (d : Q) :
  nth (length l - 1) l d = last l d.
Proof.
  induction l as [|x l IH]; [reflexivity|].
  destruct l as [|y l]; [reflexivity|].
  cbn [length last] in *. rewrite <- IH.
  replace (S (S (length l)) - 1)%nat with (S (S (length l) - 1)) by lia.
  reflexivity.
Qed.

Section WholeMonths.
Variable qs : list Q.
Variable rPath : list number.
Variable k : Z.
Hypothesis k_pos : (1 <= k)%Z.

Let n := length qs.
Let loop := months_loop (map Num qs) rPath (of_nat n) (of_Z k).

(** A row that is pushed ends on an entry of the path. *)
Lemma pushed_row (m : nat) :
  let startIdx := (of_nat m * of_Z k)%js in
  let endIdx := (Math_min ((of_nat m + one) * of_Z k) (of_nat n) - one)%js in
  (endIdx <? startIdx)%js = false ->
  let z := (Z.min ((Z.of_nat m + 1) * k) (Z.of_nat n) - 1)%Z in
  (0 <= z < Z.of_nat n)%Z
  /\ to_number (get (map Num qs) endIdx) = Num (nth (Z.to_nat z) qs 0).
Proof.
  intros startIdx endIdx Hlt z.
  destruct (block_bounds k m n) as (s & e & Es & Ee & Hs & He).
  subst startIdx endIdx. rewrite Es, Ee in *.
  unfold lt in Hlt. apply Qlt_bool_false_iff in Hlt.
  rewrite Hs, He in Hlt. rewrite <- Zle_Qle in Hlt. fold z in Hlt, He.
  assert (Hz : (0 <= z < Z.of_nat n)%Z) by (unfold z in *; nia).
  split; [exact Hz|].
  rewrite (get_whole qs e z He Hz). reflexivity.
Qed.

Lemma loop_ends_in_path :
  forall c m prev y mo,
    Forall (fun row => exists q, In q qs /\ MonthlyStatsRow.endEquity row = Num q)
      (loop c m prev y mo).
Proof.
  induction c as [|c IH]; intros m prev y mo; [constructor|].
  unfold loop in *.
  destruct (months_loop_step (map Num qs) rPath (of_nat n) (of_Z k) c m prev y mo)
    as [[_ E]|[Hlt (row & y' & mo' & E & Hend & _)]]; rewrite E.
  - constructor.
  - constructor; [|apply IH].
    destruct (pushed_row m Hlt) as [Hz Hget].
    rewrite Hget in Hend. eexists. split; [|exact Hend].
    apply nth_In. fold n. lia.
Qed.

(** When [c] months remain of which the last one reaches the end of the
    path, rows are pushed and the last one ends on the last entry. *)
Lemma loop_reaches_end :
  forall c m prev y mo,
    (Z.of_nat (m + c) * k < Z.of_nat n)%Z ->
    (Z.of_nat n <= Z.of_nat (m + S c) * k)%Z ->
    loop (S c) m prev y mo <> []
    /\ final_of (loop (S c) m prev y mo) = Num (last qs 0).
Proof.
  induction c as [|c IH]; intros m prev y mo Hlo Hhi; unfold loop in *.
  - destruct (months_loop_step (map Num qs) rPath (of_nat n) (of_Z k) 0 m prev y mo)
      as [[Hlt E]|[Hlt (row & y' & mo' & E & Hend & _)]].
    + exfalso.
      destruct (block_bounds k m n) as (s & e & Es & Ee & Hs & He).
      cbv zeta in Hlt. rewrite Es, Ee in Hlt. unfold lt in Hlt.
      apply Qlt_bool_iff in Hlt. rewrite Hs, He, <- Zlt_Qlt in Hlt. nia.
    + rewrite E. split; [discriminate|].
      destruct (pushed_row m Hlt) as [Hz Hget].
      cbn [months_loop]. unfold final_of. cbn [map last].
      rewrite Hend, Hget. f_equal.
      replace (Z.min ((Z.of_nat m + 1) * k) (Z.of_nat n) - 1)%Z
        with (Z.of_nat (n - 1)) by nia.
      rewrite Nat2Z.id. apply nth_pred_last.
  - destruct (months_loop_step (map Num qs) rPath (of_nat n) (of_Z k) (S c) m prev y mo)
      as [[Hlt E]|[Hlt (row & y' & mo' & E & Hend & _)]].
    + exfalso.
      destruct (block_bounds k m n) as (s & e & Es & Ee & Hs & He).
      cbv zeta in Hlt. rewrite Es, Ee in Hlt. unfold lt in Hlt.
      apply Qlt_bool_iff in Hlt. rewrite Hs, He, <- Zlt_Qlt in Hlt. nia.
    + rewrite E. split; [discriminate|].
      destruct (IH (S m) (MonthlyStatsRow.endEquity row) y' mo') as [Hne Hfin].
      * replace (S m + c)%nat with (m + S c)%nat by lia. exact Hlo.
      * replace (S m + S c)%nat with (m + S (S c))%nat by lia. exact Hhi.
      * unfold final_of in *. cbn [map].
        destruct (months_loop (map Num qs) rPath (of_nat n) (of_Z k) (S c) (S m)
                    (MonthlyStatsRow.endEquity row) y' mo') as [|r rest] eqn:El;
          [contradiction|].
        exact Hfin.
Qed.

End WholeMonths.

Lemma last_default (A : Type) (l : list A) (d d' : A) :
  l <> [] -> last l d = last l d'.
Proof.
  induction l as [|x l IH]; intro H; [contradiction|].
  destruct l as [|y l]; [reflexivity|].
  cbn [last] in *. apply IH. discriminate.
Qed.

(** The product of the rows' (1 + return) telescopes to the last end equity
    over the first reference equity. *)
Lemma compound_telescopes (rows : list MonthlyStatsRow.t) :
  forall p a,
    ~ p == 0 ->
    chained (Num p) rows ->
    Forall (fun row => exists q, ~ q == 0 /\ MonthlyStatsRow.endEquity row = Num q) rows ->
    exists f,
      last (map MonthlyStatsRow.endEquity rows) (Num p) = Num f
      /\ fold_left (fun acc row => (acc * (one + MonthlyStatsRow.returnValue row))%js)
           rows (Num a)
         =n= Num (a * f / p).
Proof.
  induction rows as [|row rest IH]; intros p a Hp Hch Hall.
  - exists p. split; [reflexivity|]. simpl. field. exact Hp.
  - destruct Hch as [Hret Hch].
    inversion Hall as [|? ? (e & He & Eend) Hrest]; subst.
    rewrite Eend in Hch, Hret.
    destruct (IH e (a * (1 + (e / p - 1))) He Hch Hrest) as (f & Hlast & Hprod).
    exists f. split.
    + cbn [map]. rewrite Eend.
      destruct rest as [|r rest']; [exact Hlast|].
      rewrite <- Hlast.
      change (last (Num e :: map MonthlyStatsRow.endEquity (r :: rest')) (Num p))
        with (last (map MonthlyStatsRow.endEquity (r :: rest')) (Num p)).
      apply last_default. discriminate.
    + cbn [fold_left]. rewrite Hret.
      assert (Ep : Qeq_bool p 0 = false) by (apply Qeq_bool_false_iff; exact Hp).
      unfold div, sub, add, neg, mul, one at 2 3. rewrite Ep.
      unfold div, sub, add, neg, mul, one in Hprod.
      etransitivity; [exact Hprod|].
      simpl. field. split; assumption.
Qed.

Lemma ceiling_quotient (k n : Z) :
  (1 <= k)%Z -> (1 <= n)%Z ->
  let M := Qceiling (inject_Z n / inject_Z k) in
  (1 <= M)%Z /\ ((M - 1) * k < n)%Z /\ (n <= M * k)%Z.
Proof.
  intros Hk Hn M.
  pose proof (Qceiling_lt (inject_Z n / inject_Z k)) as H1.
  pose proof (Qle_ceiling (inject_Z n / inject_Z k)) as H2.
  fold M in H1, H2.
  assert (Hkq : 1 <= inject_Z k).
  { change 1 with (inject_Z 1). rewrite <- Zle_Qle. exact Hk. }
  assert (Hnq : 1 <= inject_Z n).
  { change 1 with (inject_Z 1). rewrite <- Zle_Qle. exact Hn. }
  assert (Hx : inject_Z n / inject_Z k * inject_Z k == inject_Z n).
  { field. lra. }
  set (x := inject_Z n / inject_Z k) in *.
  assert (A : inject_Z ((M - 1) * k) < inject_Z n).
  { rewrite inject_Z_mult. nra. }
  assert (B : inject_Z n <= inject_Z (M * k)).
  { rewrite inject_Z_mult. nra. }
  rewrite <- Zlt_Qlt in A. rewrite <- Zle_Qle in B.
  repeat split; try assumption. nia.
Qed.




(* ================================================================== *)
(** ** Scenarios of the specification *)

(** A single point bucket of -1 at a risk of 1%: every trade multiplies the
    equity by 0.99, the final equity is the start equity times 0.99^10 and
    the maximum drawdown is 0.99^10 - 1. *)
Example scenario_every_trade_loses :
  exists res,
    runSimulation (scenario_config (- 1)) quiet = Ok res
    /\ Forall2 num_eq (Result.finalEquity res) [Num (1000 * (99 # 100) ^ 10)]
    /\ Forall2 num_eq (Result.maxDrawdowns res) [Num ((99 # 100) ^ 10 - 1)]
    /\ maxConsecutiveLosses (nth 0 (Result.rPaths res) []) = Num 10.
Proof.
  eexists. split; [vm_compute; reflexivity|].
  repeat split; repeat constructor.
Qed.

(** A single point bucket of 0: the equity stays at the start equity, the
    maximum drawdown is 0 and there is no loss. *)
Example scenario_flat :
  exists res,
    runSimulation (scenario_config 0) quiet = Ok res
    /\ Forall2 (Forall2 num_eq) (Result.equityPaths res)
         [repeat (Num 1000) 10]
    /\ Forall2 num_eq (Result.maxDrawdowns res) [zero]
    /\ maxConsecutiveLosses (nth 0 (Result.rPaths res) []) = Num 0.
Proof.
  eexists. split; [vm_compute; reflexivity|].
  repeat split; repeat constructor.
Qed.

(** The first value of the generator seeded with 25. *)
Example mulberry32_first_draw :
  fst (draw (createRng (Some (Num 25)) quiet)) = Num (2568121930 # 4294967296).
Proof.
  reflexivity.
Qed.

(* ================================================================== *)
(** ** The seeded generator *)

Lemma mulberry32_next_range (a : Z) :
  (0 <= snd (mulberry32_next a) < 2 ^ 32)%Z.
Proof.
  unfold mulberry32_next. cbn [snd]. unfold ushr at 1.
  rewrite Z.shiftr_0_r. unfold ToUint32. apply Z.mod_pos_bound. reflexivity.
Qed.

Lemma draw_seeded (g : Rng) :
  seeded g ->
  exists q, fst (draw g) = Num q /\ 0 <= q /\ q < 1 /\ seeded (snd (draw g)).
Proof.
  intros [a Ha]. unfold draw. rewrite Ha.
  pose proof (mulberry32_next_range a) as Hr.
  destruct (mulberry32_next a) as [a' out]. cbn [fst snd] in *.
  exists (out # 4294967296). split; [reflexivity|].
  split; [|split].
  - unfold Qle. cbn [Qnum Qden]. lia.
  - unfold Qlt. cbn [Qnum Qden]. change (2 ^ 32)%Z with 4294967296%Z in Hr. lia.
  - exists a'. reflexivity.
Qed.

(** X1.  Every value drawn from a seeded generator is a finite number in
    [0, 1): at least 0 and strictly below 1, a whole number of 2^-32; and
    the generator is still the seeded one afterwards. *)
Theorem seeded_draw_in_unit_interval :
  forall g : Rng,
    seeded g ->
    exists n : Z,
      fst (draw g) = Num (n # 4294967296)
      /\ (0 <= n < 2 ^ 32)%Z
      /\ 0 <= n # 4294967296 /\ n # 4294967296 < 1
      /\ seeded (snd (draw g))
      /\ calls (snd (draw g)) = S (calls g).
Proof.
  intros g [a Ha].
  pose proof (draw_calls g) as Hc. revert Hc.
  unfold draw. rewrite Ha.
  pose proof (mulberry32_next_range a) as Hr.
  destruct (mulberry32_next a) as [a' out]. cbn [fst snd] in *. intro Hc.
  exists out. split; [reflexivity|]. split; [exact Hr|].
  change (2 ^ 32)%Z with 4294967296%Z in Hr.
  split; [unfold Qle; cbn [Qnum Qden]; lia|].
  split; [unfold Qlt; cbn [Qnum Qden]; lia|].
  split; [exists a'; reflexivity|exact Hc].
Qed.

Lemma seeded_draw_in_unit_interval_witness :
  exists n : Z,
    fst (draw (createRng (Some (Num 25)) quiet)) = Num (n # 4294967296)
    /\ (0 <= n < 2 ^ 32)%Z.
Proof.
  destruct (seeded_draw_in_unit_interval (createRng (Some (Num 25)) quiet))
    as (n & H1 & H2 & _).
  - exists (seed_state (Math_trunc (Num 25))). reflexivity.
  - exists n. split; assumption.
Defined.

Lemma simulate_paths_with_seed cfg s safeTrades cumProbs :
  forall n g,
    simulate_paths (with_seed cfg s) safeTrades cumProbs n g
    = simulate_paths cfg safeTrades cumProbs n g.
Proof.
  induction n as [|n IH]; intro g; [reflexivity|].
  cbn [simulate_paths].
  change (simulate_path (with_seed cfg s) safeTrades cumProbs g)
    with (simulate_path cfg safeTrades cumProbs g).
  destruct (simulate_path cfg safeTrades cumProbs g) as [[path g']|e];
    [|reflexivity].
  cbn [bind]. rewrite IH. reflexivity.
Qed.

Lemma run_with_seed cfg s g : run_with (with_seed cfg s) g = run_with cfg g.
Proof.
  unfold run_with.
  change (safePaths_of (with_seed cfg s)) with (safePaths_of cfg).
  change (safeTrades_of (with_seed cfg s)) with (safeTrades_of cfg).
  change (Config.buckets (with_seed cfg s)) with (Config.buckets cfg).
  destruct (new_Array (safePaths_of cfg)); [|reflexivity]. cbn [bind].
  rewrite simulate_paths_with_seed.
  destruct (simulate_paths _ _ _ _ _); reflexivity.
Qed.

(** X2.  A run depends on a finite seed only through its truncation modulo
    2^32: two seeds with the same truncation modulo 2^32 (a fractional
    seed and its whole part, a seed and the same plus 2^32, -1 and
    4294967295) give the same run on the same configuration. *)
Theorem seed_aliases :
  forall (cfg : Config.t) (q1 q2 : Q) (w1 w2 : MathRandom),
    (Qtrunc q1 mod 2 ^ 32 = Qtrunc q2 mod 2 ^ 32)%Z ->
    runSimulation (with_seed cfg (Some (Num q1))) w1
    = runSimulation (with_seed cfg (Some (Num q2))) w2.
Proof.
  intros cfg q1 q2 w1 w2 H. unfold runSimulation.
  rewrite !run_with_seed. f_equal.
  cbn [Config.seed with_seed createRng isFinite Math_trunc].
  unfold mulberry32, seed_state, of_Z. rewrite !Qtrunc_inject_Z.
  unfold ToUint32. rewrite H. reflexivity.
Qed.

Lemma seed_aliases_witness :
  runSimulation (with_seed sample_config (Some (Num (- 1 # 2)))) quiet
  = runSimulation (with_seed sample_config (Some (Num 4294967296))) quiet
  /\ runSimulation (with_seed sample_config (Some (Num (- 1)))) quiet
     = runSimulation (with_seed sample_config (Some (Num 4294967295))) quiet.
Proof.
  split; apply seed_aliases; reflexivity.
Defined.

(* ================================================================== *)
(** ** The range of the outcomes *)

Lemma pick_bucket_In buckets cumProbs u b :
  pick_bucket buckets cumProbs u = Some b -> In b buckets.
Proof.
  unfold pick_bucket.
  destruct (findIndex _ cumProbs) as [i|].
  - apply nth_error_In.
  - destruct buckets; [discriminate|apply nth_error_In].
Qed.

Lemma sample_of_in_range (b : Bucket.t) (g : Rng) :
  finite_bucket b -> seeded g ->
  in_range b (fst (sample_of b g)) /\ seeded (snd (sample_of b g)).
Proof.
  intros (Hlo & Hhi & _) Hg. unfold sample_of, in_range.
  destruct (Bucket.type b).
  - destruct (draw_seeded g Hg) as (q & Hq & H0 & H1 & Hs).
    destruct (draw g) as [x g']. cbn [fst snd] in *. subst x.
    destruct (nullish (Bucket.lo b) zero) as [ | | |l]; try discriminate.
    destruct (nullish (Bucket.hi b) zero) as [ | | |h]; try discriminate.
    split; [|exact Hs].
    exists (l + (h + - l) * q). split; [reflexivity|].
    unfold between, qval.
    destruct (Qlt_le_dec h l) as [Hlt|Hle]; [right|left]; split; nra.
  - cbn [fst snd]. split; [reflexivity|exact Hg].
Qed.

Section Outcomes.
Variable buckets : list Bucket.t.
Variable cumProbs : list number.
Variable progressive : option Progressive.t.
Hypothesis finite_buckets : Forall finite_bucket buckets.

Lemma trade_in_range st sample st' :
  seeded (rng st) ->
  trade buckets cumProbs progressive st = Ok (sample, st') ->
  from_a_bucket buckets sample /\ seeded (rng st').
Proof.
  intros Hg. unfold trade, sample_trade, bind.
  destruct (draw_seeded (rng st) Hg) as (q & _ & _ & _ & Hs).
  destruct (draw (rng st)) as [u g1]. cbn [snd] in Hs.
  destruct (pick_bucket buckets cumProbs u) as [b|] eqn:Eb; [|discriminate].
  pose proof (pick_bucket_In _ _ _ _ Eb) as Hin.
  rewrite Forall_forall in finite_buckets.
  destruct (sample_of_in_range b g1 (finite_buckets b Hin) Hs) as [Hr Hs'].
  destruct (sample_of b g1) as [x g2]. cbn [fst snd] in *.
  destruct (dd_step (peak st, minDd st) _) as [pk md].
  intro H. injection H as <- <-. cbn [rng].
  split; [exists b; auto|exact Hs'].
Qed.

Lemma trades_in_range :
  forall n st equityPath rPath st',
    seeded (rng st) ->
    trades buckets cumProbs progressive n st = Ok (equityPath, rPath, st') ->
    Forall (from_a_bucket buckets) rPath /\ seeded (rng st').
Proof.
  induction n as [|n IH]; intros st equityPath rPath st' Hg H.
  - simpl in H. injection H as <- <- <-. split; [constructor|exact Hg].
  - simpl in H. unfold bind in H.
    destruct (trade buckets cumProbs progressive st) as [[sample st1]|e] eqn:Et;
      [|discriminate].
    destruct (trades buckets cumProbs progressive n st1)
      as [[[eqs rs] st2]|e] eqn:En; [|discriminate].
    injection H as <- <- <-.
    destruct (trade_in_range _ _ _ Hg Et) as [Hs Hg1].
    destruct (IH _ _ _ _ Hg1 En) as [Hall Hg2].
    split; [constructor; assumption|exact Hg2].
Qed.

End Outcomes.

Lemma simulate_path_in_range cfg safeTrades cumProbs g path g' :
  Forall finite_bucket (Config.buckets cfg) ->
  seeded g ->
  simulate_path cfg safeTrades cumProbs g = Ok (path, g') ->
  Forall (from_a_bucket (Config.buckets cfg)) (path_r path) /\ seeded g'.
Proof.
  intros Hfin Hg. unfold simulate_path, bind.
  destruct (new_Float64Array safeTrades); [|discriminate].
  destruct (trades _ _ _ _ _) as [[[eqs rs] st]|e] eqn:Et; [|discriminate].
  intro H. injection H as <- <-. cbn [path_r].
  eapply trades_in_range; [exact Hfin| |exact Et]. exact Hg.
Qed.

Lemma simulate_paths_in_range cfg safeTrades cumProbs :
  Forall finite_bucket (Config.buckets cfg) ->
  forall n g paths,
    seeded g ->
    simulate_paths cfg safeTrades cumProbs n g = Ok paths ->
    Forall (fun path => Forall (from_a_bucket (Config.buckets cfg)) (path_r path))
      paths.
Proof.
  intros Hfin. induction n as [|n IH]; intros g paths Hg H.
  - simpl in H. injection H as <-. constructor.
  - simpl in H. unfold bind in H.
    destruct (simulate_path cfg safeTrades cumProbs g) as [[path g1]|e] eqn:Ep;
      [|discriminate].
    destruct (simulate_paths cfg safeTrades cumProbs n g1) as [rest|e] eqn:Er;
      [|discriminate].
    injection H as <-.
    destruct (simulate_path_in_range _ _ _ _ _ _ Hfin Hg Ep) as [Hp Hg1].
    constructor; [exact Hp|]. eapply IH; eauto.
Qed.

Lemma createRng_is_seeded (s : number) (w : MathRandom) :
  isFinite s = true -> seeded (createRng (Some s) w).
Proof.
  intro H. unfold createRng. rewrite H. eexists. reflexivity.
Qed.



(* ================================================================== *)
(** ** The order of numbers *)

Lemma lt_irrefl (x : number) : (x <? x)%js = false.
Proof.
  destruct x as [ | | |a]; try reflexivity.
  unfold lt. apply Qlt_bool_false_iff. lra.
Qed.

Lemma lt_asym (x y : number) : (x <? y)%js = true -> (y <? x)%js = false.
Proof.
  destruct x as [ | | |a], y as [ | | |b]; cbn [lt];
    try reflexivity; try discriminate.
  rewrite Qlt_bool_iff, Qlt_bool_false_iff. lra.
Qed.

Lemma lt_not_NaN (x y : number) :
  (x <? y)%js = true -> isNaN x = false /\ isNaN y = false.
Proof.
  destruct x, y; cbn [lt]; try discriminate; split; reflexivity.
Qed.

(** [x >= y >= z] gives [x >= z], when the middle one is a number. *)
Lemma ge_trans (x y z : number) :
  isNaN y = false ->
  (x <? y)%js = false -> (y <? z)%js = false -> (x <? z)%js = false.
Proof.
  destruct x as [ | | |a], y as [ | | |b], z as [ | | |c]; cbn [lt isNaN];
    try reflexivity; try discriminate.
  rewrite !Qlt_bool_false_iff. intros _ H1 H2. lra.
Qed.

Lemma lt_le_trans (x y z : number) :
  (x <? y)%js = true -> (y <=? z)%js = true -> (x <=? z)%js = true.
Proof.
  destruct x as [ | | |a], y as [ | | |b], z as [ | | |c]; cbn [lt le];
    try reflexivity; try discriminate.
  rewrite Qlt_bool_iff, !Qle_bool_iff. lra.
Qed.

Lemma not_lt_le (x y : number) :
  isNaN x = false -> isNaN y = false ->
  (x <? y)%js = false -> (y <=? x)%js = true.
Proof.
  destruct x as [ | | |a], y as [ | | |b]; cbn [lt le isNaN];
    try reflexivity; try discriminate.
  rewrite Qlt_bool_false_iff, Qle_bool_iff. auto.
Qed.

(* ================================================================== *)
(** ** Drawdowns on any input *)

Lemma dd_step_nonpos (acc : number * number) (v : number) :
  (snd acc <=? zero)%js = true -> (snd (dd_step acc v) <=? zero)%js = true.
Proof.
  destruct acc as [pk md]. unfold dd_step. cbn [snd].
  destruct (peak_step pk v) as [pk' dd]. cbn [snd].
  destruct (dd <? md)%js eqn:E; [|auto].
  intro H. eapply lt_le_trans; eauto.
Qed.

Lemma fold_dd_step_nonpos (l : list number) :
  forall acc, (snd acc <=? zero)%js = true ->
    (snd (fold_left dd_step l acc) <=? zero)%js = true.
Proof.
  induction l as [|v l IH]; intros acc H; [exact H|].
  cbn [fold_left]. apply IH. apply dd_step_nonpos. exact H.
Qed.

Lemma months_loop_unfold equityPath rPath nTrades safe c m prev y mo :
  let startIdx := (of_nat m * safe)%js in
  let endIdx := (Math_min ((of_nat m + one) * safe) nTrades - one)%js in
  months_loop equityPath rPath nTrades safe (S c) m prev y mo
  = if (endIdx <? startIdx)%js then []
    else block_row equityPath rPath startIdx endIdx prev y mo
         :: months_loop equityPath rPath nTrades safe c (S m)
              (to_number (get equityPath endIdx))
              (fst (next_label y mo)) (snd (next_label y mo)).
Proof.
  intros startIdx endIdx. cbn [months_loop]. fold startIdx. fold endIdx.
  destruct (endIdx <? startIdx)%js; [reflexivity|].
  unfold block_row, next_label.
  destruct (fold_left tally_step _ _) as [[[wins losses] streak] run].
  destruct (strict_eq (mo + one)%js (Num 13)); reflexivity.
Qed.

(** What holds of every block row holds of every row of the month loop. *)
Lemma months_loop_rows (P : MonthlyStatsRow.t -> Prop) equityPath rPath nTrades safe :
  (forall startIdx endIdx prev y mo,
     P (block_row equityPath rPath startIdx endIdx prev y mo)) ->
  forall c m prev y mo,
    Forall P (months_loop equityPath rPath nTrades safe c m prev y mo).
Proof.
  intro HP. induction c as [|c IH]; intros m prev y mo; [constructor|].
  rewrite months_loop_unfold.
  destruct (_ <? _)%js; [constructor|].
  constructor; [apply HP|apply IH].
Qed.

Lemma trades_drawdown buckets cumProbs progressive :
  forall n st equityPath rPath st',
    trades buckets cumProbs progressive n st = Ok (equityPath, rPath, st') ->
    (peak st', minDd st') = fold_left dd_step equityPath (peak st, minDd st).
Proof.
  induction n as [|n IH]; intros st equityPath rPath st' H.
  - simpl in H. injection H as <- <- <-. reflexivity.
  - simpl in H. unfold bind in H.
    destruct (trade buckets cumProbs progressive st) as [[sample st1]|e] eqn:Et;
      [|discriminate].
    destruct (trades buckets cumProbs progressive n st1)
      as [[[eqs rs] st2]|e] eqn:En; [|discriminate].
    injection H as <- <- <-.
    rewrite (IH _ _ _ _ En). cbn [fold_left]. f_equal.
    revert Et. unfold trade, bind.
    destruct (sample_trade buckets cumProbs (rng st)) as [[s g]|e]; [|discriminate].
    destruct (dd_step (peak st, minDd st) _) as [pk md] eqn:Ed.
    intro H. injection H as <- <-. cbn [equity peak minDd]. symmetry. exact Ed.
Qed.

Lemma simulate_path_drawdown cfg safeTrades cumProbs g path g' :
  simulate_path cfg safeTrades cumProbs g = Ok (path, g') ->
  path_maxDd path
  = snd (fold_left dd_step (path_equity path) (Config.startEquity cfg, zero)).
Proof.
  unfold simulate_path, bind.
  destruct (new_Float64Array safeTrades); [|discriminate].
  destruct (trades _ _ _ _ _) as [[[eqs rs] st]|e] eqn:Et; [|discriminate].
  intro H. injection H as <- <-. cbn [path_maxDd path_equity].
  pose proof (trades_drawdown _ _ _ _ _ _ _ _ Et) as Hd.
  cbn [initial_state peak minDd] in Hd. rewrite <- Hd. reflexivity.
Qed.

Lemma simulate_paths_Forall (P : PathResult -> Prop) cfg safeTrades cumProbs :
  (forall g path g',
     simulate_path cfg safeTrades cumProbs g = Ok (path, g') -> P path) ->
  forall n g paths,
    simulate_paths cfg safeTrades cumProbs n g = Ok paths -> Forall P paths.
Proof.
  intro HP. induction n as [|n IH]; intros g paths H.
  - simpl in H. injection H as <-. constructor.
  - simpl in H. unfold bind in H.
    destruct (simulate_path cfg safeTrades cumProbs g) as [[path g1]|e] eqn:Ep;
      [|discriminate].
    destruct (simulate_paths cfg safeTrades cumProbs n g1) as [rest|e] eqn:Er;
      [|discriminate].
    injection H as <-. constructor; [eapply HP; eauto|eapply IH; eauto].
Qed.

Lemma aggregate_maxDrawdowns cfg paths :
  Result.maxDrawdowns (aggregate cfg paths) = map path_maxDd paths.
Proof.
  unfold aggregate. destruct (select _ _) as [[b w] m]. reflexivity.
Qed.

Lemma aggregate_finalEquity cfg paths :
  Result.finalEquity (aggregate cfg paths) = map path_final paths.
Proof.
  unfold aggregate. destruct (select _ _) as [[b w] m]. reflexivity.
Qed.

(** X4.  A drawdown is never positive and never NaN, whatever the input:
    [maxDrawdown(series)] is at most 0 for every series (negative, zero,
    infinite or NaN entries included), and so are the maximum drawdown that
    [runSimulation] records for each path and the maximum drawdown of every
    row of [monthlyStatsFromPath]. *)
Theorem drawdown_never_positive :
  (forall series : list number, (maxDrawdown series <=? zero)%js = true)
  /\ (forall equityPath rPath startEquity tradesPerMonth startYear startMonth,
        Forall (fun row => (MonthlyStatsRow.maxDrawdown row <=? zero)%js = true)
          (monthlyStatsFromPath equityPath rPath startEquity tradesPerMonth
             startYear startMonth))
  /\ (forall cfg w res,
        runSimulation cfg w = Ok res ->
        Forall (fun dd => (dd <=? zero)%js = true) (Result.maxDrawdowns res)).
Proof.
  assert (H0 : (zero <=? zero)%js = true) by reflexivity.
  split; [|split].
  - intros [|s0 rest]; [reflexivity|].
    unfold maxDrawdown. apply fold_dd_step_nonpos. exact H0.
  - intros. unfold monthlyStatsFromPath. apply months_loop_rows.
    intros. unfold block_row.
    destruct (fold_left tally_step _ _) as [[[wins losses] streak] run].
    cbn [MonthlyStatsRow.maxDrawdown]. apply fold_dd_step_nonpos. exact H0.
  - intros cfg w res Hrun. unfold runSimulation in Hrun.
    destruct (run_with_paths _ _ _ Hrun) as (paths & Hp & ->).
    rewrite aggregate_maxDrawdowns.
    apply Forall_forall. intros dd Hin. apply in_map_iff in Hin.
    destruct Hin as (path & <- & Hpath).
    pose proof (simulate_paths_Forall
                  (fun path => (path_maxDd path <=? zero)%js = true)
                  cfg (safeTrades_of cfg) (cumProbs_of (Config.buckets cfg)))
      as Hall.
    assert (HP : forall g p g',
               simulate_path cfg (safeTrades_of cfg)
                 (cumProbs_of (Config.buckets cfg)) g = Ok (p, g') ->
               (path_maxDd p <=? zero)%js = true).
    { intros g p g' Hs. rewrite (simulate_path_drawdown _ _ _ _ _ _ Hs).
      apply fold_dd_step_nonpos. exact H0. }
    specialize (Hall HP _ _ _ Hp). rewrite Forall_forall in Hall.
    apply Hall. exact Hpath.
Qed.

Lemma drawdown_never_positive_witness :
  (maxDrawdown [Num (- 1); NaN; Num 0; PosInfinity; Num (- 2)] <=? zero)%js = true
  /\ exists res,
       runSimulation ruin_config quiet = Ok res
       /\ Forall (fun dd => (dd <=? zero)%js = true) (Result.maxDrawdowns res).
Proof.
  destruct drawdown_never_positive as (H1 & _ & H3).
  split; [apply H1|].
  destruct (runSimulation ruin_config quiet) as [res|e] eqn:Hrun;
    [|vm_compute in Hrun; discriminate].
  exists res. split; [reflexivity|]. apply (H3 ruin_config quiet res Hrun).
Defined.

(* ================================================================== *)
(** ** What the run records of a path *)

Lemma dd_step_on_peak (x : number) : dd_step (x, zero) x = (x, zero).
Proof.
  unfold dd_step, peak_step, gt. rewrite lt_irrefl.
  destruct x as [ | | |a]; try reflexivity.
  unfold div, sub, add, neg, one, zero, lt.
  destruct (Qeq_bool a 0) eqn:E; [reflexivity|].
  apply Qeq_bool_false_iff in E.
  assert (F : Qlt_bool (a / a + - (1)) 0 = false).
  { apply Qlt_bool_false_iff. assert (a / a == 1) by (field; exact E). lra. }
  rewrite F. reflexivity.
Qed.

Lemma qpeak_monotone (p1 p2 v : Q) : p2 <= p1 -> qpeak p2 v <= qpeak p1 v.
Proof.
  intro H. unfold qpeak. qcases; lra.
Qed.

Lemma qmin_monotone (a1 a2 d1 d2 : Q) :
  a1 <= a2 -> d1 <= d2 -> qmin a1 d1 <= qmin a2 d2.
Proof.
  intros Ha Hd. unfold qmin. qcases; lra.
Qed.

(** From a higher peak and a lower minimum the drawdown of positive values
    ends lower. *)
Lemma fold_qmin_peaks (l : list Q) :
  Forall (fun v => 0 < v) l ->
  forall p1 p2 m1 m2,
    0 < p2 -> p2 <= p1 -> m1 <= m2 ->
    fold_left qmin (qdrawdowns p1 l) m1 <= fold_left qmin (qdrawdowns p2 l) m2.
Proof.
  induction 1 as [|v l Hv _ IH]; intros p1 p2 m1 m2 Hp2 Hp Hm; [exact Hm|].
  cbn [qdrawdowns fold_left].
  pose proof (qpeak_pos p2 v Hp2) as Hq2.
  pose proof (qpeak_monotone p1 p2 v Hp) as Hq.
  apply IH; [exact Hq2|exact Hq|].
  apply qmin_monotone; [exact Hm|].
  assert (Hdiv : v / qpeak p1 v <= v / qpeak p2 v).
  { apply Qle_shift_div_l; [lra|].
    assert (E : v / qpeak p1 v * qpeak p1 v == v) by (field; lra).
    assert (Ha : 0 <= v / qpeak p1 v) by (apply Qle_shift_div_l; lra).
    set (a := v / qpeak p1 v) in *. nra. }
  lra.
Qed.

(** X5.  The maximum drawdown that [runSimulation] records for a path is
    [maxDrawdown] of the path with the start equity put in front: the
    running peak of the run starts at the start equity, not at the first
    equity of the path.  So, the start equity and the path being positive,
    it is at most [maxDrawdown(equityPath)], the figure computed from the
    path alone. *)
Theorem recorded_drawdown :
  forall (cfg : Config.t) (w : MathRandom) (res : Result.t) (i : nat)
         (equityPath : list number) (dd : number),
    runSimulation cfg w = Ok res ->
    nth_error (Result.equityPaths res) i = Some equityPath ->
    nth_error (Result.maxDrawdowns res) i = Some dd ->
    dd = maxDrawdown (Config.startEquity cfg :: equityPath)
    /\ (forall (s : Q) (qs : list Q),
          Config.startEquity cfg = Num s -> equityPath = map Num qs ->
          0 < s -> Forall (fun v => 0 < v) qs ->
          (dd <=? maxDrawdown equityPath)%js = true).
Proof.
  intros cfg w res i equityPath dd Hrun He Hd.
  unfold runSimulation in Hrun.
  destruct (run_with_paths _ _ _ Hrun) as (paths & Hp & ->).
  rewrite aggregate_equityPaths in He. rewrite aggregate_maxDrawdowns in Hd.
  rewrite nth_error_map in He, Hd.
  destruct (nth_error paths i) as [path|] eqn:Ei; [|discriminate].
  cbn in He, Hd. injection He as <-. injection Hd as <-.
  assert (Hpath : path_maxDd path
                  = snd (fold_left dd_step (path_equity path)
                           (Config.startEquity cfg, zero))).
  { pose proof (simulate_paths_Forall
                  (fun p => path_maxDd p
                            = snd (fold_left dd_step (path_equity p)
                                     (Config.startEquity cfg, zero)))
                  cfg (safeTrades_of cfg) (cumProbs_of (Config.buckets cfg)))
      as Hall.
    specialize (Hall (fun g p g' Hs => simulate_path_drawdown _ _ _ _ _ _ Hs)
                  _ _ _ Hp).
    rewrite Forall_forall in Hall. apply Hall. eapply nth_error_In; eauto. }
  assert (Hfront : path_maxDd path
                   = maxDrawdown (Config.startEquity cfg :: path_equity path)).
  { rewrite Hpath. unfold maxDrawdown. cbn [fold_left].
    rewrite dd_step_on_peak. reflexivity. }
  split; [exact Hfront|].
  intros s qs Hs Hq Hs0 Hpos. rewrite Hfront, Hs, Hq.
  change (Num s :: map Num qs) with (map Num (s :: qs)).
  rewrite (maxDrawdown_Num s qs Hs0).
  destruct qs as [|x l].
  { change (maxDrawdown (map Num [])) with (Num 0).
    unfold le. apply Qle_bool_iff. apply fold_qmin_le. }
  assert (Hx : 0 < x) by (inversion Hpos; assumption).
  rewrite (maxDrawdown_Num x l Hx).
  unfold le. apply Qle_bool_iff.
  cbn [qdrawdowns fold_left].
  apply fold_qmin_peaks.
  - inversion Hpos; assumption.
  - apply qpeak_pos. exact Hx.
  - assert (E : qpeak x x == x) by (unfold qpeak; qcases; lra).
    destruct (qpeak_ge (qpeak s s) x) as [_ Hge]. lra.
  - apply qmin_monotone.
    + apply fold_qmin_le with (ds := [s / qpeak s s - 1]).
    + pose proof (qpeak_pos (qpeak s s) x (qpeak_pos s s Hs0)) as H1.
      pose proof (qpeak_pos x x Hx) as H2.
      assert (E : qpeak x x == x) by (unfold qpeak; qcases; lra).
      destruct (qpeak_ge (qpeak s s) x) as [_ Hge].
      assert (Hd1 : x / qpeak (qpeak s s) x <= 1)
        by (apply Qle_shift_div_r; lra).
      assert (Hd2 : x / qpeak x x == 1) by (rewrite E; field; lra).
      lra.
Qed.

Lemma recorded_drawdown_witness :
  exists res equityPath dd,
    runSimulation sample_config quiet = Ok res
    /\ nth_error (Result.equityPaths res) 1 = Some equityPath
    /\ nth_error (Result.maxDrawdowns res) 1 = Some dd
    /\ dd = maxDrawdown (Num 1000 :: equityPath).
Proof.
  destruct (runSimulation sample_config quiet) as [res|e] eqn:Hrun;
    [|vm_compute in Hrun; discriminate].
  destruct (nth_error (Result.equityPaths res) 1) as [eq|] eqn:He;
    [|vm_compute in Hrun; injection Hrun as <-; vm_compute in He; discriminate].
  destruct (nth_error (Result.maxDrawdowns res) 1) as [dd|] eqn:Hd;
    [|vm_compute in Hrun; injection Hrun as <-; vm_compute in Hd; discriminate].
  exists res, eq, dd. repeat split; auto.
  apply (recorded_drawdown sample_config quiet res 1 eq dd Hrun He Hd).
Defined.

(** The folds of [equityMin] and [equityMax]. *)
Lemma fold_lowest (l : list number) :
  forall m0,
    isNaN m0 = false ->
    let r := fold_left (fun m value => if (value <? m)%js then value else m)
               l m0 in
    isNaN r = false
    /\ (r = m0 \/ In r l)
    /\ (m0 <? r)%js = false
    /\ forall v, In v l -> (v <? r)%js = false.
Proof.
  induction l as [|x l IH]; intros m0 Hm0; cbn [fold_left].
  - repeat split; auto. + apply lt_irrefl. + intros v [].
  - set (m1 := if (x <? m0)%js then x else m0).
    assert (Hm1 : isNaN m1 = false).
    { unfold m1. destruct (x <? m0)%js eqn:E; [|exact Hm0].
      apply (lt_not_NaN _ _ E). }
    assert (H01 : (m0 <? m1)%js = false).
    { unfold m1. destruct (x <? m0)%js eqn:E; [apply lt_asym; exact E|].
      apply lt_irrefl. }
    assert (Hx1 : (x <? m1)%js = false).
    { unfold m1. destruct (x <? m0)%js eqn:E; [apply lt_irrefl|exact E]. }
    destruct (IH m1 Hm1) as (Hr & Hin & H1r & Hall).
    repeat split.
    + exact Hr.
    + destruct Hin as [->|Hin]; [|right; right; exact Hin].
      unfold m1. destruct (x <? m0)%js; [right; left; reflexivity|left; reflexivity].
    + apply (ge_trans _ m1); assumption.
    + intros v [<-|Hv]; [|apply Hall; exact Hv].
      apply (ge_trans _ m1); assumption.
Qed.

Lemma fold_highest (l : list number) :
  forall m0,
    isNaN m0 = false ->
    let r := fold_left (fun m value => if (value >? m)%js then value else m)
               l m0 in
    isNaN r = false
    /\ (r = m0 \/ In r l)
    /\ (r <? m0)%js = false
    /\ forall v, In v l -> (r <? v)%js = false.
Proof.
  induction l as [|x l IH]; intros m0 Hm0; cbn [fold_left].
  - repeat split; auto. + apply lt_irrefl. + intros v [].
  - set (m1 := if (x >? m0)%js then x else m0).
    assert (Hm1 : isNaN m1 = false).
    { unfold m1, gt. destruct (m0 <? x)%js eqn:E; [|exact Hm0].
      apply (lt_not_NaN _ _ E). }
    assert (H01 : (m1 <? m0)%js = false).
    { unfold m1, gt. destruct (m0 <? x)%js eqn:E; [apply lt_asym; exact E|].
      apply lt_irrefl. }
    assert (Hx1 : (m1 <? x)%js = false).
    { unfold m1, gt. destruct (m0 <? x)%js eqn:E; [apply lt_irrefl|exact E]. }
    destruct (IH m1 Hm1) as (Hr & Hin & H1r & Hall).
    repeat split.
    + exact Hr.
    + destruct Hin as [->|Hin]; [|right; right; exact Hin].
      unfold m1, gt.
      destruct (m0 <? x)%js; [right; left; reflexivity|left; reflexivity].
    + apply (ge_trans _ m1); assumption.
    + intros v [<-|Hv]; [|apply Hall; exact Hv].
      apply (ge_trans _ m1); assumption.
Qed.

Lemma aggregate_equityMin cfg paths :
  Result.equityMin (aggregate cfg paths)
  = fold_left (fun m value => if (value <? m)%js then value else m)
      (concat (map path_equity paths)) PosInfinity.
Proof.
  unfold aggregate. destruct (select _ _) as [[b w] m]. reflexivity.
Qed.

Lemma aggregate_equityMax cfg paths :
  Result.equityMax (aggregate cfg paths)
  = fold_left (fun m value => if (value >? m)%js then value else m)
      (concat (map path_equity paths)) NegInfinity.
Proof.
  unfold aggregate. destruct (select _ _) as [[b w] m]. reflexivity.
Qed.

(** X6.  [equityMin] and [equityMax] of a result bound every equity of
    every path: an equity that is a number is at least [equityMin] and at
    most [equityMax].  And each of the two is attained: [equityMin] is an
    equity of some path unless it is still +Infinity, [equityMax] unless it
    is still -Infinity (when every equity is NaN or no trade ran). *)
Theorem equity_bounds :
  forall (cfg : Config.t) (w : MathRandom) (res : Result.t),
    runSimulation cfg w = Ok res ->
    (forall equityPath v,
       In equityPath (Result.equityPaths res) -> In v equityPath ->
       isNaN v = false ->
       (Result.equityMin res <=? v)%js = true
       /\ (v <=? Result.equityMax res)%js = true)
    /\ (Result.equityMin res = PosInfinity
        \/ exists equityPath, In equityPath (Result.equityPaths res)
                              /\ In (Result.equityMin res) equityPath)
    /\ (Result.equityMax res = NegInfinity
        \/ exists equityPath, In equityPath (Result.equityPaths res)
                              /\ In (Result.equityMax res) equityPath).
Proof.
  intros cfg w res Hrun. unfold runSimulation in Hrun.
  destruct (run_with_paths _ _ _ Hrun) as (paths & _ & ->).
  rewrite aggregate_equityPaths, aggregate_equityMin, aggregate_equityMax.
  destruct (fold_lowest (concat (map path_equity paths)) PosInfinity eq_refl)
    as (Hlo & Hlo_in & _ & Hlo_all).
  destruct (fold_highest (concat (map path_equity paths)) NegInfinity eq_refl)
    as (Hhi & Hhi_in & _ & Hhi_all).
  split; [|split].
  - intros eq v Heq Hv Hnan.
    assert (Hc : In v (concat (map path_equity paths)))
      by (apply in_concat; exists eq; auto).
    split; apply not_lt_le; auto.
  - destruct Hlo_in as [E|Hin]; [left; exact E|right].
    apply in_concat in Hin. exact Hin.
  - destruct Hhi_in as [E|Hin]; [left; exact E|right].
    apply in_concat in Hin. exact Hin.
Qed.

Lemma equity_bounds_witness :
  exists res,
    runSimulation sample_config quiet = Ok res
    /\ (Result.equityMin res
        <=? nth 0 (nth 1 (Result.equityPaths res) []) NaN)%js = true
    /\ (nth 0 (nth 1 (Result.equityPaths res) []) NaN
        <=? Result.equityMax res)%js = true.
Proof.
  destruct (runSimulation sample_config quiet) as [res|e] eqn:Hrun;
    [|vm_compute in Hrun; discriminate].
  exists res. split; [reflexivity|].
  destruct (equity_bounds sample_config quiet res Hrun) as [H _].
  apply (H (nth 1 (Result.equityPaths res) [])).
  - vm_compute in Hrun. injection Hrun as <-. right. left. reflexivity.
  - vm_compute in Hrun. injection Hrun as <-. left. reflexivity.
  - vm_compute in Hrun. injection Hrun as <-. reflexivity.
Defined.

Lemma safeTrades_cases (cfg : Config.t) :
  safeTrades_of cfg = NaN \/ safeTrades_of cfg = PosInfinity
  \/ exists z, (1 <= z)%Z /\ safeTrades_of cfg = of_Z z.
Proof.
  unfold safeTrades_of.
  destruct (Config.nTrades cfg) as [ | | |q]; cbn [Math_trunc].
  - left. reflexivity.
  - right. left. reflexivity.
  - right. right. exists 1%Z. split; [lia|reflexivity].
  - right. right. exists (Z.max 1 (Qtrunc q)).
    split; [lia|apply Math_max_one_of_Z].
Qed.

Lemma get_at (l : list number) (q : Q) (z : Z) :
  q == inject_Z z -> (0 <= z)%Z -> get l (Num q) = nth_error l (Z.to_nat z).
Proof.
  intros Hq H0.
  assert (Hf : Qfloor q = z) by (rewrite Hq; apply Qfloor_Z).
  unfold get, Qis_int. rewrite Hf.
  assert (E1 : Qeq_bool q (inject_Z z) = true) by (apply Qeq_bool_iff; exact Hq).
  assert (E2 : Qle_bool 0 q = true).
  { apply Qle_bool_iff. rewrite Hq. change 0 with (inject_Z 0).
    rewrite <- Zle_Qle. exact H0. }
  rewrite E1, E2. reflexivity.
Qed.

Lemma nth_error_last (A : Type) (l : list A) (d : A) :
  l <> [] -> nth_error l (length l - 1) = Some (last l d).
Proof.
  induction l as [|x l IH]; intro H; [contradiction|].
  destruct l as [|y l]; [reflexivity|].
  cbn [length] in *.
  replace (S (S (length l)) - 1)%nat with (S (S (length l) - 1)) by lia.
  cbn [nth_error]. rewrite IH by discriminate. reflexivity.
Qed.

Lemma simulate_path_final cfg cumProbs g path g' :
  simulate_path cfg (safeTrades_of cfg) cumProbs g = Ok (path, g') ->
  path_final path = last (path_equity path) (Config.startEquity cfg)
  /\ length (path_equity path) = iterations (safeTrades_of cfg).
Proof.
  unfold simulate_path, bind.
  destruct (safeTrades_cases cfg) as [E|[E|(z & Hz & E)]]; rewrite E.
  - cbn [new_Float64Array iterations trades].
    intro H. injection H as <- <-. split; reflexivity.
  - cbn [new_Float64Array]. discriminate.
  - destruct (new_Float64Array (of_Z z)); [|discriminate].
    destruct (trades _ _ _ _ _) as [[[eqs rs] st]|e] eqn:Et; [|discriminate].
    intro H. injection H as <- <-. cbn [path_final path_equity].
    destruct (trades_recurrence _ _ _ _ _ _ _ _ Et) as (Hlen & _ & _).
    split; [|exact Hlen].
    rewrite iterations_of_Z in Hlen.
    assert (Hq : inject_Z z + - (1) == inject_Z (z - 1)).
    { unfold Zminus. rewrite inject_Z_plus. reflexivity. }
    change (nullish (get eqs (Num (inject_Z z + - (1)))) (equity st)
            = last eqs (Config.startEquity cfg)).
    rewrite (get_at eqs _ (z - 1) Hq) by lia.
    replace (Z.to_nat (z - 1)) with (length eqs - 1)%nat by lia.
    rewrite (nth_error_last _ eqs (Config.startEquity cfg)).
    + reflexivity.
    + destruct eqs; [simpl in Hlen; lia|discriminate].
Qed.



(* ================================================================== *)
(** ** The rows of the monthly table *)

Lemma tally_fold (l : list number) :
  forall wins losses streak run,
    fold_left tally_step l (wins, losses, streak, run)
    = ((wins + count_wins l)%nat, (losses + count_losses l)%nat,
       fst (fold_left loss_run_step l (streak, run)),
       snd (fold_left loss_run_step l (streak, run))).
Proof.
  induction l as [|r l IH]; intros wins losses streak run.
  - cbn. rewrite !Nat.add_0_r. reflexivity.
  - cbn [fold_left]. unfold tally_step at 2, loss_run_step at 2 4.
    unfold count_wins, count_losses. cbn [filter].
    destruct (r >? zero)%js eqn:Eg.
    + assert (El : (r <? zero)%js = false) by (apply lt_asym; exact Eg).
      rewrite El, IH. unfold count_wins, count_losses. cbn [length].
      rewrite Nat.add_succ_r. reflexivity.
    + destruct (r <? zero)%js eqn:El.
      * rewrite IH. unfold count_wins, count_losses. cbn [length].
        rewrite Nat.add_succ_r. reflexivity.
      * rewrite IH. reflexivity.
Qed.

Lemma block_row_rates equityPath rPath startIdx endIdx prev y mo :
  let row := block_row equityPath rPath startIdx endIdx prev y mo in
  let outcomes := block_outcomes rPath startIdx endIdx in
  MonthlyStatsRow.winRate row = win_rate outcomes
  /\ MonthlyStatsRow.maxConsecutiveLosses row = maxConsecutiveLosses outcomes
  /\ MonthlyStatsRow.year row = y /\ MonthlyStatsRow.month row = mo
  /\ MonthlyStatsRow.endEquity row = to_number (get equityPath endIdx)
  /\ MonthlyStatsRow.returnValue row = (MonthlyStatsRow.endEquity row / prev - one)%js.
Proof.
  intros row outcomes. subst row outcomes. unfold block_row, block_outcomes.
  rewrite tally_fold. cbn [MonthlyStatsRow.winRate MonthlyStatsRow.maxConsecutiveLosses MonthlyStatsRow.year
                          MonthlyStatsRow.month MonthlyStatsRow.endEquity MonthlyStatsRow.returnValue Nat.add].
  repeat split; reflexivity.
Qed.

Lemma win_rate_range (outcomes : list number) :
  exists q, win_rate outcomes = Num q /\ 0 <= q /\ q <= 1.
Proof.
  unfold win_rate.
  set (w := count_wins outcomes). set (l := count_losses outcomes).
  destruct (Nat.eqb_spec (w + l) 0) as [E|E].
  - exists 0. repeat split; [lra|lra..].
  - unfold of_nat, of_Z, div.
    assert (Hpos : 0 < inject_Z (Z.of_nat (w + l))).
    { change 0 with (inject_Z 0). rewrite <- Zlt_Qlt. lia. }
    assert (Ez : Qeq_bool (inject_Z (Z.of_nat (w + l))) 0 = false)
      by (apply Qeq_bool_false_iff; lra).
    rewrite Ez. eexists. split; [reflexivity|].
    assert (Hw : 0 <= inject_Z (Z.of_nat w)).
    { change 0 with (inject_Z 0). rewrite <- Zle_Qle. lia. }
    assert (Hle : inject_Z (Z.of_nat w) <= inject_Z (Z.of_nat (w + l))).
    { rewrite <- Zle_Qle. lia. }
    split.
    + apply Qle_shift_div_l; lra.
    + apply Qle_shift_div_r; lra.
Qed.

(** Row [i] of the month loop started at month [m] is the row of block
    [m + i], which the loop did not stop at, taken against the end equity
    of the block before it and labelled [i] months later. *)
Lemma months_loop_nth equityPath rPath nTrades safe :
  forall c m prev y mo i row,
    nth_error (months_loop equityPath rPath nTrades safe c m prev y mo) i
    = Some row ->
    let startIdx j := (of_nat j * safe)%js in
    let endIdx j := (Math_min ((of_nat j + one) * safe) nTrades - one)%js in
    let label := label_after i (y, mo) in
    (endIdx (m + i)%nat <? startIdx (m + i)%nat)%js = false
    /\ row = block_row equityPath rPath (startIdx (m + i)%nat)
               (endIdx (m + i)%nat)
               (match i with
                | O => prev
                | S j => to_number (get equityPath (endIdx (m + j)%nat))
                end)
               (fst label) (snd label).
Proof.
  induction c as [|c IH]; intros m prev y mo i row H.
  - destruct i; discriminate.
  - rewrite months_loop_unfold in H.
    destruct (_ <? _)%js eqn:Elt; [destruct i; discriminate|].
    destruct i as [|i].
    + cbn in H. injection H as <-. cbv zeta. rewrite Nat.add_0_r.
      split; [exact Elt|reflexivity].
    + cbn [nth_error] in H. apply IH in H. cbv zeta in H |- *.
      destruct H as [Hlt ->].
      assert (El : label_after i (fst (next_label y mo), snd (next_label y mo))
                   = label_after (S i) (y, mo)).
      { unfold label_after. rewrite Nat.iter_succ_r. cbn [fst snd].
        destruct (next_label y mo); reflexivity. }
      rewrite El.
      replace (S m + i)%nat with (m + S i)%nat in * by lia.
      split; [exact Hlt|]. f_equal.
      destruct i as [|j]; [rewrite Nat.add_0_r; reflexivity|].
      replace (S m + j)%nat with (m + S j)%nat by lia. reflexivity.
Qed.

Lemma seq_nth_firstn (A : Type) (d : A) :
  forall (l : list A) (a c : nat),
    (a + c <= length l)%nat ->
    map (fun j => nth (a + j) l d) (seq 0 c) = firstn c (skipn a l).
Proof.
  intros l a c H.
  apply nth_ext with (d := d) (d' := d).
  - rewrite length_map, length_seq, length_firstn, length_skipn. lia.
  - intros j Hj. rewrite length_map, length_seq in Hj.
    rewrite (nth_indep _ d (nth (a + 0) l d))
      by (rewrite length_map, length_seq; exact Hj).
    rewrite (map_nth (fun j => nth (a + j) l d)), seq_nth by exact Hj.
    rewrite nth_firstn.
    destruct (Nat.ltb_spec j c); [|lia].
    rewrite nth_skipn. reflexivity.
Qed.

Section MonthlyBlocks.
Variable k : Z.
Hypothesis k_pos : (1 <= k)%Z.
Variable n : nat.

Let K := Z.to_nat k.
Let startIdx (m : nat) := (of_nat m * of_Z k)%js.
Let endIdx (m : nat) :=
  (Math_min ((of_nat m + one) * of_Z k) (of_nat n) - one)%js.

(** The loop pushes a row for block [m] exactly when the block starts
    within the path. *)
Lemma block_pushed (m : nat) :
  (endIdx m <? startIdx m)%js = false <-> (m * K < n)%nat.
Proof.
  unfold endIdx, startIdx.
  destruct (block_bounds k m n) as (s & e & Es & Ee & Hs & He).
  rewrite Es, Ee. unfold lt. rewrite Qlt_bool_false_iff, Hs, He, <- Zle_Qle.
  assert (Ha : Z.of_nat (m * K) = (Z.of_nat m * k)%Z).
  { unfold K. rewrite Nat2Z.inj_mul, Z2Nat.id by lia. reflexivity. }
  split; intro H; nia.
Qed.

Lemma firstn_block (A : Type) (l : list A) (a c : nat) :
  c = Nat.min K (length l - a) -> firstn c (skipn a l) = firstn K (skipn a l).
Proof.
  intro Hc. destruct (Nat.le_gt_cases K (length l - a)) as [H|H].
  - rewrite Hc, Nat.min_l by exact H. reflexivity.
  - rewrite Hc, Nat.min_r by lia.
    rewrite !firstn_all2 by (rewrite length_skipn; lia). reflexivity.
Qed.

(** What the loop reads of a series of [n] finite values for a block it
    pushes: the values of the block, and the last of them at the end
    index. *)
Lemma block_read (l : list Q) (m : nat) :
  length l = n -> (m * K < n)%nat ->
  map (fun i => to_number (get (map Num l) i))
    (block_indices (startIdx m) (endIdx m))
  = map Num (block_of K m l)
  /\ to_number (get (map Num l) (endIdx m)) = Num (last (block_of K m l) 0)
  /\ block_of K m l <> [].
Proof.
  intros Hl Hm. unfold endIdx, startIdx.
  destruct (block_bounds k m n) as (s & e & Es & Ee & Hs & He).
  rewrite Es, Ee.
  set (a := (m * K)%nat) in *.
  assert (Ha : Z.of_nat a = (Z.of_nat m * k)%Z).
  { unfold a, K. rewrite Nat2Z.inj_mul, Z2Nat.id by lia. reflexivity. }
  set (ez := (Z.min ((Z.of_nat m + 1) * k) (Z.of_nat n) - 1)%Z) in *.
  set (c := Nat.min K (n - a)).
  assert (HK : Z.of_nat K = k) by (unfold K; lia).
  assert (Hc : Z.of_nat c = (ez - Z.of_nat a + 1)%Z) by (unfold c, ez; nia).
  assert (Hc1 : (1 <= c)%nat) by (unfold c; lia).
  assert (Hac : (a + c <= n)%nat) by (unfold c; lia).
  assert (Eblock : block_of K m l = firstn c (skipn a l)).
  { unfold block_of. fold a. symmetry. apply firstn_block. rewrite Hl. reflexivity. }
  assert (Elen : length (block_of K m l) = c).
  { rewrite Eblock, length_firstn, length_skipn. lia. }
  split; [|split].
  - unfold block_indices.
    assert (Hf : Qfloor (e - s) = (ez - Z.of_nat a)%Z).
    { rewrite He, Hs, <- Ha. unfold Qminus. rewrite <- inject_Z_opp, <- inject_Z_plus.
      apply Qfloor_Z. }
    rewrite Hf. replace (Z.to_nat (ez - Z.of_nat a + 1)) with c by lia.
    rewrite map_map. rewrite Eblock, <- (seq_nth_firstn Q 0 l a c) by lia.
    rewrite map_map. apply map_ext_in. intros j Hj. apply in_seq in Hj.
    assert (Hq : s + inject_Z (Z.of_nat j) == inject_Z (Z.of_nat (a + j))).
    { rewrite Hs, <- Ha, <- inject_Z_plus, Nat2Z.inj_add. reflexivity. }
    change ((Num s + of_nat j)%js) with (Num (s + inject_Z (Z.of_nat j))).
    rewrite (get_whole l _ _ Hq) by lia. rewrite Nat2Z.id. reflexivity.
  - rewrite (get_whole l e ez He) by lia. cbn [to_number nullish]. f_equal.
    rewrite <- (nth_pred_last (block_of K m l) 0), Elen, Eblock.
    rewrite nth_firstn. destruct (Nat.ltb_spec (c - 1) c); [|lia].
    rewrite nth_skipn. f_equal. lia.
  - intro E. rewrite E in Elen. simpl in Elen. lia.
Qed.

End MonthlyBlocks.

Lemma months_loop_length equityPath rPath (k : Z) (n : nat) :
  (1 <= k)%Z ->
  forall c m prev y mo,
    (c = 0%nat \/ ((m + c - 1) * Z.to_nat k < n)%nat) ->
    length (months_loop equityPath rPath (of_nat n) (of_Z k) c m prev y mo) = c.
Proof.
  intro Hk. induction c as [|c IH]; intros m prev y mo Hc; [reflexivity|].
  destruct Hc as [Hc|Hc]; [discriminate|].
  rewrite months_loop_unfold.
  assert (Hm : (m * Z.to_nat k < n)%nat) by nia.
  apply (block_pushed k Hk n m) in Hm. rewrite Hm.
  cbn [length]. f_equal. apply IH.
  destruct c as [|c]; [left; reflexivity|right].
  replace (S m + S c - 1)%nat with (m + S (S c) - 1)%nat by lia. exact Hc.
Qed.

Lemma block_row_drawdown equityPath rPath startIdx endIdx prev y mo :
  MonthlyStatsRow.maxDrawdown (block_row equityPath rPath startIdx endIdx prev y mo)
  = maxDrawdown
      (prev :: map (fun i => to_number (get equityPath i))
                 (block_indices startIdx endIdx)).
Proof.
  unfold block_row.
  destruct (fold_left tally_step _ _) as [[[wins losses] streak] run].
  cbn [MonthlyStatsRow.maxDrawdown]. unfold maxDrawdown. cbn [fold_left].
  rewrite dd_step_on_peak. reflexivity.
Qed.

Lemma month_count (k : Z) (n : nat) :
  (1 <= k)%Z ->
  let M := Qceiling (inject_Z (Z.of_nat n) / inject_Z k) in
  M = ((Z.of_nat n + k - 1) / k)%Z
  /\ (0 <= M)%Z
  /\ (M = 0%Z \/ ((Z.to_nat M - 1) * Z.to_nat k < n)%nat).
Proof.
  intros Hk M. destruct n as [|n'].
  - assert (E : M = 0%Z).
    { unfold M. change (Z.of_nat 0) with 0%Z.
      assert (Hq : inject_Z 0 / inject_Z k == 0) by (unfold Qdiv; ring).
      rewrite Hq. reflexivity. }
    rewrite E. split; [|split; [lia|left; reflexivity]].
    symmetry. apply Z.div_small. lia.
  - destruct (ceiling_quotient k (Z.of_nat (S n')) Hk ltac:(lia))
      as (HM & Hlo & Hhi).
    fold M in HM, Hlo, Hhi.
    split; [|split; [lia|right; nia]].
    apply (Z.div_unique _ _ _ (Z.of_nat (S n') + k - 1 - k * M)); nia.
Qed.

(** X8.  The monthly table of a path of finite values with a whole number
    [k] of trades per month (coerced to at least 1) has one row for each
    block of [k] trades, the last block holding what is left:
    ceil(n / k) rows for [n] trades, none for an empty path.  Row [i] is
    computed from trades [i * k] to [(i + 1) * k - 1]: it ends on the last
    equity of the block, its return is that equity over the end equity of
    the row before (the start equity for the first row) minus 1, its
    maximum drawdown is [maxDrawdown] of the block with that earlier
    equity in front, its win rate is wins over wins plus losses among the
    block's outcomes, and its maximum consecutive losses is
    [maxConsecutiveLosses] of the block's outcomes. *)
Theorem monthly_blocks :
  forall (qs rs : list Q) (start : number) (k : Z)
         (startYear startMonth : number),
    length rs = length qs ->
    let K := Z.to_nat (Z.max 1 k) in
    let rows :=
      monthlyStatsFromPath (map Num qs) (map Num rs) start (of_Z k)
        startYear startMonth in
    Z.of_nat (length rows)
    = ((Z.of_nat (length qs) + Z.max 1 k - 1) / Z.max 1 k)%Z
    /\ forall i row,
         nth_error rows i = Some row ->
         let prev :=
           match i with
           | O => start
           | S j => Num (last (block_of K j qs) 0)
           end in
         MonthlyStatsRow.endEquity row = Num (last (block_of K i qs) 0)
         /\ MonthlyStatsRow.returnValue row = (MonthlyStatsRow.endEquity row / prev - one)%js
         /\ MonthlyStatsRow.maxDrawdown row
            = maxDrawdown (prev :: map Num (block_of K i qs))
         /\ MonthlyStatsRow.winRate row = win_rate (map Num (block_of K i rs))
         /\ MonthlyStatsRow.maxConsecutiveLosses row
            = maxConsecutiveLosses (map Num (block_of K i rs)).
Proof.
  intros qs rs start k y mo Hlen K rows.
  assert (Hk : (1 <= Z.max 1 k)%Z) by lia.
  destruct (month_count (Z.max 1 k) (length qs) Hk) as (EM & HM0 & HM).
  set (M := Qceiling (inject_Z (Z.of_nat (length qs)) / inject_Z (Z.max 1 k)))
    in *.
  assert (Erows : rows = months_loop (map Num qs) (map Num rs)
                           (of_nat (length qs)) (of_Z (Z.max 1 k))
                           (Z.to_nat M) 0 start y mo).
  { unfold rows, monthlyStatsFromPath.
    rewrite length_map, Math_max_one_of_Z.
    assert (Ec : Math_ceil (of_nat (length qs) / of_Z (Z.max 1 k))%js = of_Z M).
    { unfold of_nat, of_Z, div.
      assert (Ez : Qeq_bool (inject_Z (Z.max 1 k)) 0 = false).
      { apply Qeq_bool_false_iff. intro E.
        assert (Hq : inject_Z 1 <= inject_Z (Z.max 1 k))
          by (rewrite <- Zle_Qle; exact Hk).
        change (inject_Z 1) with 1 in Hq. lra. }
      rewrite Ez. reflexivity. }
    rewrite Ec, iterations_of_Z. reflexivity. }
  split.
  - rewrite Erows, months_loop_length; [lia|exact Hk|].
    destruct HM as [E|HM]; [left; rewrite E; reflexivity|right].
    replace (0 + Z.to_nat M - 1)%nat with (Z.to_nat M - 1)%nat by lia. exact HM.
  - intros i row Hrow. rewrite Erows in Hrow.
    apply months_loop_nth in Hrow. cbv zeta in Hrow.
    destruct Hrow as [Hlt ->]. cbn [Nat.add] in *.
    apply (block_pushed _ Hk (length qs) i) in Hlt. fold K in Hlt.
    destruct (block_read _ Hk (length qs) qs i eq_refl Hlt) as (Heq & Hend & _).
    destruct (block_read _ Hk (length qs) rs i Hlen Hlt) as (Hrs & _ & _).
    fold K in Heq, Hend, Hrs.
    assert (Hprev : match i with
                    | O => start
                    | S j => to_number
                               (get (map Num qs)
                                  (Math_min ((of_nat j + one) * of_Z (Z.max 1 k))
                                     (of_nat (length qs)) - one)%js)
                    end
                    = match i with
                      | O => start
                      | S j => Num (last (block_of K j qs) 0)
                      end).
    { destruct i as [|j]; [reflexivity|].
      assert (Hj : (j * K < length qs)%nat) by nia.
      destruct (block_read _ Hk (length qs) qs j eq_refl Hj) as (_ & Hend' & _).
      exact Hend'. }
    rewrite Hprev.
    match goal with
    | |- context [block_row ?e ?r ?s ?t ?p ?yy ?mm] =>
        destruct (block_row_rates e r s t p yy mm)
          as (Hw & Hl & _ & _ & He & Hr);
        pose proof (block_row_drawdown e r s t p yy mm) as Hd
    end.
    cbv zeta. rewrite Hd, Hw, Hl, Hr, He. unfold block_outcomes.
    rewrite Heq, Hrs, Hend. repeat split; reflexivity.
Qed.

Lemma monthly_blocks_witness :
  exists row,
    nth_error sample_rows 1 = Some row
    /\ MonthlyStatsRow.endEquity row = Num 1210
    /\ MonthlyStatsRow.winRate row = win_rate [Num 2]
    /\ MonthlyStatsRow.maxDrawdown row = maxDrawdown [Num 990; Num 1210].
Proof.
  destruct (monthly_blocks [1100; 990; 1210] [1; - 1; 2] (Num 1000) 2
              (Num 2026) (Num 12) eq_refl) as [_ H].
  destruct (nth_error sample_rows 1) as [row|] eqn:E;
    [|vm_compute in E; discriminate].
  exists row. split; [reflexivity|].
  destruct (H 1%nat row E) as (H1 & _ & H3 & H4 & _).
  repeat split; assumption.
Defined.

(* ================================================================== *)
(** ** The calendar labels *)

Lemma label_after_succ (i : nat) (label : number * number) :
  label_after (S i) label
  = next_label (fst (label_after i label)) (snd (label_after i label)).
Proof. reflexivity. Qed.

Lemma next_label_whole (yq mq : Q) (y mo : Z) :
  yq == inject_Z y -> mq == inject_Z mo ->
  exists yq' mq',
    next_label (Num yq) (Num mq) = (Num yq', Num mq')
    /\ yq' == inject_Z (if (mo =? 12)%Z then y + 1 else y)
    /\ mq' == inject_Z (if (mo =? 12)%Z then 1 else mo + 1).
Proof.
  intros Hy Hm. unfold next_label.
  change ((Num mq + one)%js) with (Num (mq + 1)).
  unfold strict_eq.
  assert (E : Qeq_bool (mq + 1) 13 = (mo =? 12)%Z).
  { apply eq_true_iff_eq. rewrite Qeq_bool_iff, Z.eqb_eq, Hm.
    change 1 with (inject_Z 1). change 13 with (inject_Z 13).
    rewrite <- inject_Z_plus, inject_Z_injective. lia. }
  rewrite E. destruct (mo =? 12)%Z.
  - exists (yq + 1), 1. split; [reflexivity|]. split; [|reflexivity].
    rewrite Hy, inject_Z_plus. reflexivity.
  - exists yq, (mq + 1). split; [reflexivity|]. split; [exact Hy|].
    rewrite Hm, inject_Z_plus. reflexivity.
Qed.

Lemma label_after_calendar (y mo : Z) :
  (1 <= mo <= 12)%Z ->
  forall i,
    exists yq mq,
      label_after i (of_Z y, of_Z mo) = (Num yq, Num mq)
      /\ yq == inject_Z (y + (mo - 1 + Z.of_nat i) / 12)
      /\ mq == inject_Z ((mo - 1 + Z.of_nat i) mod 12 + 1).
Proof.
  intros Hmo. induction i as [|i IH].
  - exists (inject_Z y), (inject_Z mo). split; [reflexivity|].
    replace (mo - 1 + Z.of_nat 0)%Z with (mo - 1)%Z by lia.
    rewrite Z.div_small, Z.mod_small by lia.
    split; apply inject_Z_injective; lia.
  - destruct IH as (yq & mq & E & Hy & Hm).
    rewrite label_after_succ, E. cbn [fst snd].
    destruct (next_label_whole yq mq _ _ Hy Hm) as (yq' & mq' & E' & Hy' & Hm').
    exists yq', mq'. split; [exact E'|].
    rewrite Hy', Hm'.
    replace (mo - 1 + Z.of_nat (S i))%Z with (mo - 1 + Z.of_nat i + 1)%Z by lia.
    set (t := (mo - 1 + Z.of_nat i)%Z).
    assert (Ht : (0 <= t)%Z) by (unfold t; lia).
    pose proof (Z.div_mod t 12 ltac:(lia)) as Hdm.
    pose proof (Z.mod_pos_bound t 12 ltac:(lia)) as Hb.
    pose proof (Z.div_mod (t + 1) 12 ltac:(lia)) as Hdm'.
    pose proof (Z.mod_pos_bound (t + 1) 12 ltac:(lia)) as Hb'.
    destruct (Z.eqb_spec (t mod 12 + 1) 12) as [E12|E12];
      split; apply inject_Z_injective; lia.
Qed.

Lemma label_after_unwrapped (y mo : Z) :
  (13 <= mo)%Z ->
  forall i,
    exists yq mq,
      label_after i (of_Z y, of_Z mo) = (Num yq, Num mq)
      /\ yq == inject_Z y /\ mq == inject_Z (mo + Z.of_nat i).
Proof.
  intros Hmo. induction i as [|i IH].
  - exists (inject_Z y), (inject_Z mo). split; [reflexivity|].
    split; [reflexivity|]. apply inject_Z_injective. lia.
  - destruct IH as (yq & mq & E & Hy & Hm).
    rewrite label_after_succ, E. cbn [fst snd].
    destruct (next_label_whole yq mq _ _ Hy Hm) as (yq' & mq' & E' & Hy' & Hm').
    exists yq', mq'. split; [exact E'|].
    rewrite Hy', Hm'.
    destruct (Z.eqb_spec (mo + Z.of_nat i) 12) as [E12|E12]; [lia|].
    split; [reflexivity|]. apply inject_Z_injective. lia.
Qed.



(* ================================================================== *)
(** ** Histograms *)

Lemma bump_length (c : list number) :
  forall i, length (bump c i) = length c.
Proof.
  induction c as [|x c IH]; intros [|i]; cbn [bump length]; auto.
Qed.

Lemma bump_nth (c : list number) :
  forall i j,
    (j < length c)%nat ->
    nth j (bump c i) NaN
    = if (i =? j)%nat then (nth j c NaN + one)%js else nth j c NaN.
Proof.
  induction c as [|x c IH]; intros i j Hj; [cbn in Hj; lia|].
  destruct i as [|i], j as [|j]; cbn [bump nth Nat.eqb]; try reflexivity.
  apply IH. cbn in Hj. lia.
Qed.

Lemma bump_Num (cq : list Q) :
  forall i,
    (i < length cq)%nat ->
    exists cq',
      bump (map Num cq) i = map Num cq'
      /\ Qsum cq' == Qsum cq + 1 /\ length cq' = length cq.
Proof.
  induction cq as [|x cq IH]; intros i Hi; [cbn in Hi; lia|].
  destruct i as [|i].
  - exists ((x + 1) :: cq). split; [reflexivity|].
    split; [|reflexivity]. unfold Qsum. cbn [fold_right]. lra.
  - destruct (IH i ltac:(cbn in Hi; lia)) as (cq' & E & Hs & Hl).
    exists (x :: cq'). cbn [map bump]. rewrite E.
    split; [reflexivity|]. split; [|cbn; lia].
    unfold Qsum in *. cbn [fold_right]. lra.
Qed.

Lemma bump_at_whole (counts : list number) (q : Q) (k : Z) :
  q == inject_Z k -> (0 <= k)%Z ->
  bump_at counts (Num q) = bump counts (Z.to_nat k).
Proof.
  intros Hq H0.
  assert (Hf : Qfloor q = k) by (rewrite Hq; apply Qfloor_Z).
  unfold bump_at, Qis_int. rewrite Hf.
  assert (E1 : Qeq_bool q (inject_Z k) = true) by (apply Qeq_bool_iff; exact Hq).
  assert (E2 : Qle_bool 0 q = true).
  { apply Qle_bool_iff. rewrite Hq. change 0 with (inject_Z 0).
    rewrite <- Zle_Qle. exact H0. }
  rewrite E1, E2. reflexivity.
Qed.

Lemma bin_index_whole (lo s : Q) (binCount : nat) (v : Q) :
  Qeq_bool s 0 = false -> (0 < binCount)%nat ->
  exists q,
    bin_index (Num lo) (Num s) binCount (Num v) = Num q
    /\ q == inject_Z (Z.of_nat (zbin lo s binCount v)).
Proof.
  intros Hs Hb. unfold bin_index, zbin.
  set (B := Z.of_nat binCount).
  change ((Num v - Num lo)%js) with (Num (v - lo)).
  unfold div. rewrite Hs. unfold of_nat, of_Z. fold B.
  change ((Num ((v - lo) / s) * Num (inject_Z B))%js)
    with (Num ((v - lo) / s * inject_Z B)).
  set (z := Qfloor ((v - lo) / s * inject_Z B)).
  change (Math_floor (Num ((v - lo) / s * inject_Z B))) with (Num (inject_Z z)).
  change ((Num (inject_Z B) - one)%js) with (Num (inject_Z B - 1)).
  assert (EB : inject_Z B - 1 == inject_Z (B - 1)).
  { unfold Z.sub. rewrite inject_Z_plus, inject_Z_opp. reflexivity. }
  rewrite Z2Nat.id by lia.
  unfold Math_max, Math_min, zero, lt.
  destruct (Qlt_bool 0 (inject_Z z)) eqn:E0.
  - apply Qlt_bool_iff in E0. change 0 with (inject_Z 0) in E0.
    rewrite <- Zlt_Qlt in E0.
    destruct (Qlt_bool (inject_Z z) (inject_Z B - 1)) eqn:E1.
    + apply Qlt_bool_iff in E1. rewrite EB, <- Zlt_Qlt in E1.
      eexists. split; [reflexivity|]. apply inject_Z_injective. lia.
    + apply Qlt_bool_false_iff in E1. rewrite EB, <- Zle_Qle in E1.
      eexists. split; [reflexivity|]. rewrite EB.
      apply inject_Z_injective. lia.
  - apply Qlt_bool_false_iff in E0. change 0 with (inject_Z 0) in E0.
    rewrite <- Zle_Qle in E0.
    destruct (Qlt_bool 0 (inject_Z B - 1)) eqn:E1.
    + apply Qlt_bool_iff in E1. change 0 with (inject_Z 0) in E1.
      rewrite EB, <- Zlt_Qlt in E1.
      eexists. split; [reflexivity|].
      change 0 with (inject_Z 0). apply inject_Z_injective. lia.
    + apply Qlt_bool_false_iff in E1. change 0 with (inject_Z 0) in E1.
      rewrite EB, <- Zle_Qle in E1.
      eexists. split; [reflexivity|]. rewrite EB.
      apply inject_Z_injective. unfold B in *. lia.
Qed.

Lemma zbin_bound (lo s : Q) (binCount : nat) (v : Q) :
  (0 < binCount)%nat -> (zbin lo s binCount v < binCount)%nat.
Proof. intro Hb. unfold zbin. lia. Qed.

Lemma bump_at_bin (lo s : Q) (binCount : nat) (v : Q) (c : list number) :
  Qeq_bool s 0 = false -> (0 < binCount)%nat ->
  bump_at c (bin_index (Num lo) (Num s) binCount (Num v))
  = bump c (zbin lo s binCount v).
Proof.
  intros Hs Hb.
  destruct (bin_index_whole lo s binCount v Hs Hb) as (q & -> & Hq).
  rewrite (bump_at_whole c q _ Hq) by lia.
  rewrite Nat2Z.id. reflexivity.
Qed.

Lemma fold_bump_nth (f : number -> number) (g : Q -> nat) (j : nat)
      (qs : list Q) :
  (forall c v, bump_at c (f (Num v)) = bump c (g v)) ->
  forall c n,
    (j < length c)%nat ->
    nth j c NaN =n= of_nat n ->
    nth j (fold_left (fun c v => bump_at c (f v)) (map Num qs) c) NaN
    =n= of_nat (n + length (filter (fun v => (g v =? j)%nat) qs)).
Proof.
  intro Hf. induction qs as [|v qs IH]; intros c n Hj Hn.
  - cbn [map fold_left filter length]. rewrite Nat.add_0_r. exact Hn.
  - cbn [map fold_left filter]. rewrite Hf.
    destruct (g v =? j)%nat eqn:E.
    + cbn [length]. rewrite Nat.add_succ_r, <- Nat.add_succ_l.
      apply IH; [rewrite bump_length; exact Hj|].
      rewrite bump_nth, E by exact Hj.
      destruct (nth j c NaN) as [| | |x]; try contradiction.
      unfold num_eq, of_nat, of_Z in *. cbn [add one].
      rewrite Hn, Nat2Z.inj_succ. unfold Z.succ. rewrite inject_Z_plus.
      reflexivity.
    + apply IH; [rewrite bump_length; exact Hj|].
      rewrite bump_nth, E by exact Hj. exact Hn.
Qed.

Lemma fold_bump_sum (f : number -> number) (g : Q -> nat) (binCount : nat)
      (qs : list Q) :
  (forall c v, bump_at c (f (Num v)) = bump c (g v)) ->
  (forall v, (g v < binCount)%nat) ->
  forall cq,
    length cq = binCount ->
    exists cq',
      fold_left (fun c v => bump_at c (f v)) (map Num qs) (map Num cq)
      = map Num cq'
      /\ length cq' = binCount
      /\ Qsum cq' == Qsum cq + inject_Z (Z.of_nat (length qs)).
Proof.
  intros Hf Hg. induction qs as [|v qs IH]; intros cq Hl.
  - exists cq. split; [reflexivity|]. split; [exact Hl|].
    cbn [length]. change (inject_Z (Z.of_nat 0)) with 0. lra.
  - cbn [map fold_left]. rewrite Hf.
    destruct (bump_Num cq (g v)) as (c1 & E1 & Hs1 & Hl1);
      [rewrite Hl; apply Hg|].
    rewrite E1.
    destruct (IH c1 ltac:(congruence)) as (cq' & E & Hl' & Hs').
    exists cq'. split; [exact E|]. split; [exact Hl'|].
    rewrite Hs', Hs1. cbn [length]. rewrite Nat2Z.inj_succ.
    unfold Z.succ. rewrite inject_Z_plus. change (inject_Z 1) with 1. lra.
Qed.

Lemma span_of_positive (lo hi : Q) : lo <= hi -> 0 < span_of lo hi.
Proof.
  intro H. unfold span_of.
  destruct (Qeq_bool (hi - lo) 0) eqn:E; [lra|].
  apply Qeq_bool_false_iff in E.
  destruct (Qlt_le_dec 0 (hi - lo)) as [Hlt|Hle]; [exact Hlt|].
  exfalso. apply E. lra.
Qed.

Lemma histogram_finite (q : Q) (l : list Q) (binCount : nat) :
  exists lo hi,
    In lo (q :: l) /\ In hi (q :: l)
    /\ (forall v, In v (q :: l) -> lo <= v /\ v <= hi)
    /\ histogram (map Num (q :: l)) binCount
       = {| Histogram.bins :=
              map (fun i => (Num lo + (of_nat i * Num (span_of lo hi))
                                      / of_nat binCount)%js)
                  (seq 0 binCount);
            Histogram.counts :=
              fold_left
                (fun counts v =>
                   bump_at counts
                     (bin_index (Num lo) (Num (span_of lo hi)) binCount v))
                (map Num (q :: l)) (repeat zero binCount);
            Histogram.min := Num lo;
            Histogram.max := Num hi |}.
Proof.
  destruct (Math_min_list_Num q l) as (lo & Elo & Hlo & Hmin).
  destruct (Math_max_list_Num q l) as (hi & Ehi & Hhi & Hmax).
  exists lo, hi. split; [exact Hlo|]. split; [exact Hhi|].
  split; [intros v Hv; split; auto|].
  unfold histogram. rewrite Elo, Ehi.
  replace (or_else (Num hi - Num lo)%js one) with (Num (span_of lo hi)).
  - reflexivity.
  - unfold or_else, span_of. change ((Num hi - Num lo)%js) with (Num (hi - lo)).
    unfold falsy. destruct (Qeq_bool (hi - lo) 0); reflexivity.
Qed.

Lemma nth_map_seq {A : Type} (f : nat -> A) (n j : nat) (d : A) :
  (j < n)%nat -> nth j (map f (seq 0 n)) d = f j.
Proof.
  intro Hj. rewrite (nth_indep _ d (f 0%nat))
    by (rewrite length_map, length_seq; exact Hj).
  rewrite map_nth, seq_nth by exact Hj. reflexivity.
Qed.

Lemma repeat_zero (n : nat) : repeat zero n = map Num (repeat 0 n).
Proof. induction n as [|n IH]; cbn; [reflexivity|]. rewrite IH. reflexivity. Qed.

Lemma Qsum_repeat_zero (n : nat) : Qsum (repeat 0 n) == 0.
Proof.
  induction n as [|n IH]; unfold Qsum in *; cbn [repeat fold_right]; lra.
Qed.

Lemma floor_ge (j : Z) (x : Q) : inject_Z j <= x <-> (j <= Qfloor x)%Z.
Proof.
  split; intro H.
  - rewrite <- (Qfloor_Z j). apply Qfloor_resp_le. exact H.
  - apply Qle_trans with (inject_Z (Qfloor x)); [|apply Qfloor_le].
    rewrite <- Zle_Qle. exact H.
Qed.

Lemma floor_lt (j : Z) (x : Q) : x < inject_Z j <-> (Qfloor x < j)%Z.
Proof.
  split; intro H.
  - destruct (Z_lt_le_dec (Qfloor x) j) as [Hlt|Hge]; [exact Hlt|].
    apply floor_ge in Hge. lra.
  - apply Qlt_le_trans with (inject_Z (Qfloor x + 1)); [apply Qlt_floor|].
    rewrite <- Zle_Qle. lia.
Qed.

Lemma edge_le (lo hi : Q) (binCount j : nat) (v : Q) :
  lo <= hi -> (0 < binCount)%nat ->
  let x := (v - lo) / span_of lo hi * inject_Z (Z.of_nat binCount) in
  (edge lo hi binCount j <= v <-> inject_Z (Z.of_nat j) <= x)
  /\ (v < edge lo hi binCount j <-> x < inject_Z (Z.of_nat j)).
Proof.
  intros Hle Hb x. subst x. unfold edge.
  pose proof (span_of_positive lo hi Hle) as Hs.
  set (s := span_of lo hi) in *.
  set (B := inject_Z (Z.of_nat binCount)).
  set (J := inject_Z (Z.of_nat j)).
  assert (HB : 0 < B).
  { unfold B. change 0 with (inject_Z 0). rewrite <- Zlt_Qlt. lia. }
  assert (Hw : 0 < s / B) by (apply Qlt_shift_div_l; lra).
  assert (Ex : (v - lo) / s * B * (s / B) == v - lo) by (field; split; lra).
  assert (Ej : J * s / B == J * (s / B)) by (field; lra).
  rewrite Ej. set (w := s / B) in *. set (x := (v - lo) / s * B) in *.
  split; split; intro H.
  - destruct (Qlt_le_dec x J) as [Hlt|Hge]; [|exact Hge].
    assert (x * w < J * w) by (apply Qmult_lt_compat_r; assumption). lra.
  - assert (J * w <= x * w) by (apply Qmult_le_compat_r; lra). lra.
  - destruct (Qlt_le_dec x J) as [Hlt|Hge]; [exact Hlt|].
    assert (J * w <= x * w) by (apply Qmult_le_compat_r; lra). lra.
  - assert (x * w < J * w) by (apply Qmult_lt_compat_r; assumption). lra.
Qed.

Lemma zbin_in_bin (lo hi : Q) (binCount j : nat) (v : Q) :
  lo <= hi -> lo <= v -> (j < binCount)%nat ->
  in_bin lo hi binCount j v = (zbin lo (span_of lo hi) binCount v =? j)%nat.
Proof.
  intros Hle Hv Hj.
  assert (Hb : (0 < binCount)%nat) by lia.
  destruct (edge_le lo hi binCount j v Hle Hb) as [Hlow _].
  destruct (edge_le lo hi binCount (S j) v Hle Hb) as [_ Hup].
  destruct (edge_le lo hi binCount 0 v Hle Hb) as [Hzero _].
  cbv zeta in Hlow, Hup, Hzero.
  unfold in_bin, zbin.
  set (x := (v - lo) / span_of lo hi * inject_Z (Z.of_nat binCount)) in *.
  assert (H0 : (0 <= Qfloor x)%Z).
  { apply (floor_ge (Z.of_nat 0)). apply Hzero. unfold edge.
    change (inject_Z (Z.of_nat 0)) with 0. unfold Qdiv. lra. }
  rewrite floor_ge in Hlow. rewrite floor_lt in Hup.
  apply eq_true_iff_eq.
  rewrite andb_true_iff, orb_true_iff, Qle_bool_iff, Qlt_bool_iff, !Nat.eqb_eq.
  rewrite Hlow, Hup. lia.
Qed.





(* ================================================================== *)
(** ** The longest run of losses *)

Lemma losing_run_shift (x : number) (l : list number) (i k : nat) :
  losing_run (x :: l) (S i) k <-> losing_run l i k.
Proof.
  unfold losing_run. split; intros H j Hj.
  - apply (H (S j)). lia.
  - destruct j as [|j]; [lia|]. cbn [nth]. apply H. lia.
Qed.

Lemma losing_run_head (x : number) (l : list number) (k : nat) :
  losing_run (x :: l) 0 (S k)
  <-> (x <? zero)%js = true /\ losing_run l 0 k.
Proof.
  unfold losing_run. split.
  - intro H. split; [apply (H 0%nat); lia|].
    intros j Hj. apply (H (S j)). lia.
  - intros [Hx H] j Hj. destruct j as [|j]; [exact Hx|].
    cbn [nth]. apply H. lia.
Qed.

Lemma losing_run_nil (i k : nat) : losing_run [] i k -> k = 0%nat.
Proof.
  intro H. destruct k as [|k]; [reflexivity|].
  specialize (H i ltac:(lia)). destruct i; discriminate.
Qed.

Lemma losing_run_inside (l : list number) (i k : nat) :
  losing_run l i k -> (0 < k)%nat -> (i + k <= length l)%nat.
Proof.
  intros H Hk.
  destruct (le_lt_dec (i + k) (length l)) as [Hle|Hgt]; [exact Hle|].
  specialize (H (i + k - 1)%nat ltac:(lia)).
  rewrite nth_overflow in H by lia. discriminate.
Qed.

Lemma loss_runs (l : list number) :
  forall maxRun run,
    (run <= maxRun)%nat ->
    let r := fst (fold_left loss_run_step l (maxRun, run)) in
    (maxRun <= r)%nat
    /\ (forall k, losing_run l 0 k -> (run + k <= r)%nat)
    /\ (forall i k, losing_run l i k -> (k <= r)%nat)
    /\ (r = maxRun
        \/ (exists k, losing_run l 0 k /\ r = (run + k)%nat)
        \/ (exists i k, losing_run l i k /\ r = k)).
Proof.
  induction l as [|x l IH]; intros maxRun run Hrun; cbv zeta.
  - cbn [fold_left fst].
    split; [lia|]. split; [|split].
    + intros k H. apply losing_run_nil in H. lia.
    + intros i k H. apply losing_run_nil in H. lia.
    + left. reflexivity.
  - cbn [fold_left].
    destruct (x <? zero)%js eqn:Ex.
    + set (m1 := if (maxRun <? S run)%nat then S run else maxRun).
      assert (Es : loss_run_step (maxRun, run) x = (m1, S run))
        by (unfold loss_run_step; rewrite Ex; reflexivity).
      rewrite Es.
      assert (Hm1 : (S run <= m1 /\ maxRun <= m1
                     /\ (m1 = maxRun \/ m1 = S run))%nat).
      { unfold m1. destruct (Nat.ltb_spec maxRun (S run)); lia. }
      destruct (IH m1 (S run) ltac:(lia)) as (Hge & Hfront & Hany & Hatt).
      cbv zeta in Hge, Hfront, Hany, Hatt.
      set (r := fst (fold_left loss_run_step l (m1, S run))) in *.
      assert (Hfront' : forall k, losing_run (x :: l) 0 k -> (run + k <= r)%nat).
      { intros [|k] H; [lia|]. apply losing_run_head in H.
        specialize (Hfront k (proj2 H)). lia. }
      split; [lia|]. split; [exact Hfront'|]. split.
      * intros [|i] k H.
        -- specialize (Hfront' k H). lia.
        -- apply losing_run_shift in H. apply (Hany i k H).
      * destruct Hatt as [E|[(k & Hk & E)|(i & k & Hk & E)]].
        -- destruct Hm1 as (_ & _ & [E1|E1]).
           ++ left. lia.
           ++ right. left. exists 1%nat. split; [|lia].
              apply losing_run_head. split; [exact Ex|].
              intros j Hj. lia.
        -- right. left. exists (S k). split; [|lia].
           apply losing_run_head. split; assumption.
        -- right. right. exists (S i), k. split; [|exact E].
           apply losing_run_shift. exact Hk.
    + assert (Es : loss_run_step (maxRun, run) x = (maxRun, 0%nat))
        by (unfold loss_run_step; rewrite Ex; reflexivity).
      rewrite Es.
      destruct (IH maxRun 0%nat ltac:(lia)) as (Hge & Hfront & Hany & Hatt).
      cbv zeta in Hge, Hfront, Hany, Hatt.
      set (r := fst (fold_left loss_run_step l (maxRun, 0%nat))) in *.
      assert (Hfront' : forall k, losing_run (x :: l) 0 k -> k = 0%nat).
      { intros [|k] H; [reflexivity|]. apply losing_run_head in H.
        destruct H as [H _]. congruence. }
      split; [exact Hge|]. split; [|split].
      * intros k H. apply Hfront' in H. lia.
      * intros [|i] k H.
        -- apply Hfront' in H. lia.
        -- apply losing_run_shift in H. apply (Hany i k H).
      * destruct Hatt as [E|[(k & Hk & E)|(i & k & Hk & E)]].
        -- left. exact E.
        -- right. right. exists 1%nat, k. split; [|lia].
           apply losing_run_shift. exact Hk.
        -- right. right. exists (S i), k. split; [|exact E].
           apply losing_run_shift. exact Hk.
Qed.

(** X12.  [maxConsecutiveLosses] returns the length of the longest run of
    consecutive losses of the path: a whole number [n], at most the length
    of the path, such that some [n] outcomes in a row are all negative and
    no run of negative outcomes is longer.  Outcomes of 0 and NaN end a
    run; in particular the result is 0 exactly when no outcome is
    negative. *)
Theorem maxConsecutiveLosses_longest_run :
  forall rPath : list number,
  exists n : nat,
    maxConsecutiveLosses rPath = of_nat n
    /\ (n <= length rPath)%nat
    /\ (exists i, (i + n <= length rPath)%nat /\ losing_run rPath i n)
    /\ (forall i k, losing_run rPath i k -> (k <= n)%nat)
    /\ (n = 0%nat <-> forall r, In r rPath -> (r <? zero)%js = false).
Proof.
  intro rPath. unfold maxConsecutiveLosses.
  destruct (loss_runs rPath 0 0 (le_n 0)) as (_ & _ & Hany & Hatt).
  cbv zeta in Hany, Hatt.
  set (n := fst (fold_left loss_run_step rPath (0%nat, 0%nat))) in *.
  exists n. split; [reflexivity|].
  assert (Hrun : exists i, (i + n <= length rPath)%nat /\ losing_run rPath i n).
  { destruct Hatt as [E|[(k & Hk & E)|(i & k & Hk & E)]].
    - exists 0%nat. rewrite E. split; [cbn; lia|]. intros j Hj. lia.
    - cbn [Nat.add] in E. subst k. exists 0%nat.
      destruct n as [|n']; [split; [cbn; lia|intros j Hj; lia]|].
      split; [|exact Hk]. apply (losing_run_inside _ _ _ Hk). lia.
    - subst k. destruct n as [|n'].
      + exists 0%nat. split; [cbn; lia|intros j Hj; lia].
      + exists i. split; [|exact Hk].
        apply (losing_run_inside _ _ _ Hk). lia. }
  split; [destruct Hrun as (i & Hi & _); lia|].
  split; [|split; [exact Hany|]].
  - destruct Hrun as (i & Hi & Hr). exists i. split; assumption.
  - split.
    + intros E r Hr. destruct (r <? zero)%js eqn:Er; [|reflexivity].
      apply In_nth with (d := NaN) in Hr. destruct Hr as (j & Hj & Ej).
      assert (H1 : losing_run rPath j 1).
      { intros j' Hj'. replace j' with j by lia. rewrite Ej. exact Er. }
      apply Hany in H1. lia.
    + intro Hnone. destruct n as [|n']; [reflexivity|].
      destruct Hrun as (i & Hi & Hr).
      specialize (Hr i ltac:(lia)).
      rewrite Hnone in Hr; [discriminate|]. apply nth_In. lia.
Qed.

(* ================================================================== *)
(** ** The representative paths *)

Lemma select_step_picks (mv : number) (ivs : list (nat * number)) :
  forall b w m,
    fold_left (select_step mv) ivs (b, w, m)
    = (fold_left (pick gt (fun v => v)) ivs b,
       fold_left (pick lt (fun v => v)) ivs w,
       fold_left (pick lt (fun v => Math_abs (v - mv)%js)) ivs m).
Proof.
  induction ivs as [|[i v] ivs IH]; intros b w m; [reflexivity|].
  cbn [fold_left]. unfold select_step at 2. rewrite IH. reflexivity.
Qed.

Lemma pick_index_valid (beats : number -> number -> bool)
      (key : number -> number) (l : list number) :
  forall s acc,
    let r := fold_left (pick beats key) (combine (seq s (length l)) l) acc in
    fst r = fst acc \/ (s <= fst r < s + length l)%nat.
Proof.
  induction l as [|v l IH]; intros s acc; cbv zeta.
  - left. reflexivity.
  - cbn [length seq combine fold_left].
    set (acc' := pick beats key acc (s, v)).
    assert (Ha : fst acc' = fst acc \/ fst acc' = s).
    { unfold acc', pick. destruct (beats (key v) (snd acc)); auto. }
    destruct (IH (S s) acc') as [E|E]; cbv zeta in E.
    + destruct Ha as [Ha|Ha]; [left; congruence|right; lia].
    + right. lia.
Qed.

Section Selection.

Variable beats : number -> number -> bool.
Variable key : number -> number.
Variable kq : Q -> Q.
Hypothesis beats_key :
  forall a b, beats (key (Num a)) (key (Num b)) = true <-> kq a < kq b.

Lemma pick_first_from (qs : list Q) :
  forall s i0 v0,
    let r := fold_left (pick beats key)
               (combine (seq s (length (map Num qs))) (map Num qs))
               (i0, key (Num v0)) in
    exists v,
      snd r = key (Num v)
      /\ kq v <= kq v0
      /\ (forall j, (j < length qs)%nat -> kq v <= kq (nth j qs 0))
      /\ ((fst r = i0 /\ v = v0)
          \/ ((s <= fst r < s + length qs)%nat
              /\ v = nth (fst r - s) qs 0
              /\ kq v < kq v0
              /\ forall j, (j < fst r - s)%nat -> kq v < kq (nth j qs 0))).
Proof.
  induction qs as [|q qs IH]; intros s i0 v0; cbv zeta.
  - cbn [map length seq combine fold_left fst snd].
    exists v0. split; [reflexivity|]. split; [lra|].
    split; [intros j Hj; cbn in Hj; lia|]. left. split; reflexivity.
  - cbn [map length seq combine fold_left].
    destruct (beats (key (Num q)) (key (Num v0))) eqn:Eb.
    + assert (Ep : pick beats key (i0, key (Num v0)) (s, Num q)
                   = (s, key (Num q)))
        by (unfold pick; cbn [snd]; rewrite Eb; reflexivity).
      rewrite Ep. apply beats_key in Eb.
      destruct (IH (S s) s q) as (v & Ev & Hle & Hall & Hcase).
      cbv zeta in Ev, Hcase.
      set (r := fold_left (pick beats key)
                  (combine (seq (S s) (length (map Num qs))) (map Num qs))
                  (s, key (Num q))) in *.
      exists v. split; [exact Ev|]. split; [lra|]. split.
      * intros [|j] Hj; cbn [nth]; [exact Hle|]. apply Hall. cbn in Hj. lia.
      * right. destruct Hcase as [[Ei Evq]|(Hi & Evn & Hlt & Hbefore)].
        -- rewrite Ei, Nat.sub_diag. cbn [nth].
           split; [lia|]. split; [exact Evq|]. split; [lra|].
           intros j Hj. lia.
        -- split; [lia|].
           replace (fst r - s)%nat with (S (fst r - S s)) by lia. cbn [nth].
           split; [exact Evn|]. split; [lra|].
           intros [|j] Hj; cbn [nth]; [exact Hlt|]. apply Hbefore. lia.
    + assert (Ep : pick beats key (i0, key (Num v0)) (s, Num q)
                   = (i0, key (Num v0)))
        by (unfold pick; cbn [snd]; rewrite Eb; reflexivity).
      rewrite Ep.
      assert (Hge : kq v0 <= kq q).
      { destruct (Qlt_le_dec (kq q) (kq v0)) as [Hlt|Hge]; [|exact Hge].
        apply beats_key in Hlt. congruence. }
      destruct (IH (S s) i0 v0) as (v & Ev & Hle & Hall & Hcase).
      cbv zeta in Ev, Hcase.
      set (r := fold_left (pick beats key)
                  (combine (seq (S s) (length (map Num qs))) (map Num qs))
                  (i0, key (Num v0))) in *.
      exists v. split; [exact Ev|]. split; [exact Hle|]. split.
      * intros [|j] Hj; cbn [nth]; [lra|]. apply Hall. cbn in Hj. lia.
      * destruct Hcase as [[Ei Evq]|(Hi & Evn & Hlt & Hbefore)].
        -- left. split; assumption.
        -- right. split; [lia|].
           replace (fst r - s)%nat with (S (fst r - S s)) by lia. cbn [nth].
           split; [exact Evn|]. split; [exact Hlt|].
           intros [|j] Hj; cbn [nth]; [lra|]. apply Hbefore. lia.
Qed.

Lemma pick_first_least (q : Q) (l : list Q) (k0 : number) :
  beats (key (Num q)) k0 = true ->
  first_least kq (q :: l)
    (fst (fold_left (pick beats key)
            (combine (seq 0 (length (map Num (q :: l)))) (map Num (q :: l)))
            (0%nat, k0))).
Proof.
  intro H0. cbn [map length seq combine fold_left].
  assert (Ep : pick beats key (0%nat, k0) (0%nat, Num q) = (0%nat, key (Num q)))
    by (unfold pick; cbn [snd]; rewrite H0; reflexivity).
  rewrite Ep.
  destruct (pick_first_from l 1 0%nat q) as (v & Ev & Hle & Hall & Hcase).
  cbv zeta in Ev, Hcase.
  set (r := fold_left (pick beats key)
              (combine (seq 1 (length (map Num l))) (map Num l))
              (0%nat, key (Num q))) in *.
  unfold first_least.
  destruct Hcase as [[Ei Evq]|(Hi & Evn & Hlt & Hbefore)].
  - rewrite Ei. cbn [nth length]. subst v. split; [lia|]. split.
    + intros [|j] Hj; cbn [nth]; [lra|]. apply Hall. lia.
    + intros j Hj. lia.
  - assert (En : nth (fst r) (q :: l) 0 = v).
    { replace (fst r) with (S (fst r - 1)) at 1 by lia. cbn [nth]. congruence. }
    rewrite En. cbn [length]. split; [lia|]. split.
    + intros [|j] Hj; cbn [nth]; [lra|]. apply Hall. lia.
    + intros [|j] Hj; cbn [nth]; [exact Hlt|]. apply Hbefore. lia.
Qed.

End Selection.

Lemma aggregate_selection cfg paths :
  let res := aggregate cfg paths in
  let sel := select (map path_final paths)
               (to_number (percentile (map path_final paths) (Num 50))) in
  Result.bestIdx res = fst (fst (fst sel))
  /\ Result.worstIdx res = fst (snd (fst sel))
  /\ Result.medianIdx res = fst (snd sel)
  /\ Stats.final50 (Result.stats res)
     = percentile (map path_final paths) (Num 50).
Proof.
  cbv zeta. unfold aggregate. destruct (select _ _) as [[b w] m].
  repeat split; reflexivity.
Qed.

Lemma run_has_paths cfg g res :
  run_with cfg g = Ok res -> Result.finalEquity res <> [].
Proof.
  unfold run_with, bind.
  destruct (new_Array (safePaths_of cfg)) as [len|e] eqn:En; [|discriminate].
  assert (Hn : exists n, iterations (safePaths_of cfg) = S n).
  { unfold safePaths_of in *.
    destruct (Config.nPaths cfg) as [ | | |q]; cbn [Math_trunc] in *;
      try (cbn in En; discriminate).
    - exists 0%nat. reflexivity.
    - rewrite Math_max_one_of_Z, iterations_of_Z.
      exists (Z.to_nat (Z.max 1 (Qtrunc q)) - 1)%nat. lia. }
  destruct Hn as (n & ->). cbn [simulate_paths]. unfold bind.
  destruct (simulate_path _ _ _ _) as [[path g1]|e]; [|discriminate].
  destruct (simulate_paths _ _ _ _ _) as [rest|e]; [|discriminate].
  intro H. injection H as <-. rewrite aggregate_finalEquity. discriminate.
Qed.



(* ================================================================== *)
(** ** The risk of ruin *)

Lemma recorded_drawdowns_nonpos cfg g res :
  run_with cfg g = Ok res ->
  Forall (fun dd => (dd <=? zero)%js = true) (Result.maxDrawdowns res).
Proof.
  intro Hrun.
  destruct (run_with_paths _ _ _ Hrun) as (paths & Hp & ->).
  rewrite aggregate_maxDrawdowns.
  apply Forall_forall. intros dd Hin. apply in_map_iff in Hin.
  destruct Hin as (path & <- & Hpath).
  pose proof (simulate_paths_Forall
                (fun path => (path_maxDd path <=? zero)%js = true)
                cfg (safeTrades_of cfg) (cumProbs_of (Config.buckets cfg)))
    as Hall.
  assert (HP : forall g p g',
             simulate_path cfg (safeTrades_of cfg)
               (cumProbs_of (Config.buckets cfg)) g = Ok (p, g') ->
             (path_maxDd p <=? zero)%js = true).
  { intros g0 p g' Hs. rewrite (simulate_path_drawdown _ _ _ _ _ _ Hs).
    apply fold_dd_step_nonpos. reflexivity. }
  specialize (Hall HP _ _ _ Hp). rewrite Forall_forall in Hall.
  apply Hall. exact Hpath.
Qed.

Lemma run_has_drawdowns cfg g res :
  run_with cfg g = Ok res -> (0 < length (Result.maxDrawdowns res))%nat.
Proof.
  intro Hrun. pose proof (run_has_paths _ _ _ Hrun) as Hne.
  destruct (run_with_paths _ _ _ Hrun) as (paths & _ & ->).
  rewrite aggregate_finalEquity in Hne. rewrite aggregate_maxDrawdowns.
  rewrite length_map. destruct paths; [contradiction|cbn; lia].
Qed.

Lemma ratio_range (c n : nat) :
  (c <= n)%nat -> (0 < n)%nat ->
  exists p,
    (of_nat c / of_nat n)%js = Num p
    /\ p == inject_Z (Z.of_nat c) / inject_Z (Z.of_nat n)
    /\ 0 <= p /\ p <= 1.
Proof.
  intros Hc Hn. unfold of_nat, of_Z, div.
  assert (Hpos : 0 < inject_Z (Z.of_nat n)).
  { change 0 with (inject_Z 0). rewrite <- Zlt_Qlt. lia. }
  assert (Ez : Qeq_bool (inject_Z (Z.of_nat n)) 0 = false)
    by (apply Qeq_bool_false_iff; lra).
  rewrite Ez. eexists. split; [reflexivity|]. split; [reflexivity|].
  assert (Hw : 0 <= inject_Z (Z.of_nat c)).
  { change 0 with (inject_Z 0). rewrite <- Zle_Qle. lia. }
  assert (Hle : inject_Z (Z.of_nat c) <= inject_Z (Z.of_nat n)).
  { rewrite <- Zle_Qle. lia. }
  split.
  - apply Qle_shift_div_l; lra.
  - apply Qle_shift_div_r; lra.
Qed.

Lemma filter_length_pointwise {A : Type} (f g : A -> bool) (l : list A) :
  (forall x, In x l -> f x = true -> g x = true) ->
  (length (filter f l) <= length (filter g l))%nat.
Proof.
  induction l as [|x l IH]; intro H; [cbn; lia|].
  cbn [filter].
  assert (IH' : (length (filter f l) <= length (filter g l))%nat).
  { apply IH. intros y Hy. apply H. right. exact Hy. }
  destruct (f x) eqn:Ef.
  - rewrite (H x (or_introl eq_refl) Ef). cbn [length]. lia.
  - destruct (g x); cbn [length]; lia.
Qed.

Lemma filter_all {A : Type} (f : A -> bool) (l : list A) :
  (forall x, In x l -> f x = true) -> filter f l = l.
Proof.
  induction l as [|x l IH]; intro H; [reflexivity|].
  cbn [filter]. rewrite (H x (or_introl eq_refl)).
  f_equal. apply IH. intros y Hy. apply H. right. exact Hy.
Qed.

Lemma reaches_monotone (t t' : Q) (dd : number) :
  t <= t' ->
  (Math_abs dd >=? Num t')%js = true -> (Math_abs dd >=? Num t)%js = true.
Proof.
  intro Ht. unfold ge, le.
  destruct (Math_abs dd) as [ | | |x]; try (intro; assumption || reflexivity).
  rewrite !Qle_bool_iff. lra.
Qed.

(** X14.  The risk of ruin shown for the result of a run and a finite
    threshold percentage [q] has the threshold |q| / 100 and a probability
    between 0 and 1: the share of paths whose maximum drawdown is at least
    the threshold in size.  The sign of [q] plays no part, a threshold of 0
    gives the probability 1, and a threshold larger in size never gives a
    larger probability. *)
Theorem riskOfRuin_probability :
  forall (cfg : Config.t) (w : MathRandom) (res : Result.t) (q : Q),
    runSimulation cfg w = Ok res ->
    exists ror p,
      riskOfRuin (Some res) (Num q) = Some ror
      /\ RiskOfRuin.threshold ror = Num (Qabs q / 100)
      /\ RiskOfRuin.probability ror = Num p
      /\ 0 <= p /\ p <= 1
      /\ (q == 0 -> p == 1)
      /\ forall q',
           Qabs q <= Qabs q' ->
           exists ror' p',
             riskOfRuin (Some res) (Num q') = Some ror'
             /\ RiskOfRuin.probability ror' = Num p'
             /\ p' <= p.
Proof.
  intros cfg w res q Hrun. unfold runSimulation in Hrun.
  pose proof (recorded_drawdowns_nonpos _ _ _ Hrun) as Hdd.
  pose proof (run_has_drawdowns _ _ _ Hrun) as Hlen.
  set (dds := Result.maxDrawdowns res) in *.
  assert (Hthr : forall x, (Math_abs (Num x) / Num 100)%js = Num (Qabs x / 100))
    by (intro x; reflexivity).
  assert (Hcount : forall x,
             (length (filter (fun dd => (Math_abs dd >=? Num (Qabs x / 100))%js)
                        dds) <= length dds)%nat)
    by (intro x; apply List.filter_length_le).
  unfold riskOfRuin. fold dds. rewrite Hthr.
  destruct (ratio_range _ _ (Hcount q) Hlen) as (p & Ep & Hp & Hp0 & Hp1).
  eexists. exists p. split; [reflexivity|].
  cbn [RiskOfRuin.threshold RiskOfRuin.probability].
  split; [reflexivity|]. split; [exact Ep|]. split; [exact Hp0|].
  split; [exact Hp1|]. split.
  - intro Hq. rewrite Hp.
    rewrite filter_all.
    + field. intro E. change 0 with (inject_Z 0) in E.
      rewrite inject_Z_injective in E. lia.
    + intros dd Hin. rewrite Forall_forall in Hdd. specialize (Hdd dd Hin).
      assert (Ht : Qabs q / 100 == 0).
      { rewrite Hq. reflexivity. }
      unfold ge, le. destruct dd as [ | | |x]; cbn [Math_abs];
        try reflexivity; try discriminate.
      apply Qle_bool_iff. rewrite Ht. apply Qabs_nonneg.
  - intros q' Hq'. rewrite Hthr.
    destruct (ratio_range _ _ (Hcount q') Hlen) as (p' & Ep' & Hp' & _ & _).
    eexists. exists p'. split; [reflexivity|].
    cbn [RiskOfRuin.probability]. split; [exact Ep'|].
    rewrite Hp, Hp'.
    assert (Hn : 0 < inject_Z (Z.of_nat (length dds))).
    { change 0 with (inject_Z 0). rewrite <- Zlt_Qlt. lia. }
    assert (Hc : inject_Z (Z.of_nat
                   (length (filter (fun dd =>
                      (Math_abs dd >=? Num (Qabs q' / 100))%js) dds)))
                 <= inject_Z (Z.of_nat
                      (length (filter (fun dd =>
                         (Math_abs dd >=? Num (Qabs q / 100))%js) dds)))).
    { rewrite <- Zle_Qle. apply Nat2Z.inj_le. apply filter_length_pointwise.
      intros dd _. apply reaches_monotone.
      unfold Qdiv. apply Qmult_le_compat_r; [exact Hq'|]. discriminate. }
    unfold Qdiv. apply Qmult_le_compat_r; [exact Hc|].
    apply Qlt_le_weak. apply Qinv_lt_0_compat. exact Hn.
Qed.

Lemma riskOfRuin_probability_witness :
  exists ror p,
    riskOfRuin
      (match runSimulation ruin_config quiet with
       | Ok res => Some res
       | Throw _ => None
       end) (Num 0) = Some ror
    /\ RiskOfRuin.probability ror = Num p /\ p == 1.
Proof.
  destruct (runSimulation ruin_config quiet) as [res|e] eqn:Hrun;
    [|vm_compute in Hrun; discriminate].
  destruct (riskOfRuin_probability ruin_config quiet res 0 Hrun)
    as (ror & p & E & _ & Ep & _ & _ & H0 & _).
  exists ror, p. split; [exact E|]. split; [exact Ep|].
  apply H0. reflexivity.
Defined.

(* ================================================================== *)
(** ** The percentile paths *)

Lemma closest_step_pick (target : number) (ivs : list (nat * number)) :
  forall acc,
    fold_left (closest_step target) ivs acc
    = fold_left (pick lt (fun v => Math_abs (v - target)%js)) ivs acc.
Proof.
  induction ivs as [|[i v] ivs IH]; intros [ci c]; [reflexivity|].
  cbn [fold_left]. rewrite IH. reflexivity.
Qed.

Lemma aggregate_path_count cfg paths :
  length (Result.equityPaths (aggregate cfg paths))
  = length (Result.finalEquity (aggregate cfg paths)).
Proof.
  rewrite aggregate_equityPaths, aggregate_finalEquity, !length_map.
  reflexivity.
Qed.



(* ================================================================== *)
(** ** The path shown in the trade chart *)

Lemma Math_min_of_Z (a b : Z) : Math_min (of_Z a) (of_Z b) = of_Z (Z.min a b).
Proof.
  unfold Math_min, of_Z, lt. rewrite Qlt_bool_inject_Z.
  destruct (Z.ltb_spec b a).
  - rewrite Z.min_r by lia. reflexivity.
  - rewrite Z.min_l by lia. reflexivity.
Qed.

Lemma at_index_whole {A : Type} (arr : list A) (q : Q) (k : Z) :
  q == inject_Z k -> (0 <= k)%Z ->
  at_index arr (Num q) = nth_error arr (Z.to_nat k).
Proof.
  intros Hq H0.
  assert (Hf : Qfloor q = k) by (rewrite Hq; apply Qfloor_Z).
  unfold at_index, Qis_int. rewrite Hf.
  assert (E1 : Qeq_bool q (inject_Z k) = true) by (apply Qeq_bool_iff; exact Hq).
  assert (E2 : Qle_bool 0 q = true).
  { apply Qle_bool_iff. rewrite Hq. change 0 with (inject_Z 0).
    rewrite <- Zle_Qle. exact H0. }
  rewrite E1, E2. reflexivity.
Qed.

Lemma run_has_rPaths cfg g res :
  run_with cfg g = Ok res -> (0 < length (Result.rPaths res))%nat.
Proof.
  intro Hrun. pose proof (run_has_paths _ _ _ Hrun) as Hne.
  destruct (run_with_paths _ _ _ Hrun) as (paths & _ & ->).
  rewrite aggregate_finalEquity in Hne. rewrite aggregate_rPaths.
  rewrite length_map. destruct paths; [contradiction|cbn; lia].
Qed.

(** X16.  The path number typed in for the trade chart is clamped onto the
    paths of the result: for a finite number [q] the chart shows path
    min(max(1, trunc q), totalPaths), counted from 1, which always exists;
    +Infinity shows the last path and -Infinity the first.  Only NaN shows
    no path. *)
Theorem selected_path_clamped :
  forall (cfg : Config.t) (w : MathRandom) (res : Result.t),
    runSimulation cfg w = Ok res ->
    let total := Z.of_nat (length (Result.rPaths res)) in
    let shows (sel : number) (k : Z) :=
      (1 <= k <= total)%Z
      /\ fst (selected_path res sel) = of_Z k
      /\ exists rPath,
           snd (selected_path res sel) = Some rPath
           /\ nth_error (Result.rPaths res) (Z.to_nat (k - 1)) = Some rPath in
    (forall q, shows (Num q) (Z.min (Z.max 1 (Qtrunc q)) total))
    /\ shows PosInfinity total
    /\ shows NegInfinity 1%Z
    /\ snd (selected_path res NaN) = None.
Proof.
  intros cfg w res Hrun total shows. unfold runSimulation in Hrun.
  pose proof (run_has_rPaths _ _ _ Hrun) as Hlen.
  assert (Hshow : forall sel k,
             (1 <= k <= total)%Z ->
             Math_min (Math_max one (Math_trunc sel))
               (of_nat (length (Result.rPaths res))) = of_Z k ->
             shows sel k).
  { intros sel k Hk E. unfold shows, selected_path. cbn [fst snd].
    rewrite E. split; [exact Hk|]. split; [reflexivity|].
    change ((of_Z k - one)%js) with (Num (inject_Z k - 1)).
    assert (Ek : inject_Z k - 1 == inject_Z (k - 1)).
    { unfold Z.sub. rewrite inject_Z_plus, inject_Z_opp. reflexivity. }
    rewrite (at_index_whole _ _ _ Ek) by lia.
    destruct (nth_error (Result.rPaths res) (Z.to_nat (k - 1))) as [rPath|] eqn:En.
    - exists rPath. split; reflexivity.
    - apply nth_error_None in En. unfold total in Hk. lia. }
  split; [|split; [|split]].
  - intro q. apply Hshow; [unfold total; lia|].
    cbn [Math_trunc]. rewrite Math_max_one_of_Z. unfold of_nat.
    rewrite Math_min_of_Z. reflexivity.
  - apply Hshow; [unfold total; lia|]. reflexivity.
  - apply Hshow; [unfold total; lia|].
    change (Math_max one (Math_trunc NegInfinity)) with (of_Z 1).
    unfold of_nat. rewrite Math_min_of_Z. f_equal. lia.
  - reflexivity.
Qed.

Lemma selected_path_clamped_witness :
  exists res,
    runSimulation (with_counts sample_config NaN (Num 2)) quiet = Ok res
    /\ fst (selected_path res (Num 7)) = of_Z 2
    /\ fst (selected_path res (Num (- 3))) = of_Z 1.
Proof.
  destruct (runSimulation (with_counts sample_config NaN (Num 2)) quiet)
    as [res|e] eqn:Hrun; [|vm_compute in Hrun; discriminate].
  exists res. split; [reflexivity|].
  destruct (selected_path_clamped _ quiet res Hrun) as (H & _).
  cbv zeta in H.
  assert (Hn : length (Result.rPaths res) = 2%nat).
  { vm_compute in Hrun. injection Hrun as <-. reflexivity. }
  split.
  - destruct (H 7) as (_ & E & _). rewrite E, Hn. reflexivity.
  - destruct (H (- 3)) as (_ & E & _). rewrite E, Hn. reflexivity.
Defined.

(* ================================================================== *)
(** ** Rounding to a step *)



(* ================================================================== *)
(** ** The bucket a draw selects *)

Lemma table_weights (buckets : list Bucket.t) :
  Forall (fun b => isFinite (Bucket.p b) = true) buckets ->
  Exists (fun b => (Bucket.p b >? zero)%js = true) buckets ->
  let s := Qsum (map weight buckets) in
  0 < s
  /\ cumProbs_of buckets
     = map Num (qprefix 0 (map (fun c => c / fold_left Qplus (map weight buckets) 0)
                             (map weight buckets)))
  /\ fold_left Qplus (map weight buckets) 0 == s.
Proof.
  intros Hfin Hpos. cbv zeta.
  set (cs := map weight buckets).
  assert (Hcs : Forall (fun c => 0 <= c) cs).
  { apply Forall_forall. intros c Hc. apply in_map_iff in Hc.
    destruct Hc as (b & <- & _). apply qclamp_nonneg. }
  assert (Hex : Exists (fun c => 0 < c) cs).
  { apply Exists_exists in Hpos. destruct Hpos as (b & Hb & Hgt).
    apply Exists_exists. exists (weight b).
    split; [apply in_map_iff; exists b; auto|].
    rewrite Forall_forall in Hfin. specialize (Hfin b Hb).
    unfold weight.
    destruct (Bucket.p b) as [ | | |q]; try discriminate.
    unfold gt, lt, zero in Hgt. unfold qclamp, qval. rewrite Hgt.
    apply Qlt_bool_iff. exact Hgt. }
  pose proof (Qsum_pos cs Hcs Hex) as Hs.
  set (s := fold_left Qplus cs 0).
  assert (Es : s == Qsum cs).
  { unfold s. rewrite fold_left_Qplus. lra. }
  split; [exact Hs|]. split; [|exact Es].
  assert (Hnorm : normProbs_of buckets = map Num (map (fun c => c / s) cs)).
  { unfold normProbs_of, probSum_of. rewrite (probs_of_Num _ Hfin).
    change (map (fun b => qclamp (qval (Bucket.p b))) buckets) with cs.
    change zero with (Num 0). rewrite fold_left_add_Num. fold s.
    unfold or_else, falsy.
    assert (Ez : Qeq_bool s 0 = false) by (apply Qeq_bool_false_iff; lra).
    rewrite Ez. rewrite !map_map. apply map_ext. intro c.
    unfold div. rewrite Ez. reflexivity. }
  unfold cumProbs_of. rewrite Hnorm.
  apply (fold_cum_push_Num (map (fun c => c / s) cs) []).
Qed.

Lemma firstn_succ_nth_error {A : Type} (l : list A) :
  forall i x, nth_error l i = Some x -> firstn (S i) l = firstn i l ++ [x].
Proof.
  induction l as [|y l IH]; intros [|i] x H; try discriminate.
  - cbn in H. injection H as <-. reflexivity.
  - cbn [nth_error] in H. change (firstn (S (S i)) (y :: l))
      with (y :: firstn (S i) l). rewrite (IH i x H). reflexivity.
Qed.

Lemma Qsum_cons (x : Q) (l : list Q) : Qsum (x :: l) = x + Qsum l.
Proof. reflexivity. Qed.

Lemma qprefix_find (u : Q) (ps : list Q) :
  forall a,
    a < u -> u <= a + Qsum ps ->
    exists i,
      findIndex (fun p => (Num u <=? p)%js) (map Num (qprefix a ps)) = Some i
      /\ (i < length ps)%nat
      /\ a + Qsum (firstn i ps) < u
      /\ u <= a + Qsum (firstn (S i) ps).
Proof.
  induction ps as [|x ps IH]; intros a Ha Hu.
  - unfold Qsum in Hu. cbn in Hu. lra.
  - cbn [qprefix map findIndex]. unfold le at 1.
    rewrite Qsum_cons in Hu.
    destruct (Qle_bool u (a + x)) eqn:E.
    + apply Qle_bool_iff in E. exists 0%nat.
      split; [reflexivity|]. split; [cbn; lia|].
      cbn [firstn]. rewrite Qsum_cons. unfold Qsum. cbn [fold_right].
      split; lra.
    + apply Qle_bool_false_iff in E.
      destruct (IH (a + x) E ltac:(lra)) as (i & Ei & Hi & Hlo & Hhi).
      exists (S i). rewrite Ei. split; [reflexivity|].
      split; [cbn; lia|].
      change (firstn (S i) (x :: ps)) with (x :: firstn i ps).
      change (firstn (S (S i)) (x :: ps)) with (x :: firstn (S i) ps).
      rewrite !Qsum_cons. split; lra.
Qed.



(* ================================================================== *)
(** ** Runs of more paths *)

Lemma simulate_paths_with_counts cfg t p safeTrades cumProbs :
  forall n g,
    simulate_paths (with_counts cfg t p) safeTrades cumProbs n g
    = simulate_paths cfg safeTrades cumProbs n g.
Proof.
  induction n as [|n IH]; intro g; [reflexivity|].
  cbn [simulate_paths].
  change (simulate_path (with_counts cfg t p) safeTrades cumProbs g)
    with (simulate_path cfg safeTrades cumProbs g).
  destruct (simulate_path cfg safeTrades cumProbs g) as [[path g']|e];
    [|reflexivity].
  cbn [bind]. rewrite IH. reflexivity.
Qed.

Lemma simulate_paths_prefix cfg safeTrades cumProbs :
  forall a b g paths,
    simulate_paths cfg safeTrades cumProbs (a + b) g = Ok paths ->
    simulate_paths cfg safeTrades cumProbs a g = Ok (firstn a paths).
Proof.
  induction a as [|a IH]; intros b g paths H; [reflexivity|].
  cbn [Nat.add simulate_paths] in H |- *. unfold bind in H |- *.
  destruct (simulate_path cfg safeTrades cumProbs g) as [[path g1]|e];
    [|discriminate].
  destruct (simulate_paths cfg safeTrades cumProbs (a + b) g1) as [rest|e] eqn:Er;
    [|discriminate].
  injection H as <-. rewrite (IH b g1 rest Er). reflexivity.
Qed.

Lemma safePaths_of_whole cfg t (n : Z) :
  (1 <= n)%Z -> safePaths_of (with_counts cfg t (of_Z n)) = of_Z n.
Proof.
  intro Hn. unfold safePaths_of. cbn [with_counts Config.nPaths].
  unfold of_Z at 1. cbn [Math_trunc]. rewrite Qtrunc_inject_Z.
  rewrite Math_max_one_of_Z, Z.max_r by lia. reflexivity.
Qed.

Lemma new_Array_too_long (n : Z) :
  (2 ^ 32 <= n)%Z -> new_Array (of_Z n) = Throw RangeError.
Proof.
  intro Hn. unfold new_Array, of_Z.
  rewrite Qlt_bool_inject_Z.
  assert (E : (n <? 2 ^ 32)%Z = false) by (apply Z.ltb_ge; exact Hn).
  rewrite E, andb_false_r. reflexivity.
Qed.

(** X19.  Asking for more paths leaves the earlier paths as they are: on
    the same stream of draws (for a seeded run, the same seed), the [m]
    paths of a run are the first [m] paths of every run of [n >= m] paths
    that returns, with the same equity curves, outcomes, final equities and
    maximum drawdowns. *)
Theorem more_paths_keep_earlier :
  forall (cfg : Config.t) (w : MathRandom) (nTrades : number) (m n : Z)
         (res : Result.t),
    (1 <= m <= n)%Z ->
    runSimulation (with_counts cfg nTrades (of_Z n)) w = Ok res ->
    exists res',
      runSimulation (with_counts cfg nTrades (of_Z m)) w = Ok res'
      /\ Result.equityPaths res'
         = firstn (Z.to_nat m) (Result.equityPaths res)
      /\ Result.rPaths res' = firstn (Z.to_nat m) (Result.rPaths res)
      /\ Result.finalEquity res'
         = firstn (Z.to_nat m) (Result.finalEquity res)
      /\ Result.maxDrawdowns res'
         = firstn (Z.to_nat m) (Result.maxDrawdowns res).
Proof.
  intros cfg w nTrades m n res Hmn Hrun.
  unfold runSimulation, run_with in *.
  rewrite safePaths_of_whole in * by lia.
  change (Config.seed (with_counts cfg nTrades (of_Z n)))
    with (Config.seed cfg) in Hrun.
  change (Config.seed (with_counts cfg nTrades (of_Z m)))
    with (Config.seed cfg).
  change (Config.buckets (with_counts cfg nTrades (of_Z n)))
    with (Config.buckets cfg) in Hrun.
  change (Config.buckets (with_counts cfg nTrades (of_Z m)))
    with (Config.buckets cfg).
  change (safeTrades_of (with_counts cfg nTrades (of_Z n)))
    with (safeTrades_of (with_counts cfg nTrades (of_Z m))) in Hrun.
  set (safeTrades := safeTrades_of (with_counts cfg nTrades (of_Z m))) in *.
  set (g := createRng (Config.seed cfg) w) in *.
  destruct (Z_lt_le_dec n (2 ^ 32)) as [Hlt|Hge];
    [|rewrite (new_Array_too_long n Hge) in Hrun; discriminate].
  rewrite new_Array_of_Z in Hrun by lia.
  rewrite new_Array_of_Z by lia.
  cbn [bind] in Hrun |- *.
  rewrite iterations_of_Z, simulate_paths_with_counts in *.
  destruct (simulate_paths cfg safeTrades _ (Z.to_nat n) g) as [paths|e] eqn:Ep;
    [|discriminate].
  injection Hrun as <-.
  replace (Z.to_nat n) with (Z.to_nat m + (Z.to_nat n - Z.to_nat m))%nat
    in Ep by lia.
  rewrite (simulate_paths_prefix _ _ _ _ _ _ _ Ep).
  eexists. split; [reflexivity|].
  rewrite !aggregate_equityPaths, !aggregate_rPaths, !aggregate_finalEquity,
    !aggregate_maxDrawdowns, !firstn_map.
  repeat split; reflexivity.
Qed.

Lemma more_paths_keep_earlier_witness :
  exists res res',
    runSimulation (with_counts sample_config (Num 3) (of_Z 3)) quiet = Ok res
    /\ runSimulation (with_counts sample_config (Num 3) (of_Z 2)) quiet = Ok res'
    /\ Result.equityPaths res' = firstn 2 (Result.equityPaths res).
Proof.
  destruct (runSimulation (with_counts sample_config (Num 3) (of_Z 3)) quiet)
    as [res|e] eqn:Hrun; [|vm_compute in Hrun; discriminate].
  destruct (more_paths_keep_earlier sample_config quiet (Num 3) 2 3 res
              ltac:(lia) Hrun) as (res' & Hrun' & E & _).
  exists res, res'. split; [reflexivity|]. split; [exact Hrun'|exact E].
Defined.

(* ================================================================== *)
(** ** Runs of more trades *)

Lemma trades_prefix buckets cumProbs progressive :
  forall a b st equityPath rPath st2,
    trades buckets cumProbs progressive (a + b) st
    = Ok (equityPath, rPath, st2) ->
    exists st1,
      trades buckets cumProbs progressive a st
      = Ok (firstn a equityPath, firstn a rPath, st1).
Proof.
  induction a as [|a IH]; intros b st equityPath rPath st2 H.
  - exists st. reflexivity.
  - cbn [Nat.add trades] in H |- *. unfold bind in H |- *.
    destruct (trade buckets cumProbs progressive st) as [[sample s1]|e];
      [|discriminate].
    destruct (trades buckets cumProbs progressive (a + b) s1)
      as [[[eqs rs] s2]|e] eqn:E; [|discriminate].
    injection H as <- <- <-.
    destruct (IH b s1 eqs rs s2 E) as (st1 & ->).
    exists st1. reflexivity.
Qed.

Lemma trades_need_a_bucket buckets cumProbs progressive a st r :
  trades buckets cumProbs progressive (S a) st = Ok r -> buckets <> [].
Proof.
  cbn [trades]. unfold bind.
  destruct (trade buckets cumProbs progressive st) as [[sample s1]|e] eqn:Et;
    [|discriminate].
  intros _. unfold trade, sample_trade, bind in Et.
  destruct (draw (rng st)) as [u g].
  destruct (pick_bucket buckets cumProbs u) as [b|] eqn:Eb; [|discriminate].
  apply pick_bucket_In in Eb. intros ->. contradiction.
Qed.

Lemma safeTrades_of_whole cfg p (n : Z) :
  (1 <= n)%Z -> safeTrades_of (with_counts cfg (of_Z n) p) = of_Z n.
Proof.
  intro Hn. unfold safeTrades_of. cbn [with_counts Config.nTrades].
  unfold of_Z at 1. cbn [Math_trunc]. rewrite Qtrunc_inject_Z.
  rewrite Math_max_one_of_Z, Z.max_r by lia. reflexivity.
Qed.

Lemma new_Float64Array_too_long (n : Z) :
  (2 ^ 53 <= n)%Z -> new_Float64Array (of_Z n) = Throw RangeError.
Proof.
  intro Hn. unfold new_Float64Array, of_Z. rewrite Qtrunc_inject_Z.
  assert (E : (n <? 2 ^ 53)%Z = false) by (apply Z.ltb_ge; exact Hn).
  rewrite E, andb_false_r. reflexivity.
Qed.

(** X20.  Asking for more trades leaves the earlier trades of the first
    path as they are: on the same stream of draws, the first path of a run
    of [m] trades per path is the first [m] trades of the first path of
    every run of [n >= m] trades per path that returns, and the run of [m]
    trades returns as well. *)
Theorem more_trades_keep_earlier :
  forall (cfg : Config.t) (w : MathRandom) (nPaths : number) (m n : Z)
         (res : Result.t),
    (1 <= m <= n)%Z ->
    runSimulation (with_counts cfg (of_Z n) nPaths) w = Ok res ->
    exists res',
      runSimulation (with_counts cfg (of_Z m) nPaths) w = Ok res'
      /\ nth 0 (Result.equityPaths res') []
         = firstn (Z.to_nat m) (nth 0 (Result.equityPaths res) [])
      /\ nth 0 (Result.rPaths res') []
         = firstn (Z.to_nat m) (nth 0 (Result.rPaths res) []).
Proof.
  intros cfg w nPaths m n res Hmn Hrun.
  unfold runSimulation, run_with in *.
  rewrite safeTrades_of_whole in * by lia.
  change (Config.seed (with_counts cfg (of_Z n) nPaths))
    with (Config.seed cfg) in Hrun.
  change (Config.seed (with_counts cfg (of_Z m) nPaths))
    with (Config.seed cfg).
  change (Config.buckets (with_counts cfg (of_Z n) nPaths))
    with (Config.buckets cfg) in Hrun.
  change (Config.buckets (with_counts cfg (of_Z m) nPaths))
    with (Config.buckets cfg).
  change (safePaths_of (with_counts cfg (of_Z n) nPaths))
    with (safePaths_of (with_counts cfg (of_Z m) nPaths)) in Hrun.
  set (safePaths := safePaths_of (with_counts cfg (of_Z m) nPaths)) in *.
  set (g := createRng (Config.seed cfg) w) in *.
  set (cumProbs := cumProbs_of (Config.buckets cfg)) in *.
  destruct (new_Array safePaths) as [len|e]; [|discriminate].
  cbn [bind] in Hrun |- *.
  rewrite simulate_paths_with_counts in *.
  destruct (iterations safePaths) as [|k].
  - cbn [simulate_paths bind] in Hrun |- *. injection Hrun as <-.
    eexists. split; [reflexivity|].
    rewrite !aggregate_equityPaths, !aggregate_rPaths. cbn [map nth].
    rewrite firstn_nil. split; reflexivity.
  - cbn [simulate_paths] in Hrun. unfold bind in Hrun.
    destruct (simulate_path cfg (of_Z n) cumProbs g) as [[path g1]|e] eqn:Ep;
      [|discriminate].
    destruct (simulate_paths cfg (of_Z n) cumProbs k g1) as [rest|e];
      [|discriminate].
    injection Hrun as <-.
    unfold simulate_path in Ep.
    destruct (Z_lt_le_dec n (2 ^ 53)) as [Hlt|Hge];
      [|rewrite (new_Float64Array_too_long n Hge) in Ep; discriminate].
    rewrite new_Float64Array_of_Z in Ep by lia. cbn [bind] in Ep.
    rewrite iterations_of_Z in Ep.
    destruct (trades _ _ _ (Z.to_nat n) _) as [[[eqs rs] st]|e] eqn:Et;
      [|discriminate].
    cbn [bind] in Ep. injection Ep as <- <-.
    assert (Hb : Config.buckets cfg <> []).
    { replace (Z.to_nat n) with (S (Z.to_nat n - 1)) in Et by lia.
      exact (trades_need_a_bucket _ _ _ _ _ _ Et). }
    replace (Z.to_nat n) with (Z.to_nat m + (Z.to_nat n - Z.to_nat m))%nat
      in Et by lia.
    destruct (trades_prefix _ _ _ _ _ _ _ _ _ Et) as (st1 & Et1).
    assert (Ep' : exists path' g1',
               simulate_path cfg (of_Z m) cumProbs g = Ok (path', g1')
               /\ path_equity path' = firstn (Z.to_nat m) eqs
               /\ path_r path' = firstn (Z.to_nat m) rs).
    { unfold simulate_path.
      rewrite new_Float64Array_of_Z by lia. cbn [bind].
      rewrite iterations_of_Z. fold cumProbs in Et1. rewrite Et1. cbn [bind].
      eexists. eexists. split; [reflexivity|]. split; reflexivity. }
    destruct Ep' as (path' & g1' & Ep' & Eeq & Er).
    destruct (simulate_paths_total cfg (Z.to_nat m) Hb ltac:(lia) k g1')
      as (rest' & Erest & _).
    rewrite Z2Nat.id in Erest by lia. fold cumProbs in Erest.
    cbn [simulate_paths]. rewrite Ep'. cbn [bind]. rewrite Erest. cbn [bind].
    eexists. split; [reflexivity|].
    rewrite !aggregate_equityPaths, !aggregate_rPaths. cbn [map nth path_equity path_r].
    rewrite Eeq, Er. split; reflexivity.
Qed.

Lemma more_trades_keep_earlier_witness :
  exists res res',
    runSimulation (with_counts sample_config (of_Z 4) (Num 2)) quiet = Ok res
    /\ runSimulation (with_counts sample_config (of_Z 3) (Num 2)) quiet = Ok res'
    /\ nth 0 (Result.equityPaths res') []
       = firstn 3 (nth 0 (Result.equityPaths res) []).
Proof.
  destruct (runSimulation (with_counts sample_config (of_Z 4) (Num 2)) quiet)
    as [res|e] eqn:Hrun; [|vm_compute in Hrun; discriminate].
  destruct (more_trades_keep_earlier sample_config quiet (Num 2) 3 4 res
              ltac:(lia) Hrun) as (res' & Hrun' & E & _).
  exists res, res'. split; [reflexivity|]. split; [exact Hrun'|exact E].
Defined.

(* ================================================================== *)
(** ** The drawdown series and its lowest point *)

Lemma fold_qmin_least (ds : list Q) :
  forall a,
    let r := fold_left qmin ds a in
    (r = a \/ In r ds) /\ r <= a /\ forall e, In e ds -> r <= e.
Proof.
  induction ds as [|d ds IH]; intro a; cbv zeta.
  - cbn [fold_left]. split; [left; reflexivity|]. split; [lra|]. intros e [].
  - cbn [fold_left]. destruct (IH (qmin a d)) as (Hin & Hle & Hall).
    cbv zeta in Hin, Hle, Hall.
    set (r := fold_left qmin ds (qmin a d)) in *.
    assert (Hq : (qmin a d = a /\ a <= d) \/ (qmin a d = d /\ d <= a)).
    { unfold qmin. destruct (Qlt_bool d a) eqn:E.
      - apply Qlt_bool_iff in E. right. split; [reflexivity|lra].
      - apply Qlt_bool_false_iff in E. left. split; [reflexivity|exact E]. }
    split; [|split].
    + destruct Hin as [E|Hin]; [|right; right; exact Hin].
      destruct Hq as [[Eq _]|[Eq _]]; [left|right; left]; congruence.
    + destruct Hq as [[Eq Hd]|[Eq Hd]]; rewrite Eq in Hle; lra.
    + intros e [<-|He]; [|apply Hall; exact He].
      destruct Hq as [[Eq Hd]|[Eq Hd]]; rewrite Eq in Hle; lra.
Qed.



(* ================================================================== *)
(** ** Win rates *)

(** X22.  Whatever the input of [monthlyStatsFromPath] (paths of different
    lengths, NaN or infinite entries, any trades per month), the win rate
    of every row is a finite number between 0 and 1, never NaN. *)
Theorem win_rate_is_a_fraction :
  forall (equityPath rPath : list number)
         (startEquity tradesPerMonth startYear startMonth : number),
    Forall (fun row => exists q, MonthlyStatsRow.winRate row = Num q /\ 0 <= q /\ q <= 1)
      (monthlyStatsFromPath equityPath rPath startEquity tradesPerMonth
         startYear startMonth).
Proof.
  intros. unfold monthlyStatsFromPath. apply months_loop_rows.
  intros startIdx endIdx prev y mo.
  destruct (block_row_rates equityPath rPath startIdx endIdx prev y mo)
    as (E & _).
  cbv zeta in E. rewrite E. apply win_rate_range.
Qed.

(* ================================================================== *)
(** ** The limits of the progressive exposure *)

Lemma progressive_step_within (pg : Progressive.t) (s : Exposure)
      (sample : number) (lo hi r : Q) :
  Progressive.minRisk pg = Num lo ->
  Progressive.maxRisk pg = Num hi ->
  0 <= lo -> lo <= hi ->
  currentRisk s = Num r -> lo <= r -> r <= hi ->
  exists r',
    currentRisk (progressive_step pg s sample) = Num r'
    /\ lo <= r' /\ r' <= hi.
Proof.
  intros Hmin Hmax H0 Hlh Hr Hl Hh. unfold progressive_step.
  rewrite Hmin, Hmax, Hr.
  assert (Hdouble : exists r', Math_min (Num hi) (Num r * Num 2)%js = Num r'
                               /\ lo <= r' /\ r' <= hi).
  { unfold Math_min, mul, lt.
    destruct (Qlt_bool (r * 2) hi) eqn:E.
    - apply Qlt_bool_iff in E. eexists. split; [reflexivity|]. split; lra.
    - eexists. split; [reflexivity|]. split; lra. }
  assert (Hhalve : exists r', Math_max (Num lo) (Num r / Num 2)%js = Num r'
                              /\ lo <= r' /\ r' <= hi).
  { change ((Num r / Num 2)%js) with (Num (r / 2)).
    assert (Hhalf : r / 2 <= r).
    { assert (E : r / 2 == r * (1 # 2)) by field. rewrite E. lra. }
    unfold Math_max, lt.
    destruct (Qlt_bool lo (r / 2)) eqn:E.
    - apply Qlt_bool_iff in E. eexists. split; [reflexivity|]. split; lra.
    - eexists. split; [reflexivity|]. split; lra. }
  assert (Hkeep : exists r', Num r = Num r' /\ lo <= r' /\ r' <= hi).
  { exists r. split; [reflexivity|]. split; assumption. }
  destruct (sample >? zero)%js.
  - destruct (_ >=? _)%js; cbn [currentRisk]; assumption.
  - destruct (sample <? zero)%js; [|cbn [currentRisk]; assumption].
    destruct (_ >=? _)%js; cbn [currentRisk]; assumption.
Qed.

Lemma risks_same_length (progressive : option Progressive.t)
      (outcomes : list number) :
  forall s, length (risks progressive s outcomes) = length outcomes.
Proof.
  induction outcomes as [|o l IH]; intro s; [reflexivity|].
  cbn [risks length]. rewrite IH. reflexivity.
Qed.

Lemma risks_within (pg : Progressive.t) (lo hi : Q) (outcomes : list number) :
  Progressive.minRisk pg = Num lo ->
  Progressive.maxRisk pg = Num hi ->
  0 <= lo -> lo <= hi ->
  forall s r,
    currentRisk s = Num r -> lo <= r -> r <= hi ->
    Forall (fun risk => exists x, risk = Num x /\ lo <= x /\ x <= hi)
      (risks (Some pg) s outcomes).
Proof.
  intros Hmin Hmax H0 Hlh.
  induction outcomes as [|o outcomes IH]; intros s r Hr Hl Hh;
    cbn [risks]; constructor.
  - exists r. split; [exact Hr|]. split; assumption.
  - cbn [exposure_step].
    destruct (progressive_step_within pg s o lo hi r Hmin Hmax H0 Hlh Hr Hl Hh)
      as (r' & Hr' & Hl' & Hh').
    apply (IH _ r' Hr' Hl' Hh').
Qed.

(** X23.  With the progressive exposure on, limits 0 <= minRisk <= maxRisk
    and a base risk within them, the risk stays within the limits on every
    trade of every path, whatever the outcomes and the streak thresholds:
    every risk that the run applies (the risks of the equity recurrence)
    is a finite number between minRisk and maxRisk. *)
Theorem risk_within_limits :
  forall (cfg : Config.t) (pg : Progressive.t) (lo hi r0 : Q)
         (w : MathRandom) (res : Result.t),
    Config.progressive cfg = Some pg ->
    Progressive.minRisk pg = Num lo ->
    Progressive.maxRisk pg = Num hi ->
    Config.riskFraction cfg = Num r0 ->
    0 <= lo -> lo <= r0 -> r0 <= hi ->
    runSimulation cfg w = Ok res ->
    forall (i : nat) (equityPath rPath : list number),
      nth_error (Result.equityPaths res) i = Some equityPath ->
      nth_error (Result.rPaths res) i = Some rPath ->
      forall t,
        (t < length equityPath)%nat ->
        exists risk,
          nth t (risk_trace cfg rPath) NaN = Num risk
          /\ lo <= risk /\ risk <= hi
          /\ nth t equityPath NaN
             = (equity_before (Config.startEquity cfg) equityPath t
                * (one + Num risk * nth t rPath NaN))%js.
Proof.
  intros cfg pg lo hi r0 w res Hpg Hmin Hmax Hrf H0 Hl Hh Hrun
         i equityPath rPath He Hr t Ht.
  unfold runSimulation in Hrun.
  destruct (run_with_paths _ _ _ Hrun) as (paths & Hp & ->).
  rewrite aggregate_equityPaths in He. rewrite aggregate_rPaths in Hr.
  rewrite nth_error_map in He, Hr.
  destruct (nth_error paths i) as [path|] eqn:Epath; [|discriminate].
  cbn in He, Hr. injection He as <-. injection Hr as <-.
  pose proof (simulate_paths_recurrence _ _ _ _ _ _ Hp) as Hrec.
  rewrite Forall_forall in Hrec.
  destruct (Hrec path (nth_error_In _ _ Epath)) as (Hlen & Heq).
  pose proof (risks_within pg lo hi (path_r path) Hmin Hmax H0 ltac:(lra)
                (initial_exposure cfg) r0 Hrf Hl Hh) as Hall.
  assert (Hrt : risk_trace cfg (path_r path)
                = risks (Some pg) (initial_exposure cfg) (path_r path))
    by (unfold risk_trace; rewrite Hpg; reflexivity).
  rewrite <- Hrt in Hall. rewrite Forall_forall in Hall.
  assert (Hlr : length (risk_trace cfg (path_r path)) = length (path_r path)).
  { unfold risk_trace. apply risks_same_length. }
  destruct (Hall (nth t (risk_trace cfg (path_r path)) NaN))
    as (risk & Erisk & Hlo & Hhi).
  { apply nth_In. rewrite Hlr, <- Hlen. exact Ht. }
  exists risk. split; [exact Erisk|]. split; [exact Hlo|].
  split; [exact Hhi|]. rewrite <- Erisk. apply Heq. exact Ht.
Qed.

Lemma risk_within_limits_witness :
  exists res equityPath rPath risk,
    runSimulation sample_config quiet = Ok res
    /\ nth_error (Result.equityPaths res) 0 = Some equityPath
    /\ nth_error (Result.rPaths res) 0 = Some rPath
    /\ nth 3 (risk_trace sample_config rPath) NaN = Num risk
    /\ 1 # 1000 <= risk /\ risk <= 1 # 50.
Proof.
  destruct (runSimulation sample_config quiet) as [res|e] eqn:Hrun;
    [|vm_compute in Hrun; discriminate].
  destruct (nth_error (Result.equityPaths res) 0) as [equityPath|] eqn:He;
    [|vm_compute in Hrun; injection Hrun as <-; discriminate].
  destruct (nth_error (Result.rPaths res) 0) as [rPath|] eqn:Hr;
    [|vm_compute in Hrun; injection Hrun as <-; discriminate].
  assert (Hlen : (3 < length equityPath)%nat).
  { pose proof Hrun as Hrun'. vm_compute in Hrun'. injection Hrun' as <-.
    cbn in He. injection He as <-. cbn. lia. }
  destruct (risk_within_limits sample_config sample_policy
              (1 # 1000) (1 # 50) (1 # 100)
              quiet res eq_refl eq_refl eq_refl eq_refl
              ltac:(discriminate) ltac:(discriminate) ltac:(discriminate)
              Hrun 0%nat equityPath rPath He Hr 3%nat Hlen)
    as (risk & E & Hlo & Hhi & _).
  exists res, equityPath, rPath, risk. repeat split; assumption.
Defined.

(* ================================================================== *)
(** ** Equity that stays positive *)

Lemma factor_between (c d a b x : Q) :
  between a b x -> 0 < c + d * a -> 0 < c + d * b -> 0 < c + d * x.
Proof.
  intros [[H1 H2]|[H1 H2]] Ha Hb;
    destruct (Qlt_le_dec d 0) as [Hd|Hd]; nra.
Qed.

Lemma factor_positive (rlo rhi risk : Q) (b : Bucket.t) (sample : number) :
  survives rlo rhi b -> finite_bucket b -> in_range b sample ->
  rlo <= risk -> risk <= rhi ->
  exists x, sample = Num x /\ 0 < 1 + risk * x.
Proof.
  intros Hs (Hlo & Hhi & Hv) Hin Hl Hh.
  unfold survives, outcome_bounds in Hs. unfold in_range in Hin.
  assert (Hcorner : forall x, 0 < 1 + rlo * x -> 0 < 1 + rhi * x ->
                              0 < 1 + risk * x).
  { intros x Ha Hb.
    assert (E : forall r, 1 + r * x == 1 + x * r) by (intro; ring).
    rewrite E in *. apply (factor_between 1 x rlo rhi risk); auto.
    left. split; assumption. }
  destruct (Bucket.type b).
  - destruct Hin as (x & -> & Hx). exists x. split; [reflexivity|].
    destruct (Hs _ (or_introl eq_refl)) as [A1 A2].
    destruct (Hs _ (or_intror (or_introl eq_refl))) as [B1 B2].
    apply (factor_between 1 risk _ _ x Hx); apply Hcorner; assumption.
  - subst sample.
    destruct (nullish (Bucket.v b) zero) as [ | | |v]; try discriminate.
    exists v. split; [reflexivity|].
    destruct (Hs _ (or_introl eq_refl)) as [A1 A2].
    apply Hcorner; assumption.
Qed.

Lemma risk_trace_within (cfg : Config.t) (rlo rhi : Q) (rPath : list number) :
  risk_limits cfg rlo rhi ->
  forall t, (t < length rPath)%nat ->
    exists risk,
      nth t (risk_trace cfg rPath) NaN = Num risk
      /\ rlo <= risk /\ risk <= rhi.
Proof.
  intros (r0 & Hrf & Hl & Hh & Hpg) t Ht. unfold risk_trace.
  destruct (Config.progressive cfg) as [pg|].
  - destruct Hpg as (Hmin & Hmax & H0).
    pose proof (risks_within pg rlo rhi rPath Hmin Hmax H0 ltac:(lra)
                  (initial_exposure cfg) r0 Hrf Hl Hh) as Hall.
    rewrite Forall_forall in Hall. apply Hall. apply nth_In.
    rewrite risks_same_length. exact Ht.
  - rewrite risks_without_policy by exact Ht.
    exists r0. split; [exact Hrf|]. split; assumption.
Qed.



(* ================================================================== *)
(** ** The percentiles of a result *)

Lemma percentile_within (qs : list Q) (p lo hi : Q) :
  qs <> [] -> 0 <= p -> p <= 100 ->
  (forall q, In q qs -> lo <= q /\ q <= hi) ->
  exists a,
    percentile (map Num qs) (Num p) = Some (Num a) /\ lo <= a /\ a <= hi.
Proof.
  intros Hne H0 H1 Hall.
  assert (Hn : (1 <= length qs)%nat).
  { destruct qs; [contradiction|cbn; lia]. }
  eexists. split; [apply (percentile_Num qs p Hne H0 H1)|].
  destruct (rank_bounds p (length qs) H0 H1 Hn) as [Ha Hb].
  assert (Hb' : rank p (length qs)
                <= inject_Z (Z.of_nat (length (qsort qs))) - 1)
    by (rewrite qsort_length; exact Hb).
  destruct (interpolate_between (qsort qs) (qsort_sorted qs) _ Ha Hb')
    as [Hl Hu].
  destruct (floor_ceiling_bounds _ _ Ha Hb) as ([Hf0 Hfc] & _ & Hcn).
  assert (Hin : forall z, (0 <= z <= Z.of_nat (length qs) - 1)%Z ->
                          In (nth (Z.to_nat z) (qsort qs) 0) qs).
  { intros z Hz. apply qsort_In. apply nth_In. rewrite qsort_length. lia. }
  split.
  - apply Qle_trans with (2 := Hl). apply Hall. apply Hin. lia.
  - apply Qle_trans with (1 := Hu). apply Hall. apply Hin. lia.
Qed.

Lemma percentile_ordered (qs : list Q) (p1 p2 : Q) :
  qs <> [] -> 0 <= p1 -> p1 <= p2 -> p2 <= 100 ->
  exists a b,
    percentile (map Num qs) (Num p1) = Some (Num a)
    /\ percentile (map Num qs) (Num p2) = Some (Num b)
    /\ a <= b.
Proof.
  intros Hne H0 H12 H1.
  assert (Hn : (1 <= length qs)%nat).
  { destruct qs; [contradiction|cbn; lia]. }
  eexists. eexists.
  split; [apply (percentile_Num qs p1 Hne); lra|].
  split; [apply (percentile_Num qs p2 Hne); lra|].
  destruct (rank_bounds p1 (length qs)) as [Ha Hb]; try lra; try lia.
  destruct (rank_bounds p2 (length qs)) as [Hc Hd]; try lra; try lia.
  apply interpolate_monotone;
    [apply qsort_sorted|exact Ha| |rewrite qsort_length; exact Hd].
  apply rank_monotone; [exact H12|lia].
Qed.

Lemma aggregate_stats cfg paths :
  let st := Result.stats (aggregate cfg paths) in
  let fe := map path_final paths in
  let dd := map path_maxDd paths in
  let mcl := map path_losses paths in
  Stats.final5 st = percentile fe (Num 5)
  /\ Stats.final50 st = percentile fe (Num 50)
  /\ Stats.final95 st = percentile fe (Num 95)
  /\ Stats.dd5 st = percentile dd (Num 5)
  /\ Stats.dd50 st = percentile dd (Num 50)
  /\ Stats.dd95 st = percentile dd (Num 95)
  /\ Stats.mcl5 st = percentile mcl (Num 5)
  /\ Stats.mcl50 st = percentile mcl (Num 50)
  /\ Stats.mcl95 st = percentile mcl (Num 95).
Proof.
  cbv zeta. unfold aggregate. destruct (select _ _) as [[b w] m].
  repeat split; reflexivity.
Qed.

Lemma simulate_path_losses cfg safeTrades cumProbs g path g' :
  simulate_path cfg safeTrades cumProbs g = Ok (path, g') ->
  path_losses path = maxConsecutiveLosses (path_r path).
Proof.
  unfold simulate_path, bind.
  destruct (new_Float64Array safeTrades); [|discriminate].
  destruct (trades _ _ _ _ _) as [[[eqs rs] st]|e]; [|discriminate].
  intro H. injection H as <- <-. reflexivity.
Qed.

Lemma three_percentiles (qs : list Q) (lo hi : Q) :
  qs <> [] ->
  (forall q, In q qs -> lo <= q /\ q <= hi) ->
  exists a b c,
    percentile (map Num qs) (Num 5) = Some (Num a)
    /\ percentile (map Num qs) (Num 50) = Some (Num b)
    /\ percentile (map Num qs) (Num 95) = Some (Num c)
    /\ lo <= a /\ a <= b /\ b <= c /\ c <= hi.
Proof.
  intros Hne Hall.
  destruct (percentile_within qs 5 lo hi Hne) as (a & Ea & Hla & _);
    [lra|lra|exact Hall|].
  destruct (percentile_within qs 95 lo hi Hne) as (c & Ec & _ & Hhc);
    [lra|lra|exact Hall|].
  destruct (percentile_ordered qs 5 50 Hne) as (a' & b & Ea' & Eb & Hab);
    [lra|lra|lra|].
  destruct (percentile_ordered qs 50 95 Hne) as (b' & c' & Eb' & Ec' & Hbc);
    [lra|lra|lra|].
  assert (a' = a) by congruence. assert (b' = b) by congruence.
  assert (c' = c) by congruence. subst a' b' c'.
  exists a, b, c. repeat split; assumption.
Qed.



(* ================================================================== *)
(** ** The percentile of the same values in another order *)

Lemma Qlt_bool_morphism (a a' b b' : Q) :
  a == a' -> b == b' -> Qlt_bool a b = Qlt_bool a' b'.
Proof.
  intros Ha Hb. apply eq_true_iff_eq. rewrite !Qlt_bool_iff, Ha, Hb.
  reflexivity.
Qed.

Lemma qinsert_pointwise (x : Q) (s s' : list Q) :
  Forall2 Qeq s s' -> Forall2 Qeq (qinsert x s) (qinsert x s').
Proof.
  induction 1 as [|z z' s s' Hz Hs IH]; cbn [qinsert].
  - constructor; [reflexivity|constructor].
  - rewrite (Qlt_bool_morphism 0 0 (x - z) (x - z'))
      by (try reflexivity; rewrite Hz; reflexivity).
    destruct (Qlt_bool 0 (x - z')).
    + constructor; assumption.
    + constructor; [reflexivity|]. constructor; assumption.
Qed.

Lemma Forall2_Qeq_refl (s : list Q) : Forall2 Qeq s s.
Proof. induction s; constructor; [reflexivity|assumption]. Qed.

Lemma Forall2_Qeq_trans (s1 s2 s3 : list Q) :
  Forall2 Qeq s1 s2 -> Forall2 Qeq s2 s3 -> Forall2 Qeq s1 s3.
Proof.
  intro H. revert s3. induction H as [|a b s1 s2 Hab _ IH]; intros s3 H23.
  - exact H23.
  - inversion H23 as [|? c ? s3' Hbc Hrest]; subst.
    constructor; [rewrite Hab; exact Hbc|apply IH; exact Hrest].
Qed.

Lemma qinsert_two (x y : Q) (rest : list Q) :
  Forall2 Qeq
    (if Qlt_bool 0 (x - y) then y :: x :: rest else x :: y :: rest)
    (if Qlt_bool 0 (y - x) then x :: y :: rest else y :: x :: rest).
Proof.
  destruct (Qlt_bool 0 (x - y)) eqn:E1; destruct (Qlt_bool 0 (y - x)) eqn:E2.
  - apply Qlt_bool_iff in E1. apply Qlt_bool_iff in E2. lra.
  - apply Forall2_Qeq_refl.
  - apply Forall2_Qeq_refl.
  - apply Qlt_bool_false_iff in E1. apply Qlt_bool_false_iff in E2.
    assert (E : x == y) by lra.
    constructor; [exact E|]. constructor; [symmetry; exact E|].
    apply Forall2_Qeq_refl.
Qed.

Lemma qinsert_commute (x y : Q) (s : list Q) :
  Forall2 Qeq (qinsert x (qinsert y s)) (qinsert y (qinsert x s)).
Proof.
  induction s as [|z l IH].
  - cbn [qinsert]. apply qinsert_two.
  - cbn [qinsert].
    destruct (Qlt_bool 0 (y - z)) eqn:Ey; destruct (Qlt_bool 0 (x - z)) eqn:Ex;
      cbn [qinsert].
    + rewrite Ex, Ey. constructor; [reflexivity|exact IH].
    + assert (E : Qlt_bool 0 (y - x) = true).
      { apply Qlt_bool_iff in Ey. apply Qlt_bool_false_iff in Ex.
        apply Qlt_bool_iff. lra. }
      rewrite Ex, E, Ey. apply Forall2_Qeq_refl.
    + assert (E : Qlt_bool 0 (x - y) = true).
      { apply Qlt_bool_iff in Ex. apply Qlt_bool_false_iff in Ey.
        apply Qlt_bool_iff. lra. }
      rewrite E, Ex, Ey. apply Forall2_Qeq_refl.
    + rewrite Ex, Ey. apply qinsert_two.
Qed.

Lemma qsort_permutation (l l' : list Q) :
  Permutation l l' -> Forall2 Qeq (qsort l) (qsort l').
Proof.
  induction 1 as [|x l l' _ IH|x y l|l1 l2 l3 _ IH1 _ IH2].
  - constructor.
  - cbn [qsort fold_right]. apply qinsert_pointwise. exact IH.
  - cbn [qsort fold_right]. apply qinsert_commute.
  - apply (Forall2_Qeq_trans _ _ _ IH1 IH2).
Qed.

Lemma Forall2_Qeq_nth (s s' : list Q) :
  Forall2 Qeq s s' -> forall i, nth i s 0 == nth i s' 0.
Proof.
  induction 1 as [|a b s s' Hab _ IH]; intros [|i]; cbn [nth];
    try reflexivity; [exact Hab|apply IH].
Qed.

Lemma interpolate_pointwise (s s' : list Q) (x : Q) :
  Forall2 Qeq s s' -> interpolate s x == interpolate s' x.
Proof.
  intro H. unfold interpolate.
  pose proof (Forall2_Qeq_nth s s' H) as Hn.
  destruct (Qfloor x =? Qceiling x)%Z.
  - apply Hn.
  - rewrite (Hn (Z.to_nat (Qfloor x))), (Hn (Z.to_nat (Qceiling x))).
    reflexivity.
Qed.

(** X26.  A percentile depends on the values and not on their order: for
    finite values and [p] in 0..100, the percentile of a list and of any
    rearrangement of it are equal. *)
Theorem percentile_of_rearrangement :
  forall (qs qs' : list Q) (p : Q),
    Permutation qs qs' ->
    0 <= p -> p <= 100 ->
    exists v v',
      percentile (map Num qs) (Num p) = Some v
      /\ percentile (map Num qs') (Num p) = Some v'
      /\ v =n= v'.
Proof.
  intros qs qs' p Hperm H0 H1.
  destruct qs as [|q l].
  - apply Permutation_nil in Hperm. subst qs'.
    exists zero, zero. repeat split; reflexivity.
  - assert (Hne' : qs' <> []).
    { intros ->. apply Permutation_sym, Permutation_nil in Hperm.
      discriminate. }
    eexists. eexists.
    split; [apply percentile_Num; [discriminate|exact H0|exact H1]|].
    split; [apply percentile_Num; [exact Hne'|exact H0|exact H1]|].
    unfold num_eq. rewrite <- (Permutation_length Hperm).
    apply interpolate_pointwise. apply qsort_permutation. exact Hperm.
Qed.

Lemma percentile_of_rearrangement_witness :
  exists v v',
    percentile (map Num [3; 1; 2; 5]) (Num 30) = Some v
    /\ percentile (map Num [5; 2; 3; 1]) (Num 30) = Some v'
    /\ v =n= v'.
Proof.
  apply (percentile_of_rearrangement [3; 1; 2; 5] [5; 2; 3; 1] 30).
  - apply Permutation_trans with (l' := [5; 3; 1; 2]).
    + apply Permutation_sym.
      apply (Permutation_cons_append [3; 1; 2] 5).
    + apply perm_skip.
      apply Permutation_trans with (l' := [2; 3; 1]).
      * apply Permutation_sym. apply (Permutation_cons_append [3; 1] 2).
      * apply Permutation_refl.
  - discriminate.
  - discriminate.
Defined.

(* ================================================================== *)
(** ** How a run ends *)

Lemma safe_count_cases (x : number) :
  Math_max one (Math_trunc x)
  = match x with
    | NaN => NaN
    | PosInfinity => PosInfinity
    | NegInfinity => of_Z 1
    | Num q => of_Z (Z.max 1 (Qtrunc q))
    end.
Proof.
  destruct x as [ | | |q]; try reflexivity. apply Math_max_one_of_Z.
Qed.

Lemma simulate_paths_throw cfg safeTrades cumProbs g e k :
  simulate_path cfg safeTrades cumProbs g = Throw e ->
  simulate_paths cfg safeTrades cumProbs (S k) g = Throw e.
Proof. intro H. cbn [simulate_paths]. rewrite H. reflexivity. Qed.

Lemma simulate_path_unallocated cfg safeTrades cumProbs g e :
  new_Float64Array safeTrades = Throw e ->
  simulate_path cfg safeTrades cumProbs g = Throw e.
Proof. intro H. unfold simulate_path. rewrite H. reflexivity. Qed.

Lemma trade_without_bucket cumProbs progressive st :
  trade [] cumProbs progressive st = Throw TypeError.
Proof.
  unfold trade, sample_trade. destruct (draw (rng st)) as [r g].
  assert (E : pick_bucket [] cumProbs r = None).
  { unfold pick_bucket. destruct (findIndex _ cumProbs) as [[|i]|]; reflexivity. }
  rewrite E. reflexivity.
Qed.

Lemma simulate_paths_no_trade cfg cumProbs :
  forall n g, exists paths, simulate_paths cfg NaN cumProbs n g = Ok paths.
Proof.
  induction n as [|n IH]; intro g.
  - exists []. reflexivity.
  - cbn [simulate_paths]. unfold simulate_path.
    cbn [new_Float64Array bind iterations trades initial_state rng].
    destruct (IH g) as (rest & ->). cbn [bind]. eexists. reflexivity.
Qed.


